(** * GlazeWM IPC client: request/reply correlation and event subscription

    A shallow embedding of [src/client.ts] (class [GwmClient]) together with
    the small part of the JavaScript run time the class relies on: closures
    compared by reference, promises, and the microtask queue that runs
    promise reactions after every socket notification. *)

From Stdlib Require Import ZArith Ascii DecimalString DecimalFacts DecimalPos DecimalN DecimalZ Lia.
From stdpp Require Import base decidable option list strings.

(** ** Wire types *)

(** [IpcMessage] and [GwmEvent] are plain command strings and event tags:
    the class only ever builds them from string literals and templates. *)
Definition IpcMessage := string.
Definition GwmEvent := string.

(** Modelled from the spec: the declarations of [./types] are not part of
    the sources.  An event payload is an object with an event-type tag
    (possibly absent, since the class reads it through an untyped cast) and
    event-specific fields, kept opaque here. *)
Record GwmEventData := { type : option GwmEvent; fields : nat }.

(** Modelled from the spec: [ServerMessage] of [./types/server-message].  A
    message carries its kind, the echoed command, an optional error text and
    a data payload. *)
Record ServerMessage := {
  messageType : string;
  clientMessage : option IpcMessage;
  error : option string;
  data : GwmEventData
}.

(** A JavaScript number, as far as the class tells numbers apart.  The class
    never computes with the port: it interpolates it into a template literal,
    which applies [ToString].  An integer of magnitude below [2^53] is an
    exact double and is kept as that integer; [NaN] and the infinities are
    kept as such; every other finite number ([0.5], [1e21], ...) is kept as
    the text [Number::toString] gives it, for instance ["1e+21"] for [1e21]. *)
Definition safe (z : Z) : bool := (Z.abs z <? 2 ^ 53)%Z.

Inductive JsNumber :=
  | Integer (z : Z) (bound : safe z = true)
  | NaN
  | Infinity (negative : bool)
  | OtherNumber (text : string).

(** [interface GwmClientOptions].  The interface declares [port] mandatory;
    the constructor nevertheless reads it with [options?.port ?? ...], so an
    object without the property is accepted at run time. *)
Record GwmClientOptions := { port : option JsNumber }.

(** ** Closures and handles *)

(** The four callback registries. *)
Inductive Registry := OnMessage | OnConnect | OnDisconnect | OnError.

(** Functions that end up in a registry.  JavaScript compares them by
    reference, so each carries its identity: a caller-supplied function is
    named by [f]; the two arrow functions the class creates itself carry the
    serial number [id] of their creation next to the variables they capture. *)
Inductive Callback :=
  | UserFn (f : nat)
  | ReplyListener (id : nat) (message : IpcMessage) (resolve : nat)
  | EventListener (id : nat) (eventsArr : list GwmEvent) (callback : nat).

(** [UnlistenFn]: the arrow function returned by [onMessage] and its
    siblings; it captures the registry it filters and the callback it drops. *)
Record UnlistenFn := { registry : Registry; dropped : Callback }.

(** What a caller-supplied function is invoked with. *)
Inductive Arg :=
  | AMessage (m : ServerMessage)
  | AData (d : GwmEventData)
  | AEvent (e : nat)
  | ACloseEvent (e : nat).

(** Ordered record of the side effects of the class: calls on the transport,
    registry mutations and invocations of caller-supplied functions. *)
Inductive Effect :=
  | ESend (m : IpcMessage)
  | EClose
  | ERegister (r : Registry) (cb : Callback)
  | EUnlisten (r : Registry) (cb : Callback)
  | ECall (f : nat) (a : Arg).

(** ** Promises *)

Inductive Value :=
  | VMessage (m : ServerMessage)
  | VUnlisten (u : UnlistenFn).

Inductive Outcome :=
  | Pending
  | Fulfilled (v : Value)
  | Rejected (e : string).

(** How a promise came to be, which is also what settles it:
    - [Executor]: [new Promise(executor)], settled by its [resolve] function;
    - [Finally p u]: [p.finally(() => u())];
    - [AsyncReturn p]: the promise of an async function whose body returned [p];
    - [AwaitReply p eventsArr callback]: the promise of the async function
      [subscribe], suspended at [await p]. *)
Inductive Origin :=
  | Executor
  | Finally (p : nat) (u : UnlistenFn)
  | AsyncReturn (p : nat)
  | AwaitReply (p : nat) (eventsArr : list GwmEvent) (callback : nat).

Record Promise := { state : Outcome; origin : Origin }.

#[global] Instance GwmEventData_eq_dec : EqDecision GwmEventData.
Proof. solve_decision. Defined.
#[global] Instance ServerMessage_eq_dec : EqDecision ServerMessage.
Proof. solve_decision. Defined.
#[global] Instance Registry_eq_dec : EqDecision Registry.
Proof. solve_decision. Defined.
#[global] Instance Callback_eq_dec : EqDecision Callback.
Proof. solve_decision. Defined.
#[global] Instance UnlistenFn_eq_dec : EqDecision UnlistenFn.
Proof. solve_decision. Defined.
#[global] Instance Arg_eq_dec : EqDecision Arg.
Proof. solve_decision. Defined.
#[global] Instance Effect_eq_dec : EqDecision Effect.
Proof. solve_decision. Defined.
#[global] Instance Value_eq_dec : EqDecision Value.
Proof. solve_decision. Defined.
#[global] Instance Outcome_eq_dec : EqDecision Outcome.
Proof. solve_decision. Defined.

(** ** The client object and its run time *)

(** The private fields of [class GwmClient], followed by the run-time state
    the object lives in: the promise table (a promise is its index), the
    microtask queue (a job is the promise it is going to settle), the number
    of closures created so far and the effect log. *)
Record GwmClient := {
  _socket : string;
  _onMessageCallbacks : list Callback;
  _onConnectCallbacks : list Callback;
  _onDisconnectCallbacks : list Callback;
  _onErrorCallbacks : list Callback;
  promises : list Promise;
  microtasks : list nat;
  closures : nat;
  trace : list Effect
}.

Definition callbacks (r : Registry) (w : GwmClient) : list Callback :=
  match r with
  | OnMessage => _onMessageCallbacks w
  | OnConnect => _onConnectCallbacks w
  | OnDisconnect => _onDisconnectCallbacks w
  | OnError => _onErrorCallbacks w
  end.

Definition set_callbacks (r : Registry) (l : list Callback) (w : GwmClient) : GwmClient :=
  {| _socket := _socket w;
     _onMessageCallbacks := if decide (r = OnMessage) then l else _onMessageCallbacks w;
     _onConnectCallbacks := if decide (r = OnConnect) then l else _onConnectCallbacks w;
     _onDisconnectCallbacks := if decide (r = OnDisconnect) then l else _onDisconnectCallbacks w;
     _onErrorCallbacks := if decide (r = OnError) then l else _onErrorCallbacks w;
     promises := promises w; microtasks := microtasks w;
     closures := closures w; trace := trace w |}.

Definition set_promises (ps : list Promise) (w : GwmClient) : GwmClient :=
  {| _socket := _socket w;
     _onMessageCallbacks := _onMessageCallbacks w;
     _onConnectCallbacks := _onConnectCallbacks w;
     _onDisconnectCallbacks := _onDisconnectCallbacks w;
     _onErrorCallbacks := _onErrorCallbacks w;
     promises := ps; microtasks := microtasks w;
     closures := closures w; trace := trace w |}.

Definition set_microtasks (q : list nat) (w : GwmClient) : GwmClient :=
  {| _socket := _socket w;
     _onMessageCallbacks := _onMessageCallbacks w;
     _onConnectCallbacks := _onConnectCallbacks w;
     _onDisconnectCallbacks := _onDisconnectCallbacks w;
     _onErrorCallbacks := _onErrorCallbacks w;
     promises := promises w; microtasks := q;
     closures := closures w; trace := trace w |}.

Definition set_closures (n : nat) (w : GwmClient) : GwmClient :=
  {| _socket := _socket w;
     _onMessageCallbacks := _onMessageCallbacks w;
     _onConnectCallbacks := _onConnectCallbacks w;
     _onDisconnectCallbacks := _onDisconnectCallbacks w;
     _onErrorCallbacks := _onErrorCallbacks w;
     promises := promises w; microtasks := microtasks w;
     closures := n; trace := trace w |}.

Definition log (e : Effect) (w : GwmClient) : GwmClient :=
  {| _socket := _socket w;
     _onMessageCallbacks := _onMessageCallbacks w;
     _onConnectCallbacks := _onConnectCallbacks w;
     _onDisconnectCallbacks := _onDisconnectCallbacks w;
     _onErrorCallbacks := _onErrorCallbacks w;
     promises := promises w; microtasks := microtasks w;
     closures := closures w; trace := trace w ++ [e] |}.

(** ** Promise machinery *)

Definition outcome (p : nat) (w : GwmClient) : Outcome :=
  match promises w !! p with
  | Some pr => state pr
  | None => Pending
  end.

Definition settled (o : Outcome) : bool :=
  match o with Pending => false | _ => true end.

(** The promise an origin waits for. *)
Definition parent (o : Origin) : option nat :=
  match o with
  | Executor => None
  | Finally p _ | AsyncReturn p | AwaitReply p _ _ => Some p
  end.

Definition waits_for (p : nat) (pr : Promise) : bool :=
  bool_decide (parent (origin pr) = Some p).

(** The promises of [ps], numbered from [j], that wait for [p]: the reactions
    attached to [p], in the order in which they were attached. *)
Fixpoint dependents (p j : nat) (ps : list Promise) : list nat :=
  match ps with
  | [] => []
  | pr :: ps' =>
      if waits_for p pr then j :: dependents p (S j) ps' else dependents p (S j) ps'
  end.

(** Settling [p]: record the outcome and queue one reaction job for each
    promise waiting for [p]. *)
Definition settle (p : nat) (out : Outcome) (w : GwmClient) : GwmClient :=
  match promises w !! p with
  | Some pr =>
      set_microtasks (microtasks w ++ dependents p 0 (promises w))
        (set_promises (<[p := {| state := out; origin := origin pr |}]> (promises w)) w)
  | None => w
  end.

(** The [resolve] function of [new Promise]: only the first call counts. *)
Definition resolve (p : nat) (v : Value) (w : GwmClient) : GwmClient :=
  match outcome p w with
  | Pending => settle p (Fulfilled v) w
  | _ => w
  end.

(** Creating a promise.  A promise derived from an already settled one gets
    its reaction job queued at once. *)
Definition new_promise (o : Origin) (w : GwmClient) : nat * GwmClient :=
  let j := length (promises w) in
  let w' := set_promises (promises w ++ [{| state := Pending; origin := o |}]) w in
  match parent o with
  | Some p => (j, if settled (outcome p w) then set_microtasks (microtasks w ++ [j]) w' else w')
  | None => (j, w')
  end.

(** ** The class *)

Definition DEFAULT_PORT : JsNumber := Integer 6123 eq_refl.

(** Template-literal rendering of a port, [`${port}`]: [ToString] of the
    number.  A safe integer is below [1e21] and prints as its decimal
    digits, with a leading minus sign when negative; [NaN] and the
    infinities print as their names; any other number prints as its own
    text. *)
Definition render (x : JsNumber) : string :=
  match x with
  | Integer z _ => NilZero.string_of_int (Z.to_int z)
  | NaN => "NaN"
  | Infinity negative => if negative then "-Infinity" else "Infinity"
  | OtherNumber text => text
  end.

(** A numeral in normal form: no leading zero, no sign on zero, no empty
    digit sequence. *)
Definition normal_form (s : string) : bool :=
  match s with
  | EmptyString => false
  | String c s' =>
      if Ascii.eqb c "-"%char then
        match s' with
        | EmptyString => false
        | String d _ => negb (Ascii.eqb d "0"%char)
        end
      else if Ascii.eqb c "0"%char then bool_decide (s' = EmptyString)
      else true
  end.

(** What the specification means by [<port>] for an integer port: the
    decimal numeral of that integer.  It is stated through the Standard
    Library's reader of numerals, not through [render]: the text reads back
    as [z] (so it consists of digits after an optional minus sign) and it is
    in normal form. *)
Definition decimal_of (z : Z) (s : string) : Prop :=
  Z.of_int <$> NilZero.int_of_string s = Some z ∧ normal_form s = true.

Definition socket_url (options : option GwmClientOptions) : string :=
  "ws://localhost:" +:+
  render (match options with
          | Some o => match port o with Some n => n | None => DEFAULT_PORT end
          | None => DEFAULT_PORT
          end).

(** [new GwmClient(options)].  The parameter property [options] is assigned
    before the field initialisers run, so [_socket] sees it; the registries
    start empty. *)
Definition new_GwmClient (options : option GwmClientOptions) : GwmClient :=
  {| _socket := socket_url options;
     _onMessageCallbacks := [];
     _onConnectCallbacks := [];
     _onDisconnectCallbacks := [];
     _onErrorCallbacks := [];
     promises := []; microtasks := []; closures := 0; trace := [] |}.

(** Modelled from the spec: [send] and [close] of the transport adapter
    ([./websocket] is not part of the sources).  [send] hands the payload
    over for delivery and does not fail synchronously, [close] terminates the
    channel; what the class can observe of either is that the call was made,
    which the log records. *)
Definition socket_send (payload : IpcMessage) (w : GwmClient) : GwmClient :=
  log (ESend payload) w.

Definition socket_close (w : GwmClient) : GwmClient :=
  log EClose w.

(** [send(message)]. *)
Definition send (message : IpcMessage) (w : GwmClient) : GwmClient :=
  socket_send message w.

(** [close()]. *)
Definition close (w : GwmClient) : GwmClient :=
  socket_close w.

(** The body shared by [onMessage], [onConnect], [onDisconnect] and
    [onError]: push, then return the filtering arrow function. *)
Definition listen (r : Registry) (callback : Callback) (w : GwmClient)
  : UnlistenFn * GwmClient :=
  ({| registry := r; dropped := callback |},
   log (ERegister r callback) (set_callbacks r (callbacks r w ++ [callback]) w)).

Definition onMessage := listen OnMessage.
Definition onConnect := listen OnConnect.
Definition onDisconnect := listen OnDisconnect.
Definition onError := listen OnError.

(** Calling an [UnlistenFn]: the registry becomes
    [registry.filter((cb) => cb !== callback)]. *)
Definition unlisten (u : UnlistenFn) (w : GwmClient) : GwmClient :=
  log (EUnlisten (registry u) (dropped u))
    (set_callbacks (registry u)
       (filter (λ cb, cb ≠ dropped u) (callbacks (registry u) w)) w).

(** [msg.messageType === 'client_response' && msg.clientMessage === message] *)
Definition is_reply (message : IpcMessage) (msg : ServerMessage) : bool :=
  bool_decide (messageType msg = "client_response") &&
  bool_decide (clientMessage msg = Some message).

(** [msg.messageType === 'subscribed_event' && eventsArr.includes(msg.data.type)] *)
Definition is_event (eventsArr : list GwmEvent) (msg : ServerMessage) : bool :=
  bool_decide (messageType msg = "subscribed_event") &&
  match type (data msg) with
  | Some t => bool_decide (t ∈ eventsArr)
  | None => false
  end.

(** [sendAndWaitReply(message)], up to the point where it returns its
    promise: the executor sends, then registers the listener; [finally]
    derives a second promise; the async function wraps that in a third. *)
Definition sendAndWaitReply (message : IpcMessage) (w : GwmClient) : nat * GwmClient :=
  let '(p, w) := new_promise Executor w in
  let w := send message w in
  let l := ReplyListener (closures w) message p in
  let '(u, w) := onMessage l (set_closures (S (closures w)) w) in
  let '(p', w) := new_promise (Finally p u) w in
  new_promise (AsyncReturn p') w.

Definition getMonitors := sendAndWaitReply "monitors".
Definition getWorkspaces := sendAndWaitReply "workspaces".
Definition getWindows := sendAndWaitReply "windows".

(** [Array.isArray(event) ? event : [event]] *)
Definition eventsArr_of (event : GwmEvent + list GwmEvent) : list GwmEvent :=
  match event with
  | inl e => [e]
  | inr es => es
  end.

(** [subscribe(event, callback)] up to its [await]. *)
Definition subscribe (event : GwmEvent + list GwmEvent) (callback : nat) (w : GwmClient)
  : nat * GwmClient :=
  let eventsArr := eventsArr_of event in
  let '(p, w) := sendAndWaitReply ("subscribe -e " +:+ String.concat "," eventsArr) w in
  new_promise (AwaitReply p eventsArr callback) w.

(** [response.error] as a condition: a non-empty string. *)
Definition truthy (e : option string) : bool :=
  match e with
  | Some s => negb (bool_decide (s = ""))
  | None => false
  end.

Definition error_of (response : Value) : option string :=
  match response with
  | VMessage m => error m
  | VUnlisten _ => None
  end.

Definition subscribe_failure (eventsArr : list GwmEvent) (e : option string) : string :=
  "Failed to subscribe to event '" +:+ String.concat "," eventsArr +:+ "': " +:+ default "" e.

(** The rest of [subscribe], run when the awaited reply is there; [q] is
    the promise [subscribe] returned. *)
Definition subscribe_resume (eventsArr : list GwmEvent) (callback : nat)
    (response : Value) (q : nat) (w : GwmClient) : GwmClient :=
  if truthy (error_of response) then
    settle q (Rejected (subscribe_failure eventsArr (error_of response))) w
  else
    let l := EventListener (closures w) eventsArr callback in
    let '(u, w) := onMessage l (set_closures (S (closures w)) w) in
    settle q (Fulfilled (VUnlisten u)) w.

(** ** Microtasks *)

(** One reaction job: settle the pending promise [j] from the outcome of the
    promise it waits for. *)
Definition run_job (j : nat) (w : GwmClient) : GwmClient :=
  match promises w !! j with
  | Some {| state := Pending; origin := o |} =>
      match o with
      | Executor => w
      | Finally p u =>
          match outcome p w with
          | Pending => w
          | out => settle j out (unlisten u w)
          end
      | AsyncReturn p =>
          match outcome p w with
          | Pending => w
          | out => settle j out w
          end
      | AwaitReply p eventsArr callback =>
          match outcome p w with
          | Pending => w
          | Fulfilled response => subscribe_resume eventsArr callback response j w
          | Rejected e => settle j (Rejected e) w
          end
      end
  | _ => w
  end.

Fixpoint drain (fuel : nat) (w : GwmClient) : GwmClient :=
  match fuel, microtasks w with
  | S fuel', j :: q => drain fuel' (run_job j (set_microtasks q w))
  | _, _ => w
  end.

Definition waits_for_pending (w : GwmClient) (pr : Promise) : bool :=
  match parent (origin pr) with
  | Some p => negb (settled (outcome p w))
  | None => false
  end.

(** Every job still to come is either queued or waits for a pending promise. *)
Definition budget (w : GwmClient) : nat :=
  length (microtasks w) + length (List.filter (waits_for_pending w) (promises w)).

(** The microtask checkpoint: run jobs until the queue is empty. *)
Definition runMicrotasks (w : GwmClient) : GwmClient := drain (budget w) w.

(** ** Socket lifecycle *)

(** Calling one registered function.  A caller-supplied function is opaque:
    its call is logged, and it is taken not to call back into the client
    while it runs. *)
Definition invoke (a : Arg) (w : GwmClient) (cb : Callback) : GwmClient :=
  match cb with
  | UserFn f => log (ECall f a) w
  | ReplyListener _ message p =>
      match a with
      | AMessage msg => if is_reply message msg then resolve p (VMessage msg) w else w
      | _ => w
      end
  | EventListener _ eventsArr callback =>
      match a with
      | AMessage msg =>
          if is_event eventsArr msg then log (ECall callback (AData (data msg))) w else w
      | _ => w
      end
  end.

(** [array.forEach((callback) => callback(a))] *)
Definition forEach (l : list Callback) (a : Arg) (w : GwmClient) : GwmClient :=
  foldl (invoke a) w l.

Inductive SocketEvent :=
  | onmessage (data : ServerMessage)
  | onopen (e : nat)
  | onerror (e : nat)
  | onclose (e : nat).

(** [_registerSocketLifecycle()]: the four handlers bound to the socket. *)
Definition _registerSocketLifecycle (ev : SocketEvent) (w : GwmClient) : GwmClient :=
  match ev with
  | onmessage d => forEach (_onMessageCallbacks w) (AMessage d) w
  | onopen e => forEach (_onConnectCallbacks w) (AEvent e) w
  | onerror e => forEach (_onErrorCallbacks w) (AEvent e) w
  | onclose e => forEach (_onDisconnectCallbacks w) (ACloseEvent e) w
  end.

(** One turn of the event loop for a socket notification: the transport
    runs the handler as a task of its own, and the microtask checkpoint
    follows it. *)
Definition notify (ev : SocketEvent) (w : GwmClient) : GwmClient :=
  runMicrotasks (_registerSocketLifecycle ev w).

Definition deliver (w : GwmClient) (msg : ServerMessage) : GwmClient :=
  notify (onmessage msg) w.

Definition deliver_all (msgs : list ServerMessage) (w : GwmClient) : GwmClient :=
  foldl deliver w msgs.

(** ** Observations *)

Definition origin_at (p : nat) (w : GwmClient) : option Origin :=
  origin <$> promises w !! p.

(** The invocations of caller-supplied functions recorded in a log. *)
Definition calls (t : list Effect) : list (nat * Arg) :=
  omap (λ e, match e with ECall f a => Some (f, a) | _ => None end) t.

(** The caller-supplied function a registered callback invokes on [a], if any. *)
Definition fired (a : Arg) (cb : Callback) : list (nat * Arg) :=
  match cb with
  | UserFn f => [(f, a)]
  | ReplyListener _ _ _ => []
  | EventListener _ eventsArr callback =>
      match a with
      | AMessage msg => if is_event eventsArr msg then [(callback, AData (data msg))] else []
      | _ => []
      end
  end.

Definition is_ReplyListener (cb : Callback) : bool :=
  match cb with ReplyListener _ _ _ => true | _ => false end.

(** [cb] ends up calling the caller-supplied function [f]. *)
Definition uses (f : nat) (cb : Callback) : bool :=
  match cb with
  | UserFn g | EventListener _ _ g => bool_decide (g = f)
  | ReplyListener _ _ _ => false
  end.

(** ** Well-formed states *)

Definition target_below (n : nat) (cb : Callback) : bool :=
  match cb with
  | ReplyListener _ _ p => p <? n
  | _ => true
  end.

Definition origin_ok (n : nat) (o : Origin) : bool :=
  match o with
  | Executor => true
  | Finally p u => (p <? n) && is_ReplyListener (dropped u) && target_below n (dropped u)
  | AsyncReturn p | AwaitReply p _ _ => p <? n
  end.

(** Every promise a listener resolves or a promise waits for exists, and
    [finally] handles drop reply listeners.  The constructor establishes
    this and every operation of the class keeps it. *)
Definition wf (w : GwmClient) : bool :=
  forallb (target_below (length (promises w))) (_onMessageCallbacks w) &&
  forallb (λ pr, origin_ok (length (promises w)) (origin pr)) (promises w).

(** No request is in flight and no job is queued. *)
Definition idle (w : GwmClient) : bool :=
  bool_decide (microtasks w = []) &&
  forallb (λ cb, negb (is_ReplyListener cb)) (_onMessageCallbacks w).

(** The caller-supplied function [f] is not referred to by any message
    listener nor by a suspended [subscribe]. *)
Definition unused (f : nat) (w : GwmClient) : bool :=
  forallb (λ cb, negb (uses f cb)) (_onMessageCallbacks w) &&
  forallb (λ pr, match origin pr with
                 | AwaitReply _ _ g => negb (bool_decide (g = f))
                 | _ => true
                 end) (promises w).

(** The caller-supplied function [f] is free: no message listener calls it
    and no [subscribe] call made with it is still under way.  Calls that
    are over, failed ones included, do not count. *)
Definition free (f : nat) (w : GwmClient) : bool :=
  forallb (λ cb, negb (uses f cb)) (_onMessageCallbacks w) &&
  forallb (λ pr, match origin pr with
                 | AwaitReply _ _ g => negb (bool_decide (g = f)) || settled (state pr)
                 | _ => true
                 end) (promises w).

(** The listener [cb] does not take [msg] for the reply to its request:
    it is no temporary listener, or one of a request [msg] does not
    answer. *)
Definition deaf (msg : ServerMessage) (cb : Callback) : bool :=
  match cb with
  | ReplyListener _ c _ => negb (is_reply c msg)
  | _ => true
  end.

(** No job is queued, and none of the messages [msgs] answers a request
    that is in flight in [w]. *)
Definition unanswered (msgs : list ServerMessage) (w : GwmClient) : bool :=
  bool_decide (microtasks w = []) &&
  forallb (λ msg, forallb (deaf msg) (_onMessageCallbacks w)) msgs.

(** ** Life cycle of a request

    A call of [sendAndWaitReply c] that created listener number [id] and the
    promises [p] (inner), [S p] (after [finally]) and [S (S p)] (returned). *)

Definition handle (c : IpcMessage) (id p : nat) : UnlistenFn :=
  {| registry := OnMessage; dropped := ReplyListener id c p |}.

Definition chain (c : IpcMessage) (id p : nat) (w : GwmClient) : Prop :=
  origin_at p w = Some Executor ∧
  origin_at (S p) w = Some (Finally p (handle c id p)) ∧
  origin_at (S (S p)) w = Some (AsyncReturn (S p)).

(** The request is in flight: nothing is settled, the listener is
    registered, no other listener resolves its promises and no other
    [finally] drops its listener. *)
Definition waiting (c : IpcMessage) (id p : nat) (w : GwmClient) : Prop :=
  chain c id p w ∧
  outcome p w = Pending ∧ outcome (S p) w = Pending ∧ outcome (S (S p)) w = Pending ∧
  ReplyListener id c p ∈ _onMessageCallbacks w ∧
  (∀ id' c' p', ReplyListener id' c' p' ∈ _onMessageCallbacks w →
     p' ≠ S p ∧ p' ≠ S (S p) ∧ (p' = p → c' = c)) ∧
  (∀ j p' u, origin_at j w = Some (Finally p' u) →
     dropped u = ReplyListener id c p → j = S p).

(** The inner promise has the outcome [out] and the reactions are on their
    way through the microtask queue. *)
Definition settling (c : IpcMessage) (id p : nat) (out : Outcome) (w : GwmClient) : Prop :=
  chain c id p w ∧ outcome p w = out ∧
  ((outcome (S p) w = Pending ∧ outcome (S (S p)) w = Pending ∧ S p ∈ microtasks w)
   ∨ (outcome (S p) w = out ∧ outcome (S (S p)) w = Pending ∧
      S (S p) ∈ microtasks w ∧ ReplyListener id c p ∉ _onMessageCallbacks w)
   ∨ (outcome (S (S p)) w = out ∧ ReplyListener id c p ∉ _onMessageCallbacks w)).

(** The returned promise has the outcome [out] and the listener is gone. *)
Definition replied (c : IpcMessage) (id p : nat) (out : Outcome) (w : GwmClient) : Prop :=
  outcome (S (S p)) w = out ∧ ReplyListener id c p ∉ _onMessageCallbacks w.

(** Nothing but the request's own [finally] and async-return promises
    waits for one of its promises. *)
Definition alone (p : nat) (w : GwmClient) : Prop :=
  ∀ j o p', origin_at j w = Some o → parent o = Some p' → p ≤ p' →
    (p' = p ∧ j = S p) ∨ (p' = S p ∧ j = S (S p)).

(** The same for the request of a [subscribe] call, whose returned promise
    [S (S (S p))] waits for the request. *)
Definition alone_sub (p : nat) (w : GwmClient) : Prop :=
  ∀ j o p', origin_at j w = Some o → parent o = Some p' → p ≤ p' →
    (p' = p ∧ j = S p) ∨ (p' = S p ∧ j = S (S p)) ∨ (p' = S (S p) ∧ j = S (S (S p))).

(** The first inbound message that is a [client_response] echoing [c], as
    the outcome a request for [c] is expected to end with. *)
Definition first_reply (c : IpcMessage) (msgs : list ServerMessage) : Outcome :=
  match List.find (is_reply c) msgs with
  | Some msg => Fulfilled (VMessage msg)
  | None => Pending
  end.

(** The specification's words for a reply to [c]: a message whose kind is
    [client_response] and whose [clientMessage] field equals [c]. *)
Definition answers (c : IpcMessage) (m : ServerMessage) : Prop :=
  messageType m = "client_response" ∧ clientMessage m = Some c.

(** [e1] is logged before [e2]. *)
Definition precedes (e1 e2 : Effect) (t : list Effect) : Prop :=
  ∃ t1 t2 t3, t = t1 ++ e1 :: t2 ++ e2 :: t3.

(** The calls to [f] among logged calls. *)
Definition calls_to (f : nat) (l : list (nat * Arg)) : list (nat * Arg) :=
  List.filter (λ x, bool_decide (x.1 = f)) l.

(** ** Life cycle of a subscription

    A call of [subscribe] with events [eventsArr] and callback [callback]
    that returned promise [q] and awaits the request promise [p]. *)

(** Facts about the promise table that inbound messages keep: [q] is the
    only [subscribe] with this callback that can still be suspended (any
    other one is over), and [finally] handles drop reply listeners. *)
Definition sub_static (q p : nat) (eventsArr : list GwmEvent) (callback : nat)
    (w : GwmClient) : Prop :=
  origin_at q w = Some (AwaitReply p eventsArr callback) ∧
  (∀ j p' evs', origin_at j w = Some (AwaitReply p' evs' callback) →
     j = q ∨ outcome j w ≠ Pending) ∧
  (∀ j p' u, origin_at j w = Some (Finally p' u) → is_ReplyListener (dropped u) = true).

(** What [subscribe] ends with, given the outcome of its request: the
    outcome of [q] and the listeners calling [callback]; [k] is the serial
    number of the listener it creates. *)
Definition subscribe_result (eventsArr : list GwmEvent) (callback : nat)
    (out : Outcome) (k : nat) : Outcome * list Callback :=
  match out with
  | Pending => (Pending, [])
  | Fulfilled response =>
      if truthy (error_of response)
      then (Rejected (subscribe_failure eventsArr (error_of response)), [])
      else (Fulfilled (VUnlisten {| registry := OnMessage;
                                    dropped := EventListener k eventsArr callback |}),
            [EventListener k eventsArr callback])
  | Rejected e => (Rejected e, [])
  end.

(** The subscription waits for the reply to its request. *)
Definition awaiting (c : IpcMessage) (id p q : nat) (eventsArr : list GwmEvent)
    (callback : nat) (w : GwmClient) : Prop :=
  waiting c id p w ∧ sub_static q (S (S p)) eventsArr callback w ∧
  outcome q w = Pending ∧
  List.filter (uses callback) (_onMessageCallbacks w) = [] ∧
  (∀ id' c' p', ReplyListener id' c' p' ∈ _onMessageCallbacks w → p' ≠ q).

(** The reply is there and the reactions are running. *)
Definition resuming (c : IpcMessage) (id p q : nat) (eventsArr : list GwmEvent)
    (callback : nat) (out : Outcome) (w : GwmClient) : Prop :=
  settling c id p out w ∧ sub_static q (S (S p)) eventsArr callback w ∧
  ((outcome q w = Pending ∧
    List.filter (uses callback) (_onMessageCallbacks w) = [] ∧
    (outcome (S (S p)) w = out → q ∈ microtasks w))
   ∨ ∃ k, outcome q w = (subscribe_result eventsArr callback out k).1 ∧
          List.filter (uses callback) (_onMessageCallbacks w)
          = (subscribe_result eventsArr callback out k).2).

(** [subscribe] is over, with result [res]. *)
Definition subscribed (q p : nat) (eventsArr : list GwmEvent) (callback : nat)
    (res : Outcome * list Callback) (w : GwmClient) : Prop :=
  sub_static q p eventsArr callback w ∧
  outcome q w = res.1 ∧
  List.filter (uses callback) (_onMessageCallbacks w) = res.2.

(** The part of [awaiting] and [resuming] that decides the outcome of the
    call, whoever else uses the callback. *)
Definition suspended (c : IpcMessage) (id p q : nat) (eventsArr : list GwmEvent)
    (callback : nat) (w : GwmClient) : Prop :=
  waiting c id p w ∧
  origin_at q w = Some (AwaitReply (S (S p)) eventsArr callback) ∧
  outcome q w = Pending ∧
  (∀ id' c' p', ReplyListener id' c' p' ∈ _onMessageCallbacks w → p' ≠ q).

Definition resumed (c : IpcMessage) (id p q : nat) (eventsArr : list GwmEvent)
    (callback : nat) (out : Outcome) (w : GwmClient) : Prop :=
  settling c id p out w ∧
  origin_at q w = Some (AwaitReply (S (S p)) eventsArr callback) ∧
  ((outcome q w = Pending ∧ (outcome (S (S p)) w = out → q ∈ microtasks w))
   ∨ ∃ k, outcome q w = (subscribe_result eventsArr callback out k).1).

(** The specification's words for an event a subscription to [tags] is
    told about: a message of kind [subscribed_event] whose event type is one
    of the tags. *)
Definition announces (tags : list GwmEvent) (m : ServerMessage) : Prop :=
  messageType m = "subscribed_event" ∧ ∃ t, type (data m) = Some t ∧ t ∈ tags.

(** ** Using the client *)

(** The registry a socket notification is fanned out to, and the argument
    its listeners receive, as [_registerSocketLifecycle] binds them. *)
Definition route (ev : SocketEvent) : Registry * Arg :=
  match ev with
  | onmessage d => (OnMessage, AMessage d)
  | onopen e => (OnConnect, AEvent e)
  | onerror e => (OnError, AEvent e)
  | onclose e => (OnDisconnect, ACloseEvent e)
  end.

(** The message listeners supplied by the caller, in registration order. *)
Definition user_listeners (l : list Callback) : list nat :=
  omap (λ cb, match cb with UserFn f => Some f | _ => None end) l.

(** What can happen to a client: a call of one of its public methods with
    caller-supplied arguments, a call of a handle, or a notification from the
    socket. *)
Inductive Op :=
  | OSend (message : IpcMessage)
  | OSendAndWaitReply (message : IpcMessage)
  | OSubscribe (event : GwmEvent + list GwmEvent) (callback : nat)
  | OListen (r : Registry) (f : nat)
  | OUnlisten (u : UnlistenFn)
  | OClose
  | ONotify (ev : SocketEvent).

Definition apply_op (w : GwmClient) (op : Op) : GwmClient :=
  match op with
  | OSend message => send message w
  | OSendAndWaitReply message => (sendAndWaitReply message w).2
  | OSubscribe event callback => (subscribe event callback w).2
  | OListen r f => (listen r (UserFn f) w).2
  | OUnlisten u => unlisten u w
  | OClose => close w
  | ONotify ev => notify ev w
  end.

Definition run (ops : list Op) (w : GwmClient) : GwmClient :=
  foldl apply_op w ops.

(** * Properties *)

(** ** Decimal numerals *)

Lemma to_uint_head p :
  match Pos.to_uint p with Decimal.Nil | Decimal.D0 _ => False | _ => True end.
Proof.
  pose proof (DecimalPos.Unsigned.to_uint_nonzero p) as Hz.
  pose proof (DecimalN.Unsigned.to_of (N.to_uint (Npos p))) as Hn.
  rewrite DecimalN.Unsigned.of_to in Hn. simpl in Hn.
  unfold Decimal.unorm in Hn.
  destruct (Decimal.nzhead (Pos.to_uint p)) eqn:E;
    try (rewrite Hn; exact I).
  - by destruct Hz.
  - by apply DecimalFacts.nzhead_nonzero in E.
Qed.

Lemma normal_form_pos p :
  normal_form (NilZero.string_of_int (Decimal.Pos (Pos.to_uint p))) = true.
Proof.
  pose proof (to_uint_head p) as H. simpl.
  by destruct (Pos.to_uint p).
Qed.

Lemma normal_form_neg p :
  normal_form (NilZero.string_of_int (Decimal.Neg (Pos.to_uint p))) = true.
Proof.
  pose proof (to_uint_head p) as H. simpl.
  by destruct (Pos.to_uint p).
Qed.

(** A safe integer is rendered as its decimal numeral. *)
Lemma render_decimal z bound : decimal_of z (render (Integer z bound)).
Proof.
  split.
  - simpl. rewrite NilZero.isi.
    + simpl. by rewrite DecimalZ.of_to.
    + destruct z as [|p|p]; simpl; try done.
      intros [= H]. pose proof (to_uint_head p) as Hp. by rewrite H in Hp.
    + destruct z as [|p|p]; simpl; try done.
      intros [= H]. pose proof (to_uint_head p) as Hp. by rewrite H in Hp.
  - destruct z as [|p|p]; [reflexivity|apply normal_form_pos|apply normal_form_neg].
Qed.

(** ** Promise table *)

Lemma outcome_settle_same p out w :
  p < length (promises w) → outcome p (settle p out w) = out.
Proof.
  intros Hp. unfold settle, outcome.
  destruct (lookup_lt_is_Some_2 _ _ Hp) as [pr Hpr]. rewrite Hpr. simpl.
  by rewrite list_lookup_insert_eq.
Qed.

Lemma outcome_settle_other p q out w :
  q ≠ p → outcome q (settle p out w) = outcome q w.
Proof.
  intros Hne. unfold settle, outcome.
  destruct (promises w !! p) eqn:Hp; [|done]. simpl.
  by rewrite list_lookup_insert_ne.
Qed.

Lemma origin_at_settle p q out w :
  origin_at q (settle p out w) = origin_at q w.
Proof.
  unfold settle, origin_at.
  destruct (promises w !! p) as [pr|] eqn:Hp; [|done]. simpl.
  destruct (decide (p = q)) as [->|Hne].
  - rewrite list_lookup_insert_eq; [|by eapply lookup_lt_Some]. by rewrite Hp.
  - by rewrite list_lookup_insert_ne.
Qed.

Lemma length_promises_settle p out w :
  length (promises (settle p out w)) = length (promises w).
Proof.
  unfold settle. destruct (promises w !! p); [|done]. simpl. by rewrite length_insert.
Qed.

Lemma callbacks_settle p out w :
  _onMessageCallbacks (settle p out w) = _onMessageCallbacks w.
Proof. unfold settle. by destruct (promises w !! p). Qed.

Lemma trace_settle p out w : trace (settle p out w) = trace w.
Proof. unfold settle. by destruct (promises w !! p). Qed.

Lemma microtasks_settle p out w pr :
  promises w !! p = Some pr →
  microtasks (settle p out w) = microtasks w ++ dependents p 0 (promises w).
Proof. intros Hp. unfold settle. by rewrite Hp. Qed.

Lemma microtasks_settle_incl p out w x :
  x ∈ microtasks w → x ∈ microtasks (settle p out w).
Proof.
  intros Hx. unfold settle. destruct (promises w !! p); [|done]. simpl.
  apply elem_of_app. by left.
Qed.

Lemma elem_of_dependents p j ps x :
  x ∈ dependents p j ps ↔
  ∃ i pr, x = j + i ∧ ps !! i = Some pr ∧ parent (origin pr) = Some p.
Proof.
  revert j. induction ps as [|pr ps IH]; intros j; simpl.
  - split; [by intros ?%elem_of_nil|]. by intros (i & pr & _ & ? & _).
  - unfold waits_for. case_bool_decide as Hpar.
    + rewrite elem_of_cons, IH. split.
      * intros [->|(i & pr' & -> & Hi & Hp')].
        -- exists 0, pr. split; [lia|done].
        -- exists (S i), pr'. split; [lia|done].
      * intros (i & pr' & -> & Hi & Hp'). destruct i as [|i]; [left; lia|].
        right. exists i, pr'. split; [lia|done].
    + rewrite IH. split.
      * intros (i & pr' & -> & Hi & Hp'). exists (S i), pr'. split; [lia|done].
      * intros (i & pr' & -> & Hi & Hp'). destruct i as [|i].
        -- simpl in Hi. congruence.
        -- exists i, pr'. split; [lia|done].
Qed.

Lemma dependents_origin_at p w x :
  x ∈ dependents p 0 (promises w) ↔ ∃ o, origin_at x w = Some o ∧ parent o = Some p.
Proof.
  rewrite elem_of_dependents. unfold origin_at. split.
  - intros (i & pr & -> & Hi & Hp). exists (origin pr). simpl. by rewrite Hi.
  - intros (o & Ho & Hp). destruct (promises w !! x) as [pr|] eqn:Hx; [|done].
    simpl in Ho. exists x, pr. split; [done|]. split; [done|]. congruence.
Qed.

(** ** The microtask checkpoint terminates *)

Lemma length_dependents p j ps :
  length (dependents p j ps) = length (List.filter (waits_for p) ps).
Proof.
  revert j. induction ps as [|pr ps IH]; intros j; simpl; [done|].
  destruct (waits_for p pr); simpl; by rewrite IH.
Qed.

Lemma waits_for_pending_settle j out w pr0 pr :
  promises w !! j = Some pr0 → state pr0 = Pending → settled out = true →
  waits_for_pending (settle j out w) pr = waits_for_pending w pr && negb (waits_for j pr)
  ∧ (waits_for j pr = true → waits_for_pending w pr = true).
Proof.
  intros Hj Hpend Hout. unfold waits_for_pending, waits_for.
  destruct (parent (origin pr)) as [p|] eqn:Hp; [|by case_bool_decide].
  case_bool_decide as Heq.
  - injection Heq as ->. rewrite outcome_settle_same by (by eapply lookup_lt_Some).
    rewrite Hout. unfold outcome. rewrite Hj, Hpend. done.
  - rewrite outcome_settle_other by congruence. by rewrite andb_true_r.
Qed.

Lemma filter_settle j out w pr0 l :
  promises w !! j = Some pr0 → state pr0 = Pending → settled out = true →
  length (List.filter (waits_for_pending (settle j out w)) l)
  + length (List.filter (waits_for j) l)
  = length (List.filter (waits_for_pending w) l).
Proof.
  intros Hj Hpend Hout. induction l as [|pr l IH]; simpl; [done|].
  destruct (waits_for_pending_settle j out w pr0 pr Hj Hpend Hout) as [-> Himp].
  destruct (waits_for j pr); simpl.
  - rewrite Himp by done. simpl. lia.
  - rewrite andb_true_r. destruct (waits_for_pending w pr); simpl; lia.
Qed.

Lemma filter_insert_origin (f : Promise → bool) j pr pr' (ps : list Promise) :
  ps !! j = Some pr → f pr' = f pr →
  length (List.filter f (<[j:=pr']> ps)) = length (List.filter f ps).
Proof.
  intros Hj Hf. rewrite insert_take_drop by (by eapply lookup_lt_Some).
  rewrite <- (take_drop_middle ps j pr Hj) at 3.
  rewrite !List.filter_app. simpl. rewrite Hf. rewrite !length_app. by destruct (f pr).
Qed.

Lemma budget_settle j out w pr0 :
  promises w !! j = Some pr0 → state pr0 = Pending → settled out = true →
  budget (settle j out w) = budget w.
Proof.
  intros Hj Hpend Hout. unfold budget.
  rewrite (microtasks_settle _ _ _ _ Hj), length_app, length_dependents.
  rewrite <- (filter_settle j out w pr0 (promises w) Hj Hpend Hout).
  assert (length (List.filter (waits_for_pending (settle j out w)) (promises (settle j out w)))
          = length (List.filter (waits_for_pending (settle j out w)) (promises w))) as ->; [|lia].
  unfold settle at 2. rewrite Hj. simpl.
  apply (filter_insert_origin _ j pr0); [done|]. done.
Qed.

Lemma budget_ext w1 w2 :
  promises w1 = promises w2 → microtasks w1 = microtasks w2 → budget w1 = budget w2.
Proof.
  intros Hp Hq. unfold budget, waits_for_pending, outcome. by rewrite Hp, Hq.
Qed.

Lemma budget_subscribe_resume eventsArr callback response q w pr :
  promises w !! q = Some pr → state pr = Pending →
  budget (subscribe_resume eventsArr callback response q w) = budget w.
Proof.
  intros Hq Hpend. unfold subscribe_resume.
  destruct (truthy (error_of response)).
  - by apply (budget_settle _ _ _ pr).
  - simpl. by rewrite (budget_settle _ _ _ pr).
Qed.

Lemma budget_run_job j w : budget (run_job j w) = budget w.
Proof.
  unfold run_job. destruct (promises w !! j) as [[st o]|] eqn:Hj; [|done].
  destruct st; [|done..]. destruct o as [|p u|p|p evs cb]; [done|..].
  - destruct (outcome p w) eqn:Hout; [done|..];
      by rewrite (budget_settle _ _ _ {| state := Pending; origin := Finally p u |}).
  - destruct (outcome p w) eqn:Hout; [done|..];
      by rewrite (budget_settle _ _ _ {| state := Pending; origin := AsyncReturn p |}).
  - destruct (outcome p w) eqn:Hout; [done|..].
    + by apply (budget_subscribe_resume _ _ _ _ _ _ Hj).
    + by rewrite (budget_settle _ _ _ {| state := Pending; origin := AwaitReply p evs cb |}).
Qed.

Lemma budget_pop j q w :
  microtasks w = j :: q → S (budget (set_microtasks q w)) = budget w.
Proof. intros Hq. unfold budget, waits_for_pending, outcome. simpl. by rewrite Hq. Qed.

Lemma drain_empty n w : budget w ≤ n → microtasks (drain n w) = [].
Proof.
  revert w. induction n as [|n IH]; intros w Hb.
  - simpl. unfold budget in Hb. destruct (microtasks w); [done|simpl in Hb; lia].
  - simpl. destruct (microtasks w) as [|j q] eqn:Hq; [done|].
    apply IH. rewrite budget_run_job. pose proof (budget_pop j q w Hq). lia.
Qed.

(** After the checkpoint no job is left. *)
Lemma runMicrotasks_empty w : microtasks (runMicrotasks w) = [].
Proof. by apply drain_empty. Qed.

(** ** Invariants of the event loop *)

Lemma drain_invariant (I : GwmClient → Prop) :
  (∀ j q w, I w → microtasks w = j :: q → I (run_job j (set_microtasks q w))) →
  ∀ n w, I w → I (drain n w).
Proof.
  intros Hstep n. induction n as [|n IH]; intros w Hw; simpl.
  - by destruct (microtasks w).
  - destruct (microtasks w) as [|j q] eqn:Hq; [done|]. apply IH. by eapply Hstep.
Qed.

Lemma forEach_invariant (I : GwmClient → Prop) l a :
  (∀ w cb, cb ∈ l → I w → I (invoke a w cb)) →
  ∀ w, I w → I (forEach l a w).
Proof.
  unfold forEach. induction l as [|cb l IH]; intros Hstep w Hw; simpl; [done|].
  apply IH.
  - intros w' cb' Hin. apply Hstep. by right.
  - apply Hstep; [by left|done].
Qed.

Lemma callbacks_unlisten u w :
  _onMessageCallbacks (unlisten u w) =
  if decide (registry u = OnMessage)
  then filter (λ cb, cb ≠ dropped u) (_onMessageCallbacks w)
  else _onMessageCallbacks w.
Proof. unfold unlisten. simpl. case_decide as Hr; [|done]. by rewrite Hr. Qed.

(** What one job does, case by case. *)
Lemma run_job_settled j w : outcome j w ≠ Pending → run_job j w = w.
Proof.
  unfold run_job, outcome. destruct (promises w !! j) as [[st o]|]; [|done].
  simpl. by destruct st.
Qed.

Lemma run_job_blocked j w o p :
  origin_at j w = Some o → parent o = Some p → outcome p w = Pending → run_job j w = w.
Proof.
  unfold run_job, origin_at. destruct (promises w !! j) as [[st o']|]; [|done].
  simpl. intros [= ->] Hp Hout. destruct st; [|done..].
  destruct o; simplify_eq/=; by rewrite Hout.
Qed.

Lemma run_job_executor j w : origin_at j w = Some Executor → run_job j w = w.
Proof.
  unfold run_job, origin_at. destruct (promises w !! j) as [[st o']|]; [|done].
  simpl. intros [= ->]. by destruct st.
Qed.

Lemma run_job_finally j w p u out :
  origin_at j w = Some (Finally p u) → outcome j w = Pending →
  outcome p w = out → settled out = true →
  run_job j w = settle j out (unlisten u w).
Proof.
  unfold run_job, origin_at, outcome at 1.
  destruct (promises w !! j) as [[st o']|]; [|done].
  simpl. intros [= ->] -> <- Hs. by destruct (outcome p w).
Qed.

Lemma run_job_return j w p out :
  origin_at j w = Some (AsyncReturn p) → outcome j w = Pending →
  outcome p w = out → settled out = true →
  run_job j w = settle j out w.
Proof.
  unfold run_job, origin_at, outcome at 1.
  destruct (promises w !! j) as [[st o']|]; [|done].
  simpl. intros [= ->] -> <- Hs. by destruct (outcome p w).
Qed.

Lemma run_job_await j w p eventsArr callback :
  origin_at j w = Some (AwaitReply p eventsArr callback) → outcome j w = Pending →
  run_job j w =
  match outcome p w with
  | Pending => w
  | Fulfilled response => subscribe_resume eventsArr callback response j w
  | Rejected e => settle j (Rejected e) w
  end.
Proof.
  unfold run_job, origin_at, outcome at 1.
  destruct (promises w !! j) as [[st o']|]; [|done].
  simpl. by intros [= ->] ->.
Qed.

(** The shapes a job can leave the message registry in. *)
Lemma run_job_callbacks j w :
  _onMessageCallbacks (run_job j w) = _onMessageCallbacks w
  ∨ (∃ p u, origin_at j w = Some (Finally p u) ∧ outcome j w = Pending ∧
       _onMessageCallbacks (run_job j w) = _onMessageCallbacks (unlisten u w))
  ∨ (∃ p eventsArr callback, origin_at j w = Some (AwaitReply p eventsArr callback) ∧
       outcome j w = Pending ∧
       _onMessageCallbacks (run_job j w) =
       _onMessageCallbacks w ++ [EventListener (closures w) eventsArr callback]).
Proof.
  destruct (promises w !! j) as [[st o]|] eqn:Hj;
    [|left; unfold run_job; by rewrite Hj].
  assert (origin_at j w = Some o) as Ho by (unfold origin_at; by rewrite Hj).
  assert (outcome j w = st) as Hst by (unfold outcome; by rewrite Hj).
  unfold run_job. rewrite Hj.
  destruct st; [|by left..].
  destruct o as [|p u|p|p evs cb]; [by left|..].
  - destruct (outcome p w); [by left|..];
      right; left; exists p, u; by rewrite callbacks_settle.
  - destruct (outcome p w); [by left|..]; left; by rewrite callbacks_settle.
  - destruct (outcome p w) as [|v|e]; [by left| |left; by rewrite callbacks_settle].
    unfold subscribe_resume. destruct (truthy (error_of v)).
    + left. by rewrite callbacks_settle.
    + right; right. exists p, evs, cb. simpl. by rewrite callbacks_settle.
Qed.

Lemma origin_at_unlisten x u w : origin_at x (unlisten u w) = origin_at x w.
Proof. done. Qed.

Lemma outcome_unlisten x u w : outcome x (unlisten u w) = outcome x w.
Proof. done. Qed.

Lemma origin_at_run_job x j w : origin_at x (run_job j w) = origin_at x w.
Proof.
  unfold run_job. destruct (promises w !! j) as [[st o]|] eqn:Hj; [|done].
  destruct st; [|done..].
  destruct o as [|p u|p|p evs cb]; [done|..].
  - destruct (outcome p w); [done|..]; by rewrite origin_at_settle.
  - destruct (outcome p w); [done|..]; by rewrite origin_at_settle.
  - destruct (outcome p w) as [|v|e]; [done| |by rewrite origin_at_settle].
    unfold subscribe_resume. destruct (truthy (error_of v)); simpl;
      by rewrite origin_at_settle.
Qed.

Lemma outcome_run_job_other x j w : x ≠ j → outcome x (run_job j w) = outcome x w.
Proof.
  intros Hne. unfold run_job. destruct (promises w !! j) as [[st o]|] eqn:Hj; [|done].
  destruct st; [|done..].
  destruct o as [|p u|p|p evs cb]; [done|..].
  - destruct (outcome p w); [done|..]; by rewrite outcome_settle_other.
  - destruct (outcome p w); [done|..]; by rewrite outcome_settle_other.
  - destruct (outcome p w) as [|v|e]; [done| |by rewrite outcome_settle_other].
    unfold subscribe_resume. destruct (truthy (error_of v)); simpl;
      by rewrite outcome_settle_other.
Qed.

Lemma outcome_run_job_settled x j w :
  outcome x w ≠ Pending → outcome x (run_job j w) = outcome x w.
Proof.
  intros Hs. destruct (decide (x = j)) as [->|Hne].
  - by rewrite run_job_settled.
  - by apply outcome_run_job_other.
Qed.

Lemma microtasks_run_job_incl x j w :
  x ∈ microtasks w → x ∈ microtasks (run_job j w).
Proof.
  intros Hx. unfold run_job. destruct (promises w !! j) as [[st o]|] eqn:Hj; [|done].
  destruct st; [|done..].
  destruct o as [|p u|p|p evs cb]; [done|..].
  - destruct (outcome p w); [done|..]; by apply microtasks_settle_incl.
  - destruct (outcome p w); [done|..]; by apply microtasks_settle_incl.
  - destruct (outcome p w) as [|v|e]; [done| |by apply microtasks_settle_incl].
    unfold subscribe_resume. destruct (truthy (error_of v)); simpl;
      by apply microtasks_settle_incl.
Qed.

(** ** Calling registered functions *)

Lemma callbacks_resolve p v w : _onMessageCallbacks (resolve p v w) = _onMessageCallbacks w.
Proof. unfold resolve. destruct (outcome p w); by rewrite ?callbacks_settle. Qed.

Lemma origin_at_resolve x p v w : origin_at x (resolve p v w) = origin_at x w.
Proof. unfold resolve. destruct (outcome p w); by rewrite ?origin_at_settle. Qed.

Lemma outcome_resolve_other x p v w : x ≠ p → outcome x (resolve p v w) = outcome x w.
Proof.
  intros Hne. unfold resolve. destruct (outcome p w); by rewrite ?outcome_settle_other.
Qed.

Lemma outcome_resolve_settled x p v w :
  outcome x w ≠ Pending → outcome x (resolve p v w) = outcome x w.
Proof.
  intros Hs. unfold resolve. destruct (outcome p w) eqn:Hp; [|done..].
  apply outcome_settle_other. congruence.
Qed.

Lemma microtasks_resolve_incl x p v w : x ∈ microtasks w → x ∈ microtasks (resolve p v w).
Proof.
  intros Hx. unfold resolve. destruct (outcome p w); [|done..].
  by apply microtasks_settle_incl.
Qed.

Lemma trace_resolve p v w : trace (resolve p v w) = trace w.
Proof. unfold resolve. destruct (outcome p w); by rewrite ?trace_settle. Qed.

Lemma callbacks_invoke a w cb : _onMessageCallbacks (invoke a w cb) = _onMessageCallbacks w.
Proof.
  destruct cb as [f|id c p|id evs f]; simpl; [done|..].
  - destruct a; [|done..]. destruct (is_reply c m); by rewrite ?callbacks_resolve.
  - destruct a; [|done..]. by destruct (is_event evs m).
Qed.

Lemma origin_at_invoke x a w cb : origin_at x (invoke a w cb) = origin_at x w.
Proof.
  destruct cb as [f|id c p|id evs f]; simpl; [done|..].
  - destruct a; [|done..]. destruct (is_reply c m); by rewrite ?origin_at_resolve.
  - destruct a; [|done..]. by destruct (is_event evs m).
Qed.

Lemma outcome_invoke_settled x a w cb :
  outcome x w ≠ Pending → outcome x (invoke a w cb) = outcome x w.
Proof.
  intros Hs. destruct cb as [f|id c p|id evs f]; simpl; [done|..].
  - destruct a; [|done..]. destruct (is_reply c m); by rewrite ?outcome_resolve_settled.
  - destruct a; [|done..]. by destruct (is_event evs m).
Qed.

Lemma microtasks_invoke_incl x a w cb : x ∈ microtasks w → x ∈ microtasks (invoke a w cb).
Proof.
  intros Hx. destruct cb as [f|id c p|id evs f]; simpl; [done|..].
  - destruct a; [|done..]. destruct (is_reply c m); [|done].
    by apply microtasks_resolve_incl.
  - destruct a; [|done..]. by destruct (is_event evs m).
Qed.

(** A callback that is no firing reply listener leaves the promises alone. *)
Lemma invoke_quiet a w cb :
  (∀ id c p m, cb = ReplyListener id c p → a = AMessage m → is_reply c m = false) →
  promises (invoke a w cb) = promises w ∧ microtasks (invoke a w cb) = microtasks w.
Proof.
  intros Hq. destruct cb as [f|id c p|id evs f]; simpl; [done|..].
  - destruct a; [|done..]. by rewrite (Hq id c p m).
  - destruct a; [|done..]. by destruct (is_event evs m).
Qed.

Lemma callbacks_forEach l a w : _onMessageCallbacks (forEach l a w) = _onMessageCallbacks w.
Proof.
  apply (forEach_invariant (λ w', _onMessageCallbacks w' = _onMessageCallbacks w)); [|done].
  intros w' cb _ <-. apply callbacks_invoke.
Qed.

Lemma origin_at_forEach x l a w : origin_at x (forEach l a w) = origin_at x w.
Proof.
  apply (forEach_invariant (λ w', origin_at x w' = origin_at x w)); [|done].
  intros w' cb _ <-. apply origin_at_invoke.
Qed.

Lemma outcome_forEach_settled x l a w :
  outcome x w ≠ Pending → outcome x (forEach l a w) = outcome x w.
Proof.
  intros Hs.
  apply (forEach_invariant (λ w', outcome x w' = outcome x w)); [|done].
  intros w' cb _ Hw'. rewrite <- Hw'. apply outcome_invoke_settled. congruence.
Qed.

Lemma forEach_app l1 l2 a w : forEach (l1 ++ l2) a w = forEach l2 a (forEach l1 a w).
Proof. unfold forEach. apply foldl_app. Qed.

(** An invariant [I] of the dispatch, and a fact [Q] that one listener [x]
    of the list establishes and the others keep. *)
Lemma forEach_trigger (I Q : GwmClient → Prop) l a x :
  x ∈ l →
  (∀ w cb, cb ∈ l → I w → I (invoke a w cb)) →
  (∀ w cb, cb ∈ l → I w → Q w → Q (invoke a w cb)) →
  (∀ w, I w → Q (invoke a w x)) →
  ∀ w, I w → I (forEach l a w) ∧ Q (forEach l a w).
Proof.
  intros Hx HI HQ Hfire w Hw.
  apply list_elem_of_split in Hx as (l1 & l2 & ->).
  rewrite forEach_app.
  assert (I (forEach l1 a w)) as H1.
  { apply forEach_invariant; [|done]. intros w' cb Hin. apply HI.
    apply elem_of_app. by left. }
  change (x :: l2) with ([x] ++ l2). rewrite forEach_app.
  apply (forEach_invariant (λ w', I w' ∧ Q w')).
  - intros w' cb Hin [HIw HQw].
    assert (cb ∈ l1 ++ x :: l2) by (apply elem_of_app; right; by right).
    split; [by apply HI|by apply HQ].
  - unfold forEach at 1 3. simpl. split; [|by apply Hfire].
    apply HI; [|done]. apply elem_of_app. right. by left.
Qed.

(** What a dispatch adds to the log: the calls its callbacks fire, in
    registration order. *)
Lemma calls_app t1 t2 : calls (t1 ++ t2) = calls t1 ++ calls t2.
Proof. unfold calls. apply omap_app. Qed.

Lemma calls_invoke a w cb : calls (trace (invoke a w cb)) = calls (trace w) ++ fired a cb.
Proof.
  destruct cb as [f|id c p|id evs f]; simpl.
  - by rewrite calls_app.
  - rewrite app_nil_r. destruct a; [|done..].
    destruct (is_reply c m); by rewrite ?trace_resolve.
  - destruct a; rewrite ?app_nil_r; [|done..].
    destruct (is_event evs m); simpl; by rewrite ?calls_app, ?app_nil_r.
Qed.

Lemma calls_forEach l a w :
  calls (trace (forEach l a w)) = calls (trace w) ++ concat (fired a <$> l).
Proof.
  revert w. unfold forEach. induction l as [|cb l IH]; intros w; simpl.
  - by rewrite app_nil_r.
  - by rewrite IH, calls_invoke, <- app_assoc.
Qed.

Lemma calls_run_job j w : calls (trace (run_job j w)) = calls (trace w).
Proof.
  unfold run_job. destruct (promises w !! j) as [[st o]|] eqn:Hj; [|done].
  destruct st; [|done..].
  destruct o as [|p u|p|p evs cb]; [done|..].
  - destruct (outcome p w); [done|..]; rewrite trace_settle; simpl;
      by rewrite calls_app, app_nil_r.
  - destruct (outcome p w); [done|..]; by rewrite trace_settle.
  - destruct (outcome p w) as [|v|e]; [done| |by rewrite trace_settle].
    unfold subscribe_resume. destruct (truthy (error_of v)); simpl;
      rewrite trace_settle; [done|]. simpl. by rewrite calls_app, app_nil_r.
Qed.

Lemma calls_runMicrotasks w : calls (trace (runMicrotasks w)) = calls (trace w).
Proof.
  unfold runMicrotasks.
  apply (drain_invariant (λ w', calls (trace w') = calls (trace w))); [|done].
  intros j q w' Hw' _. by rewrite calls_run_job.
Qed.

(** The caller-supplied functions a message reaches are exactly those its
    registered listeners fire. *)
Lemma calls_deliver w msg :
  calls (trace (deliver w msg)) =
  calls (trace w) ++ concat (fired (AMessage msg) <$> _onMessageCallbacks w).
Proof.
  unfold deliver, notify. simpl. by rewrite calls_runMicrotasks, calls_forEach.
Qed.

(** ** A request, from reply to settlement *)

Section Request.
Variables (c : IpcMessage) (id p : nat).

Lemma listener_gone_unlisten u w :
  ReplyListener id c p ∉ _onMessageCallbacks w →
  ReplyListener id c p ∉ _onMessageCallbacks (unlisten u w).
Proof.
  intros Hl. rewrite callbacks_unlisten. case_decide; [|done].
  rewrite list_elem_of_filter. tauto.
Qed.

Lemma listener_gone_run_job j w :
  ReplyListener id c p ∉ _onMessageCallbacks w →
  ReplyListener id c p ∉ _onMessageCallbacks (run_job j w).
Proof.
  intros Hl.
  destruct (run_job_callbacks j w)
    as [->|[(p' & u & _ & _ & ->)|(p' & evs & cb & _ & _ & ->)]]; [done|..].
  - by apply listener_gone_unlisten.
  - rewrite elem_of_app, list_elem_of_singleton. intros [?|?]; [done|discriminate].
Qed.

Lemma chain_run_job j w : chain c id p w → chain c id p (run_job j w).
Proof. unfold chain. by rewrite !origin_at_run_job. Qed.

Lemma chain_lt w : chain c id p w → S (S p) < length (promises w).
Proof.
  intros (_ & _ & H3). unfold origin_at in H3.
  destruct (promises w !! S (S p)) eqn:Hl; [|done]. by eapply lookup_lt_Some.
Qed.

Lemma settling_run_job out j w :
  settled out = true → chain c id p w → outcome p w = out →
  ((outcome (S p) w = Pending ∧ outcome (S (S p)) w = Pending ∧ S p ∈ j :: microtasks w)
   ∨ (outcome (S p) w = out ∧ outcome (S (S p)) w = Pending ∧
      S (S p) ∈ j :: microtasks w ∧ ReplyListener id c p ∉ _onMessageCallbacks w)
   ∨ (outcome (S (S p)) w = out ∧ ReplyListener id c p ∉ _onMessageCallbacks w)) →
  settling c id p out (run_job j w).
Proof.
  intros Hout Hch Hp Hst.
  assert (out ≠ Pending) as Hne by (by destruct out).
  pose proof (chain_lt _ Hch) as Hlt.
  pose proof Hch as (H1 & H2 & H3).
  split; [by apply chain_run_job|].
  split; [rewrite outcome_run_job_settled; [done|by rewrite Hp]|].
  destruct Hst as [(Hp2 & Hp3 & Hin)|[(Hp2 & Hp3 & Hin & Hl)|(Hp3 & Hl)]].
  - destruct (decide (j = S p)) as [->|Hj2].
    + right; left.
      rewrite (run_job_finally (S p) w p (handle c id p) out) by done.
      split; [apply outcome_settle_same; simpl; lia|].
      split; [by rewrite outcome_settle_other by lia|].
      split.
      * destruct (promises w !! S p) as [pr|] eqn:E;
          [|by apply lookup_ge_None in E; lia].
        rewrite (microtasks_settle _ _ _ pr) by done.
        apply elem_of_app. right. apply dependents_origin_at.
        by exists (AsyncReturn (S p)).
      * rewrite callbacks_settle, callbacks_unlisten. simpl.
        rewrite list_elem_of_filter. tauto.
    + apply elem_of_cons in Hin as [?|Hin]; [done|].
      left. destruct (decide (j = S (S p))) as [->|Hj3].
      * by rewrite (run_job_blocked (S (S p)) w (AsyncReturn (S p)) (S p)).
      * rewrite !outcome_run_job_other by done.
        split; [done|]. split; [done|]. by apply microtasks_run_job_incl.
  - destruct (decide (j = S (S p))) as [->|Hj3].
    + right; right.
      rewrite (run_job_return (S (S p)) w (S p) out) by done.
      split; [apply outcome_settle_same; simpl; lia|].
      by rewrite callbacks_settle.
    + apply elem_of_cons in Hin as [?|Hin]; [done|].
      right; left.
      split; [rewrite outcome_run_job_settled; [done|by rewrite Hp2]|].
      split; [by rewrite outcome_run_job_other|].
      split; [by apply microtasks_run_job_incl|].
      by apply listener_gone_run_job.
  - right; right.
    split; [rewrite outcome_run_job_settled; [done|by rewrite Hp3]|].
    by apply listener_gone_run_job.
Qed.

Lemma settling_step out j q w :
  settled out = true → settling c id p out w → microtasks w = j :: q →
  settling c id p out (run_job j (set_microtasks q w)).
Proof.
  intros Hout (Hch & Hp & Hst) Hq. rewrite Hq in Hst.
  by apply settling_run_job.
Qed.

(** Once the inner promise is settled, the checkpoint carries its outcome
    to the returned promise and drops the listener on the way. *)
Lemma settling_runMicrotasks out w :
  settled out = true → settling c id p out w → replied c id p out (runMicrotasks w).
Proof.
  intros Hout Hs.
  assert (settling c id p out (runMicrotasks w)) as (_ & _ & Hst).
  { unfold runMicrotasks. apply (drain_invariant (settling c id p out)); [|done].
    intros j q w' Hw' Hq. by apply settling_step. }
  rewrite runMicrotasks_empty in Hst.
  destruct Hst as [(_ & _ & Hin)|[(_ & _ & Hin & _)|Hst]]; [|  |done];
    by apply elem_of_nil in Hin.
Qed.
(** ** A request in flight *)

Lemma waiting_run_job j w : waiting c id p w → waiting c id p (run_job j w).
Proof.
  intros (Hch & Hp1 & Hp2 & Hp3 & Hl & Hres & Hdrop).
  pose proof Hch as (H1 & H2 & H3).
  destruct (decide (j = p)) as [->|Hj1]; [by rewrite run_job_executor|].
  destruct (decide (j = S p)) as [->|Hj2];
    [by rewrite (run_job_blocked (S p) w (Finally p (handle c id p)) p)|].
  destruct (decide (j = S (S p))) as [->|Hj3];
    [by rewrite (run_job_blocked (S (S p)) w (AsyncReturn (S p)) (S p))|].
  split; [by apply chain_run_job|].
  rewrite !outcome_run_job_other by done.
  do 3 (split; [done|]).
  destruct (run_job_callbacks j w)
    as [->|[(p' & u & Ho & _ & ->)|(p' & evs & cb & _ & _ & ->)]].
  - split; [done|]. split; [done|].
    intros j' p' u. rewrite origin_at_run_job. apply Hdrop.
  - rewrite callbacks_unlisten. case_decide.
    + split; [|split].
      * apply list_elem_of_filter. split; [|done].
        intros Heq. by specialize (Hdrop j p' u Ho (eq_sym Heq)).
      * intros id' c' p'' Hin. apply list_elem_of_filter in Hin as [_ Hin]. eauto.
      * intros j' p'' u'. rewrite origin_at_run_job. apply Hdrop.
    + split; [done|]. split; [done|].
      intros j' p'' u'. rewrite origin_at_run_job. apply Hdrop.
  - split; [apply elem_of_app; by left|]. split.
    + intros id' c' p'' Hin. apply elem_of_app in Hin as [Hin|Hin]; [eauto|].
      by apply list_elem_of_singleton in Hin.
    + intros j' p'' u'. rewrite origin_at_run_job. apply Hdrop.
Qed.

Lemma waiting_runMicrotasks w : waiting c id p w → waiting c id p (runMicrotasks w).
Proof.
  intros Hw. unfold runMicrotasks.
  apply (drain_invariant (waiting c id p)); [|done].
  intros j q w' Hw' _. by apply waiting_run_job.
Qed.

(** A message that is no reply to [c] leaves the request in flight. *)
Lemma waiting_invoke_other msg cb w :
  is_reply c msg = false → waiting c id p w → cb ∈ _onMessageCallbacks w →
  waiting c id p (invoke (AMessage msg) w cb).
Proof.
  intros Hno (Hch & Hp1 & Hp2 & Hp3 & Hl & Hres & Hdrop) Hin.
  destruct cb as [f|id' c' p'|id' evs f]; simpl.
  - done.
  - destruct (is_reply c' msg) eqn:Hc'; [|done].
    destruct (Hres _ _ _ Hin) as (Hn2 & Hn3 & Hc).
    assert (p' ≠ p) as Hn1 by (intros ->; rewrite Hc in Hc' by done; congruence).
    unfold waiting, chain.
    rewrite !origin_at_resolve, !outcome_resolve_other, callbacks_resolve by done.
    do 6 (split; [done|]).
    intros j p'' u. rewrite origin_at_resolve. apply Hdrop.
  - by destruct (is_event evs msg).
Qed.

Lemma waiting_forEach_other msg w :
  is_reply c msg = false → waiting c id p w →
  waiting c id p (forEach (_onMessageCallbacks w) (AMessage msg) w).
Proof.
  intros Hno Hw.
  apply (forEach_invariant
           (λ w', waiting c id p w' ∧ _onMessageCallbacks w' = _onMessageCallbacks w));
    [|done].
  intros w' cb Hin [Hw' Heq]. split.
  - apply waiting_invoke_other; [done..|by rewrite Heq].
  - by rewrite callbacks_invoke.
Qed.

Lemma waiting_deliver_other msg w :
  is_reply c msg = false → waiting c id p w → waiting c id p (deliver w msg).
Proof.
  intros Hno Hw. unfold deliver, notify. simpl.
  by apply waiting_runMicrotasks, waiting_forEach_other.
Qed.

(** A reply to [c] settles the inner promise and queues the [finally]
    reaction. *)
Lemma waiting_forEach_reply msg w :
  is_reply c msg = true → waiting c id p w →
  settling c id p (Fulfilled (VMessage msg))
    (forEach (_onMessageCallbacks w) (AMessage msg) w).
Proof.
  intros Hyes (Hch & Hp1 & Hp2 & Hp3 & Hl & Hres & Hdrop).
  pose proof (chain_lt _ Hch) as Hlt.
  set (I := λ w', chain c id p w' ∧ length (promises w') = length (promises w) ∧
                  outcome (S p) w' = Pending ∧ outcome (S (S p)) w' = Pending ∧
                  (outcome p w' = Pending ∨
                   (outcome p w' = Fulfilled (VMessage msg) ∧ S p ∈ microtasks w'))).
  set (Q := λ w', outcome p w' ≠ Pending).
  destruct (forEach_trigger I Q (_onMessageCallbacks w) (AMessage msg)
              (ReplyListener id c p) Hl) with (w := w)
    as [(Hch' & _ & Hp2' & Hp3' & Hp1') HQ].
  - intros w' cb Hin (Hch' & Hlen & Hp2' & Hp3' & Hp1').
    destruct cb as [f|id' c' p'|id' evs f]; simpl; [done| |by destruct (is_event evs msg)].
    destruct (is_reply c' msg) eqn:Hc'; [|done].
    destruct (Hres _ _ _ Hin) as (Hn2 & Hn3 & Hc).
    unfold I, chain. rewrite !origin_at_resolve.
    rewrite (outcome_resolve_other (S p)), (outcome_resolve_other (S (S p))) by done.
    split; [done|].
    split; [unfold resolve; destruct (outcome p' w'); by rewrite ?length_promises_settle|].
    do 2 (split; [done|]).
    destruct (decide (p' = p)) as [->|Hn1].
    + unfold resolve. destruct Hp1' as [Hpend|[Hful Hq]].
      * rewrite Hpend. right. split; [apply outcome_settle_same; lia|].
        destruct (promises w' !! p) as [pr|] eqn:E;
          [|by apply lookup_ge_None in E; lia].
        rewrite (microtasks_settle _ _ _ pr) by done.
        apply elem_of_app. right. apply dependents_origin_at.
        exists (Finally p (handle c id p)). split; [apply Hch'|done].
      * rewrite Hful. by right.
    + rewrite outcome_resolve_other by done.
      destruct Hp1' as [?|[? ?]]; [by left|right].
      split; [done|]. by apply microtasks_resolve_incl.
  - intros w' cb _ _ HQ. unfold Q. by rewrite outcome_invoke_settled.
  - intros w' (Hch' & Hlen & Hp2' & Hp3' & Hp1'). unfold Q. simpl. rewrite Hyes.
    unfold resolve. destruct (outcome p w') eqn:E; [|by rewrite E..].
    rewrite outcome_settle_same by lia. done.
  - unfold I. by eauto 10.
  - split; [done|]. destruct Hp1' as [?|[Hful Hq]]; [done|].
    split; [done|]. left. done.
Qed.

Lemma replied_deliver_reply msg w :
  is_reply c msg = true → waiting c id p w →
  replied c id p (Fulfilled (VMessage msg)) (deliver w msg).
Proof.
  intros Hyes Hw. unfold deliver, notify. simpl.
  by apply settling_runMicrotasks, waiting_forEach_reply.
Qed.

(** A settled request stays as it is. *)
Lemma replied_deliver out msg w :
  settled out = true → replied c id p out w → replied c id p out (deliver w msg).
Proof.
  intros Hout [Hp3 Hl]. assert (out ≠ Pending) as Hne by (by destruct out).
  unfold deliver, notify, runMicrotasks. simpl.
  apply (drain_invariant (replied c id p out)).
  - intros j q w' [Hp3' Hl'] _. split.
    + rewrite outcome_run_job_settled; [done|].
      intros Hx. apply Hne. rewrite <- Hp3'. exact Hx.
    + by apply listener_gone_run_job.
  - split.
    + rewrite outcome_forEach_settled; [done|by rewrite Hp3].
    + by rewrite callbacks_forEach.
Qed.

Lemma replied_deliver_all out msgs w :
  settled out = true → replied c id p out w → replied c id p out (deliver_all msgs w).
Proof.
  intros Hout. revert w. unfold deliver_all.
  induction msgs as [|msg msgs IH]; intros w Hw; simpl; [done|].
  by apply IH, replied_deliver.
Qed.

(** The request is answered by the first reply to [c], and by nothing else. *)
Lemma waiting_deliver_all msgs w :
  waiting c id p w →
  match List.find (is_reply c) msgs with
  | Some msg => replied c id p (Fulfilled (VMessage msg)) (deliver_all msgs w)
  | None => waiting c id p (deliver_all msgs w)
  end.
Proof.
  revert w. unfold deliver_all.
  induction msgs as [|msg msgs IH]; intros w Hw; simpl; [done|].
  destruct (is_reply c msg) eqn:Hc.
  - apply replied_deliver_all; [done|]. by apply replied_deliver_reply.
  - by apply IH, waiting_deliver_other.
Qed.

End Request.

(** ** Issuing a request *)

Lemma new_promise_pending o w :
  from_option (λ p, outcome p w = Pending) True (parent o) →
  new_promise o w =
  (length (promises w),
   set_promises (promises w ++ [{| state := Pending; origin := o |}]) w).
Proof.
  unfold new_promise. destruct (parent o) as [p|]; simpl; [|done].
  by intros ->.
Qed.

Lemma outcome_app_pending p ps o w :
  promises w = ps ++ [{| state := Pending; origin := o |}] →
  p = length ps → outcome p w = Pending.
Proof.
  intros Hw ->. unfold outcome. rewrite Hw.
  by rewrite lookup_app_r, Nat.sub_diag by lia.
Qed.

Lemma sendAndWaitReply_eq c w :
  let n := length (promises w) in
  let l := ReplyListener (closures w) c n in
  sendAndWaitReply c w =
  (S (S n),
   {| _socket := _socket w;
      _onMessageCallbacks := _onMessageCallbacks w ++ [l];
      _onConnectCallbacks := _onConnectCallbacks w;
      _onDisconnectCallbacks := _onDisconnectCallbacks w;
      _onErrorCallbacks := _onErrorCallbacks w;
      promises := promises w ++
        [{| state := Pending; origin := Executor |};
         {| state := Pending; origin := Finally n (handle c (closures w) n) |};
         {| state := Pending; origin := AsyncReturn (S n) |}];
      microtasks := microtasks w;
      closures := S (closures w);
      trace := trace w ++ [ESend c; ERegister OnMessage l] |}).
Proof.
  intros n l. unfold sendAndWaitReply.
  rewrite (new_promise_pending Executor) by done.
  unfold onMessage, listen, send. cbn -[new_promise].
  rewrite (new_promise_pending (Finally _ _)); last first.
  { simpl. by eapply outcome_app_pending. }
  cbn -[new_promise]. rewrite (new_promise_pending (AsyncReturn _)); last first.
  { simpl. eapply outcome_app_pending; [done|]. rewrite !length_app. simpl. lia. }
  simpl. rewrite !length_app. simpl. rewrite !Nat.add_1_r.
  unfold set_promises, log. simpl. by rewrite <- !app_assoc.
Qed.

Lemma wf_listener w id c p :
  wf w = true → ReplyListener id c p ∈ _onMessageCallbacks w → p < length (promises w).
Proof.
  unfold wf. intros [Hl _]%andb_prop Hin.
  rewrite forallb_forall in Hl. apply list_elem_of_In, Hl in Hin.
  simpl in Hin. by apply Nat.ltb_lt.
Qed.

Lemma wf_origin w j o :
  wf w = true → origin_at j w = Some o → origin_ok (length (promises w)) o = true.
Proof.
  unfold wf, origin_at. intros [_ Ho]%andb_prop Hj.
  rewrite forallb_forall in Ho.
  destruct (promises w !! j) as [pr|] eqn:E; [|done]. injection Hj as <-.
  apply Ho, list_elem_of_In, list_elem_of_lookup. eauto.
Qed.

Lemma origin_at_grow x w w' extra :
  promises w' = promises w ++ extra → x < length (promises w) →
  origin_at x w' = origin_at x w ∧ outcome x w' = outcome x w.
Proof.
  intros Hp Hx. unfold origin_at, outcome. by rewrite Hp, lookup_app_l.
Qed.

Lemma sendAndWaitReply_waiting c w :
  wf w = true →
  waiting c (closures w) (length (promises w)) (sendAndWaitReply c w).2.
Proof.
  intros Hwf. rewrite sendAndWaitReply_eq. simpl.
  set (n := length (promises w)).
  assert (∀ i, (promises w ++
      [{| state := Pending; origin := Executor |};
       {| state := Pending; origin := Finally n (handle c (closures w) n) |};
       {| state := Pending; origin := AsyncReturn (S n) |}]) !! (n + i)
    = [{| state := Pending; origin := Executor |};
       {| state := Pending; origin := Finally n (handle c (closures w) n) |};
       {| state := Pending; origin := AsyncReturn (S n) |}] !! i) as Hnew.
  { intros i. rewrite lookup_app_r by (unfold n; lia). f_equal. unfold n. lia. }
  pose proof (Hnew 0) as H0. pose proof (Hnew 1) as H1. pose proof (Hnew 2) as H2.
  rewrite Nat.add_0_r in H0. rewrite Nat.add_1_r in H1.
  replace (n + 2) with (S (S n)) in H2 by lia. simpl in H0, H1, H2.
  unfold waiting, chain, origin_at, outcome. simpl. rewrite H0, H1, H2. simpl.
  do 4 (split; [done|]).
  split; [apply elem_of_app; right; by left|].
  split.
  - intros id' c' p' Hin. apply elem_of_app in Hin as [Hin|Hin].
    + apply (wf_listener _ _ _ _ Hwf) in Hin. fold n in Hin.
      split; [lia|]. split; [lia|]. intros ->. lia.
    + apply list_elem_of_singleton in Hin. injection Hin as -> -> ->.
      split; [lia|]. split; [lia|done].
  - intros j p' u Hj Hu.
    destruct (promises w !! j) as [pr|] eqn:E.
    + rewrite lookup_app_l in Hj by (by eapply lookup_lt_Some).
      rewrite E in Hj. simpl in Hj. injection Hj as Hj.
      assert (origin_at j w = Some (Finally p' u)) as Ho
        by (unfold origin_at; by rewrite E, <- Hj).
      apply (wf_origin _ _ _ Hwf) in Ho. simpl in Ho. rewrite Hu in Ho. simpl in Ho.
      apply andb_prop in Ho as [_ Ho]. apply Nat.ltb_lt in Ho. unfold n in *. lia.
    + apply lookup_ge_None in E. fold n in E.
      replace j with (n + (j - n)) in Hj by lia. rewrite Hnew in Hj.
      destruct (j - n) as [|[|[|k]]] eqn:Ek; simpl in Hj; try done. lia.
Qed.

Lemma waiting_sendAndWaitReply c id p c' w :
  waiting c id p w → waiting c id p (sendAndWaitReply c' w).2.
Proof.
  intros (Hch & Hp1 & Hp2 & Hp3 & Hl & Hres & Hdrop).
  pose proof (chain_lt _ _ _ _ Hch) as Hlt.
  rewrite sendAndWaitReply_eq. simpl.
  match goal with |- waiting _ _ _ ?w1 => set (w' := w1) end.
  assert (∀ x, x < length (promises w) →
            origin_at x w' = origin_at x w ∧ outcome x w' = outcome x w) as Hold.
  { intros x Hx. by eapply origin_at_grow. }
  destruct (Hold p) as [Ho1 Hs1]; [lia|].
  destruct (Hold (S p)) as [Ho2 Hs2]; [lia|].
  destruct (Hold (S (S p))) as [Ho3 Hs3]; [lia|].
  unfold waiting, chain. rewrite Ho1, Ho2, Ho3, Hs1, Hs2, Hs3.
  destruct Hch as (? & ? & ?). do 4 (split; [done|]).
  split; [apply elem_of_app; by left|].
  split.
  - intros id' c'' p' Hin. apply elem_of_app in Hin as [Hin|Hin]; [eauto|].
    apply list_elem_of_singleton in Hin. injection Hin as -> -> ->.
    split; [lia|]. split; lia.
  - intros j p' u Hj Hu.
    destruct (decide (j < length (promises w))) as [Hjl|Hjl].
    + destruct (Hold j Hjl) as [Hoj _]. rewrite Hoj in Hj. eauto.
    + unfold origin_at in Hj. simpl in Hj.
      rewrite lookup_app_r in Hj by lia.
      destruct (j - length (promises w)) as [|[|[|k]]] eqn:Ek; simpl in Hj; try done.
      injection Hj as <- <-. simpl in Hu. injection Hu as _ _ Hu. lia.
Qed.

Lemma target_below_mono n m cb : n ≤ m → target_below n cb = true → target_below m cb = true.
Proof.
  intros Hle. destruct cb; simpl; [done| |done].
  rewrite !Nat.ltb_lt. lia.
Qed.

Lemma origin_ok_mono n m o : n ≤ m → origin_ok n o = true → origin_ok m o = true.
Proof.
  intros Hle. destruct o as [|p u|p|p evs cb]; simpl; [done|..].
  - rewrite !andb_true_iff, !Nat.ltb_lt. intros [[? ?] ?].
    split; [split; [lia|done]|]. by eapply target_below_mono.
  - rewrite !Nat.ltb_lt. lia.
  - rewrite !Nat.ltb_lt. lia.
Qed.

(** The invariant is kept by a request. *)
Lemma wf_sendAndWaitReply c w : wf w = true → wf (sendAndWaitReply c w).2 = true.
Proof.
  unfold wf. intros [Hl Ho]%andb_prop. rewrite sendAndWaitReply_eq. simpl.
  rewrite length_app. simpl.
  set (n := length (promises w)) in *.
  rewrite !forallb_app. simpl.
  rewrite !andb_true_iff, !Nat.ltb_lt. 
  split; [split|split].
  - rewrite forallb_forall in *. intros cb Hin.
    apply (target_below_mono n); [lia|by apply Hl].
  - lia.
  - rewrite forallb_forall in *. intros pr Hin.
    apply (origin_ok_mono n); [lia|by apply Ho].
  - repeat split; lia.
Qed.

(** ** A request on an otherwise idle client *)

Lemma runMicrotasks_idle w : microtasks w = [] → runMicrotasks w = w.
Proof. intros Hq. unfold runMicrotasks. destruct (budget w); simpl; by rewrite ?Hq. Qed.

Lemma forEach_quiet l a w :
  (∀ cb id c p m, cb ∈ l → cb = ReplyListener id c p → a = AMessage m →
     is_reply c m = false) →
  promises (forEach l a w) = promises w ∧ microtasks (forEach l a w) = microtasks w.
Proof.
  intros Hq.
  apply (forEach_invariant
           (λ w', promises w' = promises w ∧ microtasks w' = microtasks w)); [|done].
  intros w' cb Hin [Hp Hq']. destruct (invoke_quiet a w' cb) as [-> ->]; [|done].
  intros id c p m. by apply Hq.
Qed.

Lemma microtasks_run_job_new x j w :
  x ∈ microtasks (run_job j w) →
  x ∈ microtasks w ∨ ∃ o, origin_at x w = Some o ∧ parent o = Some j.
Proof.
  assert (∀ out w', microtasks w' = microtasks w → promises w' = promises w →
            x ∈ microtasks (settle j out w') →
            x ∈ microtasks w ∨ ∃ o, origin_at x w = Some o ∧ parent o = Some j) as Hs.
  { intros out w' Hq Hp. unfold settle. destruct (promises w' !! j); simpl.
    - rewrite elem_of_app, Hq. intros [?|Hd]; [by left|right].
      apply dependents_origin_at in Hd. unfold origin_at in *. by rewrite <- Hp.
    - rewrite Hq. by left. }
  unfold run_job. destruct (promises w !! j) as [[st o]|] eqn:Hj; [|by left].
  destruct st; [|by left..].
  destruct o as [|p u|p|p evs cb]; [by left|..].
  - destruct (outcome p w); [by left|..]; by apply Hs.
  - destruct (outcome p w); [by left|..]; by apply Hs.
  - destruct (outcome p w) as [|v|e]; [by left| |by apply Hs].
    unfold subscribe_resume. destruct (truthy (error_of v)); by apply Hs.
Qed.

Lemma deaf_reply msg R id c p :
  forallb (deaf msg) R = true → ReplyListener id c p ∈ R → is_reply c msg = false.
Proof.
  rewrite forallb_forall. intros HR Hin. apply list_elem_of_In, HR in Hin.
  by apply negb_true_iff.
Qed.

Section Alone.
Variables (c : IpcMessage) (id p : nat) (R : list Callback).
Hypothesis R_fresh : ReplyListener id c p ∉ R.

Lemma filter_listener :
  filter (λ cb, cb ≠ ReplyListener id c p) (R ++ [ReplyListener id c p]) = R
  ∧ filter (λ cb, cb ≠ ReplyListener id c p) R = R.
Proof.
  assert (filter (λ cb, cb ≠ ReplyListener id c p) R = R) as HR.
  { clear -R_fresh. induction R as [|cb l IH]; [done|].
    rewrite filter_cons. case_decide as Hcb.
    - f_equal. apply IH. intros Hin. apply R_fresh. by right.
    - assert (cb = ReplyListener id c p) as -> by (by destruct (decide (cb = ReplyListener id c p))).
      exfalso. apply R_fresh. by left. }
  split; [|done]. rewrite filter_app, HR, filter_cons.
  case_decide; [done|]. by rewrite filter_nil, app_nil_r.
Qed.

(** While the request is in flight, a message that answers neither it nor
    another request changes nothing but the log. *)
Lemma alone_deliver_other msg w :
  forallb (deaf msg) R = true →
  is_reply c msg = false →
  _onMessageCallbacks w = R ++ [ReplyListener id c p] → microtasks w = [] →
  _onMessageCallbacks (deliver w msg) = R ++ [ReplyListener id c p]
  ∧ microtasks (deliver w msg) = []
  ∧ promises (deliver w msg) = promises w.
Proof.
  intros Hdeaf Hno HR Hq. unfold deliver, notify. simpl.
  destruct (forEach_quiet (_onMessageCallbacks w) (AMessage msg) w) as [Hp Hq'].
  { intros cb id' c' p' m Hin -> [= <-]. rewrite HR in Hin.
    apply elem_of_app in Hin as [Hin|Hin].
    - by eapply deaf_reply.
    - apply list_elem_of_singleton in Hin. by injection Hin as -> -> ->. }
  rewrite runMicrotasks_idle by congruence.
  rewrite callbacks_forEach. split; [done|]. split; congruence.
Qed.

(** After the round trip, such messages change nothing but the log. *)
Lemma idle_deliver msg w :
  forallb (deaf msg) R = true →
  _onMessageCallbacks w = R → microtasks w = [] →
  _onMessageCallbacks (deliver w msg) = R ∧ microtasks (deliver w msg) = [].
Proof.
  intros Hdeaf HR Hq. unfold deliver, notify. simpl.
  destruct (forEach_quiet (_onMessageCallbacks w) (AMessage msg) w) as [Hp Hq'].
  { intros cb id' c' p' m Hin -> [= <-]. rewrite HR in Hin. by eapply deaf_reply. }
  rewrite runMicrotasks_idle by congruence.
  rewrite callbacks_forEach. split; congruence.
Qed.

(** The reply: only the request's own two jobs run, and the first of them
    takes the listener out again. *)
Lemma alone_deliver_reply msg w :
  forallb (deaf msg) R = true →
  is_reply c msg = true → waiting c id p w → alone p w →
  _onMessageCallbacks w = R ++ [ReplyListener id c p] → microtasks w = [] →
  _onMessageCallbacks (deliver w msg) = R ∧ microtasks (deliver w msg) = [].
Proof.
  intros Hdeaf Hyes Hw Hal HR Hq.
  pose proof (replied_deliver_reply c id p msg w Hyes Hw) as [_ Hgone].
  split; [|apply runMicrotasks_empty].
  set (N := λ w' : GwmClient,
    chain c id p w' ∧ alone p w' ∧
    (_onMessageCallbacks w' = R ++ [ReplyListener id c p] ∨ _onMessageCallbacks w' = R) ∧
    ∀ j, j ∈ microtasks w' → j = S p ∨ j = S (S p)).
  assert (N (deliver w msg)) as (_ & _ & [Hreg|Hreg] & _); [|  |done].
  2:{ rewrite Hreg in Hgone. exfalso. apply Hgone, elem_of_app. right. by left. }
  unfold deliver, notify, runMicrotasks. simpl.
  apply (drain_invariant N).
  - intros j q w' (Hch & Hal' & Hreg & Hjobs) Hq'.
    assert (j = S p ∨ j = S (S p)) as Hj by (apply Hjobs; rewrite Hq'; by left).
    set (wq := set_microtasks q w').
    assert (chain c id p wq) as (H1 & H2 & H3) by exact Hch.
    assert (_onMessageCallbacks wq = R ++ [ReplyListener id c p] ∨
            _onMessageCallbacks wq = R) as Hreg' by exact Hreg.
    split; [by apply chain_run_job|].
    split; [intros j' o p'; rewrite origin_at_run_job; apply Hal'|].
    split.
    + destruct (run_job_callbacks j wq)
        as [->|[(p' & u & Ho & _ & ->)|(p' & evs & cb & Ho & _ & _)]].
      * done.
      * destruct Hj as [->| ->]; [|by rewrite H3 in Ho].
        rewrite H2 in Ho. injection Ho as <- <-.
        rewrite callbacks_unlisten. simpl. right.
        destruct filter_listener as [F1 F2].
        destruct Hreg as [-> | ->]; [apply F1|apply F2].
      * destruct Hj as [->| ->]; [by rewrite H2 in Ho|by rewrite H3 in Ho].
    + intros x Hx. apply microtasks_run_job_new in Hx as [Hx|(o & Ho & Hpar)].
      * apply Hjobs. rewrite Hq'. by right.
      * destruct (Hal' x o j Ho Hpar) as [[-> ->]|[-> ->]];
          [destruct Hj; lia|by left|by right].
  - apply (forEach_invariant N).
    + intros w' cb Hin (Hch & Hal' & Hreg & Hjobs).
      split; [unfold chain; by rewrite !origin_at_invoke|].
      split; [intros j' o p'; rewrite origin_at_invoke; apply Hal'|].
      split; [by rewrite callbacks_invoke|].
      rewrite HR in Hin. apply elem_of_app in Hin as [Hin|Hin].
      * destruct (invoke_quiet (AMessage msg) w' cb) as [_ ->]; [|done].
        intros id' c' p' m -> [= <-]. by eapply deaf_reply.
      * apply list_elem_of_singleton in Hin as ->. simpl. rewrite Hyes.
        unfold resolve. destruct (outcome p w'); [|done..].
        intros j. unfold settle. destruct (promises w' !! p); [|by apply Hjobs]. simpl.
        rewrite elem_of_app. intros [?|Hd]; [eauto|].
        apply dependents_origin_at in Hd as (o & Ho & Hpar).
        destruct (Hal' j o p Ho Hpar) as [[_ ->]|[? _]]; [lia|by left|lia].
    + destruct Hw as (Hch & _). split; [done|]. split; [done|].
      split; [by left|]. rewrite Hq. by intros j ?%elem_of_nil.
Qed.
(** The reply to the request of a [subscribe] call, carrying an error:
    the three jobs of the call run, the first takes the temporary listener
    out and the last registers none. *)
Lemma alone_deliver_error evs cb msg w :
  forallb (deaf msg) R = true →
  is_reply c msg = true → truthy (error msg) = true →
  waiting c id p w → alone_sub p w →
  origin_at (S (S (S p))) w = Some (AwaitReply (S (S p)) evs cb) →
  _onMessageCallbacks w = R ++ [ReplyListener id c p] → microtasks w = [] →
  _onMessageCallbacks (deliver w msg) = R ∧ microtasks (deliver w msg) = [].
Proof.
  intros Hdeaf Hyes Herr Hw Hal Hoq HR Hq.
  pose proof (replied_deliver_reply c id p msg w Hyes Hw) as [_ Hgone].
  split; [|apply runMicrotasks_empty].
  set (out := Fulfilled (VMessage msg)).
  set (N := λ w' : GwmClient,
    settling c id p out w' ∧ alone_sub p w' ∧
    origin_at (S (S (S p))) w' = Some (AwaitReply (S (S p)) evs cb) ∧
    (_onMessageCallbacks w' = R ++ [ReplyListener id c p] ∨ _onMessageCallbacks w' = R) ∧
    ∀ j, j ∈ microtasks w' → j = S p ∨ j = S (S p) ∨ j = S (S (S p))).
  assert (N (deliver w msg)) as (_ & _ & _ & [Hreg|Hreg] & _); [|  |done].
  2:{ rewrite Hreg in Hgone. exfalso. apply Hgone, elem_of_app. right. by left. }
  unfold deliver, notify, runMicrotasks. simpl.
  apply (drain_invariant N).
  - intros j t w' (Hset & Hal' & Hoq' & Hreg & Hjobs) Hq'.
    assert (j = S p ∨ j = S (S p) ∨ j = S (S (S p))) as Hj
      by (apply Hjobs; rewrite Hq'; by left).
    pose proof (settling_step c id p out j t w' eq_refl Hset Hq') as Hset'.
    assert (outcome (S (S p)) w' = Pending ∨ outcome (S (S p)) w' = out) as Hp3.
    { destruct Hset as (_ & _ & [(_ & ? & _)|[(_ & ? & _)|(? & _)]]); eauto. }
    pose proof (proj1 Hset) as Hch.
    set (wq := set_microtasks t w') in *.
    assert (chain c id p wq) as (H1 & H2 & H3) by exact Hch.
    assert (outcome (S (S p)) wq = Pending ∨ outcome (S (S p)) wq = out) as Hp3'
      by exact Hp3.
    assert (origin_at (S (S (S p))) wq = Some (AwaitReply (S (S p)) evs cb)) as Hoqq
      by exact Hoq'.
    assert (_onMessageCallbacks wq = R ++ [ReplyListener id c p] ∨
            _onMessageCallbacks wq = R) as Hreg' by exact Hreg.
    split; [done|].
    split; [intros j' o p'; rewrite origin_at_run_job; apply Hal'|].
    split; [by rewrite origin_at_run_job|].
    split.
    + destruct Hj as [->|[->| ->]].
      * destruct (run_job_callbacks (S p) wq)
          as [->|[(p' & u & Ho & _ & ->)|(p' & evs' & cb' & Ho & _ & _)]];
          [done| |by rewrite H2 in Ho].
        rewrite H2 in Ho. injection Ho as <- <-.
        rewrite callbacks_unlisten. simpl. right.
        destruct filter_listener as [F1 F2].
        destruct Hreg as [-> | ->]; [apply F1|apply F2].
      * destruct (run_job_callbacks (S (S p)) wq)
          as [->|[(p' & u & Ho & _ & _)|(p' & evs' & cb' & Ho & _ & _)]];
          [done|by rewrite H3 in Ho..].
      * destruct (outcome (S (S (S p))) wq) eqn:Eq;
          [|by rewrite run_job_settled by (by rewrite Eq)..].
        rewrite (run_job_await _ wq (S (S p)) evs cb Hoqq Eq).
        destruct Hp3' as [-> | ->]; [done|]. unfold out, subscribe_resume. simpl.
        rewrite Herr. by rewrite callbacks_settle.
    + assert (p ≤ j) as Hle by (destruct Hj as [->|[->| ->]]; lia).
      intros x Hx. apply microtasks_run_job_new in Hx as [Hx|(o & Ho & Hpar)].
      * apply Hjobs. rewrite Hq'. by right.
      * destruct (Hal' x o j Ho Hpar Hle) as [[_ ->]|[[_ ->]|[_ ->]]]; eauto.
  - assert (alone_sub p (forEach (_onMessageCallbacks w) (AMessage msg) w) ∧
            ∀ j, j ∈ microtasks (forEach (_onMessageCallbacks w) (AMessage msg) w) →
                 j = S p ∨ j = S (S p) ∨ j = S (S (S p))) as [Hal1 Hjobs1].
    { apply (forEach_invariant
               (λ w', alone_sub p w' ∧
                      ∀ j, j ∈ microtasks w' → j = S p ∨ j = S (S p) ∨ j = S (S (S p)))).
      - intros w' cb' Hin [Hal' Hjobs].
        split; [intros j' o p'; rewrite origin_at_invoke; apply Hal'|].
        rewrite HR in Hin. apply elem_of_app in Hin as [Hin|Hin].
        + destruct (invoke_quiet (AMessage msg) w' cb') as [_ ->]; [|done].
          intros id' c' p' m -> [= <-]. by eapply deaf_reply.
        + apply list_elem_of_singleton in Hin as ->. simpl. rewrite Hyes.
          unfold resolve. destruct (outcome p w'); [|done..].
          intros j. unfold settle. destruct (promises w' !! p); [|by apply Hjobs]. simpl.
          rewrite elem_of_app. intros [?|Hd]; [eauto|].
          apply dependents_origin_at in Hd as (o & Ho & Hpar).
          destruct (Hal' j o p Ho Hpar) as [[_ ->]|[[? _]|[? _]]]; [lia|by left|lia|lia].
      - split; [done|]. rewrite Hq. by intros j ?%elem_of_nil. }
    split; [by apply waiting_forEach_reply|]. split; [done|].
    split; [by rewrite origin_at_forEach|].
    split; [left; by rewrite callbacks_forEach|done].
Qed.
End Alone.

Lemma origin_ok_parent n o p : origin_ok n o = true → parent o = Some p → p < n.
Proof.
  destruct o as [|p' u|p'|p' evs cb]; simpl; [done|..]; intros Hok [= <-].
  - apply andb_prop in Hok as [[Hok _]%andb_prop _]. by apply Nat.ltb_lt.
  - by apply Nat.ltb_lt.
  - by apply Nat.ltb_lt.
Qed.

Lemma sendAndWaitReply_alone c w :
  wf w = true → alone (length (promises w)) (sendAndWaitReply c w).2.
Proof.
  intros Hwf j o p' Ho Hpar Hle. rewrite sendAndWaitReply_eq in Ho.
  unfold origin_at in Ho. simpl in Ho.
  destruct (decide (j < length (promises w))) as [Hj|Hj].
  - rewrite lookup_app_l in Ho by done.
    apply (wf_origin w j o Hwf) in Ho. pose proof (origin_ok_parent _ _ _ Ho Hpar). lia.
  - rewrite lookup_app_r in Ho by lia.
    destruct (j - length (promises w)) as [|[|[|k]]] eqn:Ek; simplify_eq/=.
    + left. lia.
    + right. lia.
Qed.

Lemma idle_quiet w cb :
  idle w = true → cb ∈ _onMessageCallbacks w → is_ReplyListener cb = false.
Proof.
  unfold idle. intros [_ Hq]%andb_prop Hin. rewrite forallb_forall in Hq.
  apply list_elem_of_In, Hq in Hin. by apply negb_true_iff.
Qed.

Lemma idle_microtasks w : idle w = true → microtasks w = [].
Proof. unfold idle. intros [Hq _]%andb_prop. by apply bool_decide_eq_true in Hq. Qed.

Lemma idle_unanswered msgs w : idle w = true → unanswered msgs w = true.
Proof.
  intros Hidle. unfold unanswered. rewrite (idle_microtasks w Hidle). simpl.
  apply forallb_forall. intros msg _. apply forallb_forall. intros cb Hin.
  apply list_elem_of_In, (idle_quiet w cb Hidle) in Hin. by destruct cb.
Qed.

(** When the messages answer no other request, the registry holds the
    temporary listener until the first reply to [c] and is back to what it
    was from then on. *)
Lemma round_trip_registry c w msgs :
  wf w = true → unanswered msgs w = true →
  _onMessageCallbacks (deliver_all msgs (sendAndWaitReply c w).2) =
  match List.find (is_reply c) msgs with
  | Some _ => _onMessageCallbacks w
  | None => _onMessageCallbacks w ++ [ReplyListener (closures w) c (length (promises w))]
  end.
Proof.
  intros Hwf [Hq0 Hdeaf]%andb_prop. apply bool_decide_eq_true in Hq0.
  rewrite forallb_forall in Hdeaf.
  pose proof (sendAndWaitReply_waiting c w Hwf) as Hw.
  pose proof (sendAndWaitReply_alone c w Hwf) as Hal.
  assert (_onMessageCallbacks (sendAndWaitReply c w).2 =
          _onMessageCallbacks w ++ [ReplyListener (closures w) c (length (promises w))])
    as Hreg by (by rewrite sendAndWaitReply_eq).
  assert (microtasks (sendAndWaitReply c w).2 = []) as Hq
    by (by rewrite sendAndWaitReply_eq).
  assert (ReplyListener (closures w) c (length (promises w)) ∉ _onMessageCallbacks w)
    as HR.
  { intros Hin. apply (wf_listener _ _ _ _ Hwf) in Hin. lia. }
  revert Hw Hal Hreg Hq Hdeaf. generalize (sendAndWaitReply c w).2 as w1.
  unfold deliver_all.
  induction msgs as [|msg msgs IH]; intros w1 Hw Hal Hreg Hq Hdeaf; simpl; [done|].
  assert (forallb (deaf msg) (_onMessageCallbacks w) = true) as Hmsg
    by (apply Hdeaf; by left).
  assert (∀ m, In m msgs → forallb (deaf m) (_onMessageCallbacks w) = true) as Hrest
    by (intros m Hin; apply Hdeaf; by right).
  destruct (is_reply c msg) eqn:Hc.
  - destruct (alone_deliver_reply c _ _ _ HR msg w1 Hmsg Hc Hw Hal Hreg Hq) as [Hreg' Hq'].
    clear -HR Hreg' Hq' Hrest. revert Hreg' Hq' Hrest. generalize (deliver w1 msg) as w2.
    induction msgs as [|msg' msgs IH]; intros w2 Hreg Hq Hrest; simpl; [done|].
    destruct (idle_deliver _ msg' w2 (Hrest msg' (or_introl eq_refl)) Hreg Hq).
    apply IH; [done..|]. intros m Hin. apply Hrest. by right.
  - destruct (alone_deliver_other c _ _ _ msg w1 Hmsg Hc Hreg Hq) as (Hreg' & Hq' & Hp').
    apply IH; [by apply waiting_deliver_other| |done..].
    intros j o p'. unfold origin_at. rewrite Hp'. apply Hal.
Qed.

(** The listener's test is the specification's notion of a reply. *)
Lemma is_reply_answers c m : is_reply c m = true ↔ answers c m.
Proof.
  unfold is_reply, answers.
  by rewrite andb_true_iff, !bool_decide_eq_true.
Qed.

Lemma no_reply_answers c msgs :
  Forall (λ m, ¬ answers c m) msgs → Forall (λ m, is_reply c m = false) msgs.
Proof.
  intros H. eapply Forall_impl; [exact H|].
  intros m Hm. simpl. destruct (is_reply c m) eqn:E; [|done].
  by apply is_reply_answers in E.
Qed.

Lemma find_no_reply c msgs :
  Forall (λ m, ¬ answers c m) msgs → List.find (is_reply c) msgs = None.
Proof.
  induction 1 as [|m msgs Hm _ IH]; simpl; [done|].
  destruct (is_reply c m) eqn:E; [|done].
  by apply is_reply_answers in E.
Qed.

Lemma find_first_reply c before msg after :
  Forall (λ m, ¬ answers c m) before → answers c msg →
  List.find (is_reply c) (before ++ msg :: after) = Some msg.
Proof.
  intros Hb Hm. induction Hb as [|m msgs Hn _ IH]; simpl.
  - apply is_reply_answers in Hm. by rewrite Hm.
  - destruct (is_reply c m) eqn:E; [|done].
    by apply is_reply_answers in E.
Qed.

(** Whatever the inner promise is settled with, the [finally] reaction is
    queued. *)
Lemma waiting_settle c id p out w :
  settled out = true → waiting c id p w → settling c id p out (settle p out w).
Proof.
  intros Hout (Hch & Hp1 & Hp2 & Hp3 & _).
  pose proof (chain_lt _ _ _ _ Hch) as Hlt. pose proof Hch as (H1 & H2 & H3).
  split; [unfold chain; by rewrite !origin_at_settle|].
  split; [apply outcome_settle_same; lia|].
  left. rewrite !outcome_settle_other by lia. do 2 (split; [done|]).
  destruct (promises w !! p) as [pr|] eqn:E; [|by apply lookup_ge_None in E; lia].
  rewrite (microtasks_settle _ _ _ pr) by done.
  apply elem_of_app. right. apply dependents_origin_at.
  by exists (Finally p (handle c id p)).
Qed.

Lemma outcome_first_reply c id p msgs w :
  waiting c id p w →
  outcome (S (S p)) (deliver_all msgs w) = first_reply c msgs.
Proof.
  intros Hw. pose proof (waiting_deliver_all c id p msgs w Hw) as H.
  unfold first_reply. destruct (List.find (is_reply c) msgs).
  - apply H.
  - apply H.
Qed.

(** ** A subscription, from reply to listener *)

Lemma filter_uses_drop f x (l : list Callback) :
  uses f x = false →
  List.filter (uses f) (filter (λ cb, cb ≠ x) l) = List.filter (uses f) l.
Proof.
  intros Hx. induction l as [|cb l IH]; [done|].
  rewrite filter_cons. case_decide as Hcb; simpl.
  - by rewrite IH.
  - assert (cb = x) as -> by (by destruct (decide (cb = x))). by rewrite Hx.
Qed.

Lemma settle_wakes x o j out w :
  origin_at x w = Some o → parent o = Some j → j < length (promises w) →
  x ∈ microtasks (settle j out w).
Proof.
  intros Ho Hpar Hj. destruct (lookup_lt_is_Some_2 _ _ Hj) as [pr Hpr].
  rewrite (microtasks_settle _ _ _ pr) by done.
  apply elem_of_app. right. apply dependents_origin_at. eauto.
Qed.

(** A job that settles its promise queues everything waiting for it. *)
Lemma run_job_wakes x o j w :
  origin_at x w = Some o → parent o = Some j →
  outcome j w = Pending → outcome j (run_job j w) ≠ Pending →
  x ∈ microtasks (run_job j w).
Proof.
  intros Ho Hpar Hpend Hs.
  assert (j < length (promises w)) as Hlt.
  { destruct (promises w !! j) eqn:E; [by eapply lookup_lt_Some|].
    exfalso. apply Hs. unfold run_job. by rewrite E. }
  assert (∀ out w', promises w' = promises w → x ∈ microtasks (settle j out w')) as Hwake.
  { intros out w' Hp. apply (settle_wakes x o).
    - unfold origin_at. by rewrite Hp.
    - done.
    - by rewrite Hp. }
  revert Hs. unfold run_job. destruct (promises w !! j) as [[st og]|] eqn:Hj; [|done].
  destruct st; [|done..].
  destruct og as [|p u|p|p evs cb]; [done|..].
  - destruct (outcome p w); [done|..]; intros _; by apply Hwake.
  - destruct (outcome p w); [done|..]; intros _; by apply Hwake.
  - destruct (outcome p w) as [|v|e]; [done| |intros _; by apply Hwake].
    unfold subscribe_resume. destruct (truthy (error_of v)); intros _; by apply Hwake.
Qed.

Section Subscription.
Variables (c : IpcMessage) (id p q : nat) (eventsArr : list GwmEvent) (callback : nat).

Lemma sub_static_run_job j w :
  sub_static q (S (S p)) eventsArr callback w →
  sub_static q (S (S p)) eventsArr callback (run_job j w).
Proof.
  intros (Hq & Hone & Hfin). split; [by rewrite origin_at_run_job|]. split.
  - intros j' p' evs'. rewrite origin_at_run_job. intros Ho.
    destruct (Hone _ _ _ Ho) as [?|Hs]; [by left|right].
    by rewrite outcome_run_job_settled.
  - intros j' p' u. rewrite origin_at_run_job. apply Hfin.
Qed.

Lemma sub_static_forEach l a w :
  sub_static q (S (S p)) eventsArr callback w →
  sub_static q (S (S p)) eventsArr callback (forEach l a w).
Proof.
  intros (Hq & Hone & Hfin). split; [by rewrite origin_at_forEach|]. split.
  - intros j' p' evs'. rewrite origin_at_forEach. intros Ho.
    destruct (Hone _ _ _ Ho) as [?|Hs]; [by left|right].
    by rewrite outcome_forEach_settled.
  - intros j' p' u. rewrite origin_at_forEach. apply Hfin.
Qed.

(** Only the job of [q] itself changes the listeners calling [callback]. *)
Lemma uses_run_job j w :
  sub_static q (S (S p)) eventsArr callback w →
  j ≠ q ∨ outcome q w ≠ Pending →
  List.filter (uses callback) (_onMessageCallbacks (run_job j w))
  = List.filter (uses callback) (_onMessageCallbacks w).
Proof.
  intros (Hq & Hone & Hfin) Hj.
  destruct (decide (j = q)) as [->|Hne].
  { destruct Hj as [?|Hs]; [done|]. by rewrite run_job_settled. }
  destruct (run_job_callbacks j w)
    as [->|[(p' & u & Ho & _ & ->)|(p' & evs & cb & Ho & Hpend & ->)]]; [done|..].
  - rewrite callbacks_unlisten. case_decide; [|done].
    apply filter_uses_drop. specialize (Hfin _ _ _ Ho).
    by destruct (dropped u).
  - rewrite List.filter_app. simpl. case_bool_decide as Hcb.
    + subst cb. by destruct (Hone _ _ _ Ho).
    + by rewrite app_nil_r.
Qed.

Lemma resuming_step out j t w :
  settled out = true → resuming c id p q eventsArr callback out w →
  microtasks w = j :: t →
  resuming c id p q eventsArr callback out (run_job j (set_microtasks t w)).
Proof.
  intros Hout (Hset & Hst & Hsub) Hq.
  assert (out ≠ Pending) as Hne by (by destruct out).
  pose proof (settling_step c id p out j t w Hout Hset Hq) as Hset'.
  set (wq := set_microtasks t w) in *.
  assert (sub_static q (S (S p)) eventsArr callback wq) as Hst' by exact Hst.
  split; [done|]. split; [by apply sub_static_run_job|].
  destruct Hsub as [(Hpend & Huses & Hwake)|(k & Hres & Huses)].
  - assert (outcome q wq = Pending) as Hpend' by exact Hpend.
    assert (List.filter (uses callback) (_onMessageCallbacks wq) = []) as Huses'
      by exact Huses.
    assert (outcome (S (S p)) wq = Pending ∨ outcome (S (S p)) wq = out) as Hp3.
    { destruct Hset as (_ & _ & [(_ & ? & _)|[(_ & ? & _)|(? & _)]]); eauto. }
    destruct (decide (j = q)) as [->|Hjq].
    + pose proof Hst' as (Hoq & _).
      rewrite (run_job_await q wq (S (S p)) eventsArr callback Hoq Hpend').
      destruct Hp3 as [Hp3|Hp3]; rewrite Hp3.
      * left. do 2 (split; [done|]). intros Heq. rewrite Hp3 in Heq. congruence.
      * assert (q < length (promises wq)) as Hlt.
        { unfold origin_at in Hoq. destruct (promises wq !! q) eqn:E; [|done].
          by eapply lookup_lt_Some. }
        right. destruct out as [|v|e]; [done|..].
        -- unfold subscribe_resume, subscribe_result.
           destruct (truthy (error_of v)).
           ++ exists 0. simpl. rewrite outcome_settle_same by done.
              by rewrite callbacks_settle.
           ++ exists (closures wq). simpl. rewrite outcome_settle_same by done.
              rewrite callbacks_settle. simpl.
              rewrite List.filter_app, Huses. simpl.
              by rewrite bool_decide_eq_true_2.
        -- exists 0. simpl. rewrite outcome_settle_same by done.
           by rewrite callbacks_settle.
    + left. rewrite outcome_run_job_other by done. split; [done|].
      rewrite uses_run_job by (try done; by left). split; [done|].
      intros Hnow. destruct Hp3 as [Hp3|Hp3].
      * destruct (decide (j = S (S p))) as [->|Hj3].
        -- pose proof Hst' as (Hoq & _).
           apply (run_job_wakes q (AwaitReply (S (S p)) eventsArr callback)); try done.
           by rewrite Hnow.
        -- rewrite outcome_run_job_other in Hnow by done. congruence.
      * apply microtasks_run_job_incl.
        assert (q ∈ j :: t) as Hin by (rewrite <- Hq; by apply Hwake).
        apply elem_of_cons in Hin as [?|?]; done.
  - right. exists k.
    assert (outcome q wq ≠ Pending) as Hs.
    { change (outcome q w ≠ Pending). rewrite Hres. unfold subscribe_result.
      destruct out as [|v|e]; [done| |done]. by destruct (truthy (error_of v)). }
    rewrite outcome_run_job_settled by done.
    rewrite uses_run_job by (try done; by right). done.
Qed.

(** Once the reply has settled the inner promise, one checkpoint takes the
    subscription to its end. *)
Lemma resuming_runMicrotasks out w :
  settled out = true → resuming c id p q eventsArr callback out w →
  ∃ k, subscribed q (S (S p)) eventsArr callback
         (subscribe_result eventsArr callback out k) (runMicrotasks w).
Proof.
  intros Hout Hr.
  assert (resuming c id p q eventsArr callback out (runMicrotasks w))
    as (Hset & Hst & Hsub).
  { unfold runMicrotasks.
    apply (drain_invariant (resuming c id p q eventsArr callback out)); [|done].
    intros j t w' Hw' Hq. by apply resuming_step. }
  destruct Hset as (_ & _ & Hstage).
  rewrite runMicrotasks_empty in Hsub, Hstage.
  destruct Hsub as [(_ & _ & Hwake)|(k & Hres & Huses)].
  - destruct Hstage as [(_ & _ & Hin)|[(_ & _ & Hin & _)|(Hp3 & _)]];
      try by apply elem_of_nil in Hin.
    by apply Hwake, elem_of_nil in Hp3.
  - by exists k.
Qed.

Lemma awaiting_forEach_reply msg w :
  is_reply c msg = true → awaiting c id p q eventsArr callback w →
  resuming c id p q eventsArr callback (Fulfilled (VMessage msg))
    (forEach (_onMessageCallbacks w) (AMessage msg) w).
Proof.
  intros Hyes (Hw & Hst & Hpend & Huses & Hres).
  pose proof (waiting_forEach_reply c id p msg w Hyes Hw) as Hset.
  split; [done|]. split; [by apply sub_static_forEach|].
  left. split; [|split].
  - apply (forEach_invariant (λ w', outcome q w' = Pending)); [|done].
    intros w' cb Hin Hq. destruct cb as [f|id' c' p'|id' evs f]; simpl; [done|..].
    + destruct (is_reply c' msg); [|done].
      rewrite outcome_resolve_other; [done|]. intros ->. by apply Hres in Hin.
    + by destruct (is_event evs msg).
  - by rewrite callbacks_forEach.
  - intros Hp3. exfalso.
    assert (outcome (S (S p)) (forEach (_onMessageCallbacks w) (AMessage msg) w) = Pending)
      as Hpend3; [|congruence].
    destruct Hw as (_ & _ & _ & Hp3' & _ & Hres' & _).
    apply (forEach_invariant (λ w', outcome (S (S p)) w' = Pending)); [|done].
    intros w' cb Hin Hq. destruct cb as [f|id' c' p'|id' evs f]; simpl; [done|..].
    + destruct (is_reply c' msg); [|done].
      rewrite outcome_resolve_other; [done|]. intros <-.
      apply Hres' in Hin. tauto.
    + by destruct (is_event evs msg).
Qed.

(** The reply to the [subscribe] request ends the subscription call. *)
Lemma awaiting_deliver_reply msg w :
  is_reply c msg = true → awaiting c id p q eventsArr callback w →
  ∃ k, subscribed q (S (S p)) eventsArr callback
         (subscribe_result eventsArr callback (Fulfilled (VMessage msg)) k)
         (deliver w msg).
Proof.
  intros Hyes Ha.
  apply (resuming_runMicrotasks (Fulfilled (VMessage msg))); [done|].
  by apply awaiting_forEach_reply.
Qed.

(** After that, inbound messages change neither the result nor the
    listeners calling [callback]. *)
Lemma subscribed_deliver res msg w :
  res.1 ≠ Pending →
  subscribed q (S (S p)) eventsArr callback res w →
  subscribed q (S (S p)) eventsArr callback res (deliver w msg).
Proof.
  intros Hs (Hst & Hres & Huses). unfold deliver, notify, runMicrotasks. simpl.
  apply (drain_invariant (subscribed q (S (S p)) eventsArr callback res)).
  - intros j t w' (Hst' & Hres' & Huses') _.
    set (wq := set_microtasks t w').
    assert (outcome q wq ≠ Pending) as Hs'
      by (change (outcome q w' ≠ Pending); by rewrite Hres').
    split; [by apply sub_static_run_job|].
    rewrite outcome_run_job_settled by done.
    rewrite uses_run_job by (try done; by right). done.
  - split; [by apply sub_static_forEach|].
    rewrite outcome_forEach_settled by (by rewrite Hres).
    by rewrite callbacks_forEach.
Qed.

Lemma subscribed_deliver_all res msgs w :
  res.1 ≠ Pending →
  subscribed q (S (S p)) eventsArr callback res w →
  subscribed q (S (S p)) eventsArr callback res (deliver_all msgs w).
Proof.
  intros Hs. revert w. unfold deliver_all.
  induction msgs as [|msg msgs IH]; intros w Hw; simpl; [done|].
  by apply IH, subscribed_deliver.
Qed.

(** Until the reply arrives nothing changes for the subscription. *)
Lemma awaiting_run_job j w :
  awaiting c id p q eventsArr callback w →
  awaiting c id p q eventsArr callback (run_job j w).
Proof.
  intros (Hw & Hst & Hpend & Huses & Hres).
  pose proof Hst as (Hoq & _).
  pose proof Hw as (_ & _ & _ & Hp3 & _).
  destruct (decide (j = q)) as [->|Hjq].
  { by rewrite (run_job_blocked q w (AwaitReply (S (S p)) eventsArr callback) (S (S p))). }
  split; [by apply waiting_run_job|]. split; [by apply sub_static_run_job|].
  split; [by rewrite outcome_run_job_other|].
  split; [rewrite uses_run_job; [done..|by left]|].
  intros id' c' p' Hin.
  destruct (run_job_callbacks j w)
    as [Heq|[(p'' & u & _ & _ & Heq)|(p'' & evs & cb & _ & _ & Heq)]];
    rewrite Heq in Hin.
  - eauto.
  - rewrite callbacks_unlisten in Hin. case_decide; [|eauto].
    apply list_elem_of_filter in Hin as [_ Hin]. eauto.
  - apply elem_of_app in Hin as [Hin|Hin]; [eauto|].
    by apply list_elem_of_singleton in Hin.
Qed.

Lemma awaiting_deliver_other msg w :
  is_reply c msg = false → awaiting c id p q eventsArr callback w →
  awaiting c id p q eventsArr callback (deliver w msg).
Proof.
  intros Hno Ha. unfold deliver, notify, runMicrotasks. simpl.
  apply (drain_invariant (awaiting c id p q eventsArr callback)).
  { intros j t w' Hw' _. by apply awaiting_run_job. }
  apply (forEach_invariant
           (λ w', awaiting c id p q eventsArr callback w'
                  ∧ _onMessageCallbacks w' = _onMessageCallbacks w)); [|done].
  intros w' cb Hin [(Hw & Hst & Hpend & Huses & Hres) Heq].
  rewrite <- Heq in Hin. split; [|by rewrite callbacks_invoke].
  split; [by apply waiting_invoke_other|].
  split.
  { destruct Hst as (Hq & Hone & Hfin). split; [by rewrite origin_at_invoke|]. split.
    - intros j' p' evs'. rewrite origin_at_invoke. intros Ho.
      destruct (Hone _ _ _ Ho) as [?|Hs]; [by left|right].
      by rewrite outcome_invoke_settled.
    - intros j' p' u. rewrite origin_at_invoke. apply Hfin. }
  rewrite callbacks_invoke. split; [|done].
  destruct cb as [f|id' c' p'|id' evs f]; simpl; [done|..].
  - destruct (is_reply c' msg); [|done].
    rewrite outcome_resolve_other; [done|]. intros ->. by apply Hres in Hin.
  - by destruct (is_event evs msg).
Qed.

(** The same steps for the outcome alone, whoever else uses the callback. *)
Lemma suspended_run_job j w :
  suspended c id p q eventsArr callback w →
  suspended c id p q eventsArr callback (run_job j w).
Proof.
  intros (Hw & Hoq & Hpend & Hres).
  pose proof Hw as (_ & _ & _ & Hp3 & _).
  destruct (decide (j = q)) as [->|Hjq].
  { by rewrite (run_job_blocked q w (AwaitReply (S (S p)) eventsArr callback) (S (S p))). }
  split; [by apply waiting_run_job|]. split; [by rewrite origin_at_run_job|].
  split; [by rewrite outcome_run_job_other|].
  intros id' c' p' Hin.
  destruct (run_job_callbacks j w)
    as [Heq|[(p'' & u & _ & _ & Heq)|(p'' & evs & cb & _ & _ & Heq)]];
    rewrite Heq in Hin.
  - eauto.
  - rewrite callbacks_unlisten in Hin. case_decide; [|eauto].
    apply list_elem_of_filter in Hin as [_ Hin]. eauto.
  - apply elem_of_app in Hin as [Hin|Hin]; [eauto|].
    by apply list_elem_of_singleton in Hin.
Qed.

Lemma suspended_deliver_other msg w :
  is_reply c msg = false → suspended c id p q eventsArr callback w →
  suspended c id p q eventsArr callback (deliver w msg).
Proof.
  intros Hno Ha. unfold deliver, notify, runMicrotasks. simpl.
  apply (drain_invariant (suspended c id p q eventsArr callback)).
  { intros j t w' Hw' _. by apply suspended_run_job. }
  apply (forEach_invariant
           (λ w', suspended c id p q eventsArr callback w'
                  ∧ _onMessageCallbacks w' = _onMessageCallbacks w)); [|done].
  intros w' cb Hin [(Hw & Hoq & Hpend & Hres) Heq].
  rewrite <- Heq in Hin. split; [|by rewrite callbacks_invoke].
  split; [by apply waiting_invoke_other|].
  split; [by rewrite origin_at_invoke|].
  rewrite callbacks_invoke. split; [|done].
  destruct cb as [f|id' c' p'|id' evs f]; simpl; [done|..].
  - destruct (is_reply c' msg); [|done].
    rewrite outcome_resolve_other; [done|]. intros ->. by apply Hres in Hin.
  - by destruct (is_event evs msg).
Qed.

Lemma suspended_forEach_reply msg w :
  is_reply c msg = true → suspended c id p q eventsArr callback w →
  resumed c id p q eventsArr callback (Fulfilled (VMessage msg))
    (forEach (_onMessageCallbacks w) (AMessage msg) w).
Proof.
  intros Hyes (Hw & Hoq & Hpend & Hres).
  pose proof (waiting_forEach_reply c id p msg w Hyes Hw) as Hset.
  split; [done|]. split; [by rewrite origin_at_forEach|].
  left. split.
  - apply (forEach_invariant (λ w', outcome q w' = Pending)); [|done].
    intros w' cb Hin Hq. destruct cb as [f|id' c' p'|id' evs f]; simpl; [done|..].
    + destruct (is_reply c' msg); [|done].
      rewrite outcome_resolve_other; [done|]. intros ->. by apply Hres in Hin.
    + by destruct (is_event evs msg).
  - intros Hp3. exfalso.
    assert (outcome (S (S p)) (forEach (_onMessageCallbacks w) (AMessage msg) w) = Pending)
      as Hpend3; [|congruence].
    destruct Hw as (_ & _ & _ & Hp3' & _ & Hres' & _).
    apply (forEach_invariant (λ w', outcome (S (S p)) w' = Pending)); [|done].
    intros w' cb Hin Hq. destruct cb as [f|id' c' p'|id' evs f]; simpl; [done|..].
    + destruct (is_reply c' msg); [|done].
      rewrite outcome_resolve_other; [done|]. intros <-.
      apply Hres' in Hin. tauto.
    + by destruct (is_event evs msg).
Qed.

Lemma resumed_step out j t w :
  settled out = true → resumed c id p q eventsArr callback out w →
  microtasks w = j :: t →
  resumed c id p q eventsArr callback out (run_job j (set_microtasks t w)).
Proof.
  intros Hout (Hset & Hoq & Hsub) Hq.
  assert (out ≠ Pending) as Hne by (by destruct out).
  pose proof (settling_step c id p out j t w Hout Hset Hq) as Hset'.
  set (wq := set_microtasks t w) in *.
  assert (origin_at q wq = Some (AwaitReply (S (S p)) eventsArr callback)) as Hoq'
    by exact Hoq.
  split; [done|]. split; [by rewrite origin_at_run_job|].
  destruct Hsub as [(Hpend & Hwake)|(k & Hres)].
  - assert (outcome q wq = Pending) as Hpend' by exact Hpend.
    assert (outcome (S (S p)) wq = Pending ∨ outcome (S (S p)) wq = out) as Hp3.
    { destruct Hset as (_ & _ & [(_ & ? & _)|[(_ & ? & _)|(? & _)]]); eauto. }
    destruct (decide (j = q)) as [->|Hjq].
    + rewrite (run_job_await q wq (S (S p)) eventsArr callback Hoq' Hpend').
      destruct Hp3 as [Hp3|Hp3]; rewrite Hp3.
      * left. split; [done|]. intros Heq. rewrite Hp3 in Heq. congruence.
      * assert (q < length (promises wq)) as Hlt.
        { unfold origin_at in Hoq'. destruct (promises wq !! q) eqn:E; [|done].
          by eapply lookup_lt_Some. }
        right. destruct out as [|v|e]; [done|..].
        -- unfold subscribe_resume, subscribe_result.
           destruct (truthy (error_of v)).
           ++ exists 0. simpl. by rewrite outcome_settle_same.
           ++ exists (closures wq). simpl. by rewrite outcome_settle_same.
        -- exists 0. simpl. by rewrite outcome_settle_same.
    + left. rewrite outcome_run_job_other by done. split; [done|].
      intros Hnow. destruct Hp3 as [Hp3|Hp3].
      * destruct (decide (j = S (S p))) as [->|Hj3].
        -- apply (run_job_wakes q (AwaitReply (S (S p)) eventsArr callback)); try done.
           by rewrite Hnow.
        -- rewrite outcome_run_job_other in Hnow by done. congruence.
      * apply microtasks_run_job_incl.
        assert (q ∈ j :: t) as Hin by (rewrite <- Hq; by apply Hwake).
        apply elem_of_cons in Hin as [?|?]; done.
  - right. exists k.
    assert (outcome q wq ≠ Pending) as Hs.
    { change (outcome q w ≠ Pending). rewrite Hres. unfold subscribe_result.
      destruct out as [|v|e]; [done| |done]. by destruct (truthy (error_of v)). }
    by rewrite outcome_run_job_settled.
Qed.

(** The reply to its request settles the promise [subscribe] returned, in
    every state of the client. *)
Lemma suspended_deliver_reply msg w :
  is_reply c msg = true → suspended c id p q eventsArr callback w →
  ∃ k, outcome q (deliver w msg)
       = (subscribe_result eventsArr callback (Fulfilled (VMessage msg)) k).1.
Proof.
  intros Hyes Ha. set (out := Fulfilled (VMessage msg)).
  pose proof (suspended_forEach_reply msg w Hyes Ha) as Hr. fold out in Hr.
  unfold deliver, notify. simpl.
  set (w' := forEach (_onMessageCallbacks w) (AMessage msg) w) in *.
  assert (resumed c id p q eventsArr callback out (runMicrotasks w'))
    as (Hset & _ & Hsub).
  { unfold runMicrotasks.
    apply (drain_invariant (resumed c id p q eventsArr callback out)); [|done].
    intros j t w'' Hw'' Hq. by apply resumed_step. }
  destruct Hset as (_ & _ & Hstage).
  rewrite runMicrotasks_empty in Hsub, Hstage.
  destruct Hsub as [(_ & Hwake)|(k & Hres)].
  - destruct Hstage as [(_ & _ & Hin)|[(_ & _ & Hin & _)|(Hp3 & _)]];
      try by apply elem_of_nil in Hin.
    by apply Hwake, elem_of_nil in Hp3.
  - by exists k.
Qed.

End Subscription.

Lemma suspended_deliver_all c id p q eventsArr callback msgs w :
  Forall (λ m, is_reply c m = false) msgs →
  suspended c id p q eventsArr callback w →
  suspended c id p q eventsArr callback (deliver_all msgs w).
Proof.
  intros Hno. revert w. unfold deliver_all.
  induction Hno as [|msg msgs Hmsg _ IH]; intros w Ha; simpl; [done|].
  by apply IH, suspended_deliver_other.
Qed.

(** A settled promise keeps its outcome. *)
Lemma outcome_deliver_settled x w msg :
  outcome x w ≠ Pending → outcome x (deliver w msg) = outcome x w.
Proof.
  intros Hs. unfold deliver, notify, runMicrotasks. simpl.
  apply (drain_invariant (λ w', outcome x w' = outcome x w)).
  - intros j t w' Hw' _. rewrite <- Hw'.
    apply (outcome_run_job_settled x j (set_microtasks t w')).
    change (outcome x w' ≠ Pending). by rewrite Hw'.
  - by apply outcome_forEach_settled.
Qed.

Lemma outcome_deliver_all_settled x msgs w :
  outcome x w ≠ Pending → outcome x (deliver_all msgs w) = outcome x w.
Proof.
  revert w. unfold deliver_all.
  induction msgs as [|msg msgs IH]; intros w Hs; simpl; [done|].
  rewrite IH; rewrite outcome_deliver_settled; done.
Qed.

(** ** Every operation keeps the state well formed *)

Lemma wf_intro w :
  (∀ cb, cb ∈ _onMessageCallbacks w → target_below (length (promises w)) cb = true) →
  (∀ j o, origin_at j w = Some o → origin_ok (length (promises w)) o = true) →
  wf w = true.
Proof.
  intros Hl Ho. unfold wf. apply andb_true_intro. split; apply forallb_forall.
  - intros cb Hin. by apply Hl, list_elem_of_In.
  - intros pr Hin. apply list_elem_of_In, list_elem_of_lookup in Hin as [j Hj].
    apply (Ho j). unfold origin_at. by rewrite Hj.
Qed.

Lemma wf_target w cb :
  wf w = true → cb ∈ _onMessageCallbacks w → target_below (length (promises w)) cb = true.
Proof.
  unfold wf. intros [Hl _]%andb_prop Hin. rewrite forallb_forall in Hl.
  by apply Hl, list_elem_of_In.
Qed.

Lemma wf_new options : wf (new_GwmClient options) = true.
Proof. done. Qed.

Lemma wf_close w : wf w = true → wf (close w) = true.
Proof. done. Qed.

Lemma wf_send message w : wf w = true → wf (send message w) = true.
Proof. done. Qed.

Lemma wf_listen r f w : wf w = true → wf (listen r (UserFn f) w).2 = true.
Proof.
  intros Hwf. apply wf_intro.
  - intros cb Hin. destruct r; simpl in Hin; try by apply (wf_target w).
    apply elem_of_app in Hin as [Hin|Hin]; [by apply (wf_target w)|].
    by apply list_elem_of_singleton in Hin as ->.
  - intros j o. apply (wf_origin w j o Hwf).
Qed.

Lemma wf_unlisten u w : wf w = true → wf (unlisten u w) = true.
Proof.
  intros Hwf. apply wf_intro.
  - intros cb. rewrite callbacks_unlisten. case_decide; [|by apply (wf_target w)].
    intros [_ Hin]%list_elem_of_filter. by apply (wf_target w).
  - intros j o. apply (wf_origin w j o Hwf).
Qed.

Lemma length_promises_run_job j w :
  length (promises (run_job j w)) = length (promises w).
Proof.
  unfold run_job. destruct (promises w !! j) as [[st o]|] eqn:Hj; [|done].
  destruct st; [|done..].
  destruct o as [|p u|p|p evs cb]; [done|..].
  - destruct (outcome p w); [done|..]; by rewrite length_promises_settle.
  - destruct (outcome p w); [done|..]; by rewrite length_promises_settle.
  - destruct (outcome p w) as [|v|e]; [done| |by rewrite length_promises_settle].
    unfold subscribe_resume. destruct (truthy (error_of v)); simpl;
      by rewrite length_promises_settle.
Qed.

Lemma length_promises_invoke a w cb :
  length (promises (invoke a w cb)) = length (promises w).
Proof.
  destruct cb as [f|id c p|id evs f]; simpl; [done|..].
  - destruct a; [|done..]. destruct (is_reply c m); [|done].
    unfold resolve. destruct (outcome p w); by rewrite ?length_promises_settle.
  - destruct a; [|done..]. by destruct (is_event evs m).
Qed.

Lemma wf_run_job j w : wf w = true → wf (run_job j w) = true.
Proof.
  intros Hwf. apply wf_intro; rewrite length_promises_run_job.
  - intros cb Hin.
    destruct (run_job_callbacks j w)
      as [Heq|[(p' & u & _ & _ & Heq)|(p' & evs & f & _ & _ & Heq)]];
      rewrite Heq in Hin.
    + by apply (wf_target w).
    + rewrite callbacks_unlisten in Hin. case_decide; [|by apply (wf_target w)].
      apply list_elem_of_filter in Hin as [_ Hin]. by apply (wf_target w).
    + apply elem_of_app in Hin as [Hin|Hin]; [by apply (wf_target w)|].
      by apply list_elem_of_singleton in Hin as ->.
  - intros j' o. rewrite origin_at_run_job. apply (wf_origin w j' o Hwf).
Qed.

Lemma wf_invoke a w cb : wf w = true → wf (invoke a w cb) = true.
Proof.
  intros Hwf. apply wf_intro; rewrite length_promises_invoke.
  - intros cb'. rewrite callbacks_invoke. by apply (wf_target w).
  - intros j o. rewrite origin_at_invoke. apply (wf_origin w j o Hwf).
Qed.

(** A socket notification keeps the state well formed. *)
Lemma wf_notify ev w : wf w = true → wf (notify ev w) = true.
Proof.
  intros Hwf. unfold notify, runMicrotasks.
  apply (drain_invariant (λ w', wf w' = true)).
  - intros j q w' Hw' _. by apply wf_run_job.
  - destruct ev; simpl; apply (forEach_invariant (λ w', wf w' = true)); try done;
      intros w' cb _ Hw'; by apply wf_invoke.
Qed.

(** ** Subscribing *)

Lemma subscribe_eq event callback w :
  let n := length (promises w) in
  let eventsArr := eventsArr_of event in
  let w1 := (sendAndWaitReply ("subscribe -e " +:+ String.concat "," eventsArr) w).2 in
  subscribe event callback w =
  (S (S (S n)),
   set_promises
     (promises w1 ++ [{| state := Pending; origin := AwaitReply (S (S n)) eventsArr callback |}])
     w1).
Proof.
  intros n eventsArr w1. subst w1. unfold subscribe. fold eventsArr.
  destruct (sendAndWaitReply ("subscribe -e " +:+ String.concat "," eventsArr) w)
    as [p3 w1] eqn:E.
  rewrite sendAndWaitReply_eq in E. injection E as <- <-. fold n.
  rewrite new_promise_pending.
  - f_equal. simpl. rewrite length_app. simpl. fold n. lia.
  - simpl. unfold outcome. simpl.
    rewrite lookup_app_r by (fold n; lia).
    by replace (S (S n) - length (promises w)) with 2 by (fold n; lia).
Qed.

Lemma wf_subscribe event callback w :
  wf w = true → wf (subscribe event callback w).2 = true.
Proof.
  intros Hwf. rewrite subscribe_eq. cbn [snd].
  pose proof (wf_sendAndWaitReply
                ("subscribe -e " +:+ String.concat "," (eventsArr_of event)) w Hwf) as Hwf1.
  set (w1 := (sendAndWaitReply _ w).2) in *.
  assert (length (promises w1) = S (S (S (length (promises w))))) as Hlen.
  { unfold w1. rewrite sendAndWaitReply_eq. simpl. rewrite length_app. simpl. lia. }
  apply wf_intro; simpl; rewrite length_app; simpl.
  - intros cb Hin. apply (target_below_mono (length (promises w1))); [lia|].
    by apply (wf_target w1).
  - intros j o. unfold origin_at. simpl.
    destruct (decide (j < length (promises w1))) as [Hj|Hj].
    + rewrite lookup_app_l by done. intros Ho.
      apply (origin_ok_mono (length (promises w1))); [lia|].
      by apply (wf_origin w1 j o).
    + rewrite lookup_app_r by lia.
      destruct (j - length (promises w1)) as [|k]; simpl; [|done].
      intros [= <-]. simpl. apply Nat.ltb_lt. lia.
Qed.

Lemma subscribe_shape event callback w :
  let n := length (promises w) in
  let eventsArr := eventsArr_of event in
  let c := "subscribe -e " +:+ String.concat "," eventsArr in
  promises (subscribe event callback w).2 =
    promises w ++
      [{| state := Pending; origin := Executor |};
       {| state := Pending; origin := Finally n (handle c (closures w) n) |};
       {| state := Pending; origin := AsyncReturn (S n) |};
       {| state := Pending; origin := AwaitReply (S (S n)) eventsArr callback |}]
  ∧ _onMessageCallbacks (subscribe event callback w).2 =
    _onMessageCallbacks w ++ [ReplyListener (closures w) c n].
Proof.
  intros n eventsArr c. rewrite subscribe_eq. unfold set_promises.
  cbn [snd promises _onMessageCallbacks]. fold eventsArr c.
  rewrite sendAndWaitReply_eq. cbn [snd promises _onMessageCallbacks].
  split; [|done]. by rewrite <- app_assoc.
Qed.

Lemma subscribe_origin_cases event callback w j o :
  let n := length (promises w) in
  let eventsArr := eventsArr_of event in
  let c := "subscribe -e " +:+ String.concat "," eventsArr in
  origin_at j (subscribe event callback w).2 = Some o →
  (j < n ∧ origin_at j w = Some o)
  ∨ (n ≤ j ∧ (o = Executor ∨ o = Finally n (handle c (closures w) n)
              ∨ o = AsyncReturn (S n) ∨ o = AwaitReply (S (S n)) eventsArr callback)).
Proof.
  intros n eventsArr c. unfold origin_at.
  destruct (subscribe_shape event callback w) as [-> _]. fold n eventsArr c.
  destruct (decide (j < n)) as [Hj|Hj].
  - rewrite lookup_app_l by done. by left.
  - rewrite lookup_app_r by (fold n; lia). fold n. intros Ho. right. split; [lia|].
    destruct (j - n) as [|[|[|[|k]]]]; simplify_eq/=; eauto.
Qed.

Lemma microtasks_sendAndWaitReply c w :
  microtasks (sendAndWaitReply c w).2 = microtasks w.
Proof. by rewrite sendAndWaitReply_eq. Qed.

Lemma microtasks_subscribe event callback w :
  microtasks (subscribe event callback w).2 = microtasks w.
Proof.
  rewrite subscribe_eq. unfold set_promises. cbn [snd microtasks].
  apply microtasks_sendAndWaitReply.
Qed.

Lemma alone_sub_intro w w2 h evs cb :
  wf w = true →
  promises w2 =
    promises w ++
      [{| state := Pending; origin := Executor |};
       {| state := Pending; origin := Finally (length (promises w)) h |};
       {| state := Pending; origin := AsyncReturn (S (length (promises w))) |};
       {| state := Pending; origin := AwaitReply (S (S (length (promises w)))) evs cb |}] →
  alone_sub (length (promises w)) w2.
Proof.
  intros Hwf Hps j o p' Ho Hpar Hle.
  unfold origin_at in Ho. rewrite Hps in Ho. clear Hps.
  destruct (decide (j < length (promises w))) as [Hj|Hj].
  - rewrite lookup_app_l in Ho by done.
    apply (wf_origin w j o Hwf) in Ho. pose proof (origin_ok_parent _ _ _ Ho Hpar). lia.
  - rewrite lookup_app_r in Ho by lia.
    destruct (j - length (promises w)) as [|[|[|[|k]]]] eqn:Ek; simplify_eq/=.
    + left. lia.
    + right; left. lia.
    + right; right. lia.
Qed.

Lemma subscribe_alone event callback w :
  wf w = true → alone_sub (length (promises w)) (subscribe event callback w).2.
Proof.
  intros Hwf. destruct (subscribe_shape event callback w) as [Hps _].
  by eapply alone_sub_intro.
Qed.

Lemma unused_listener f w cb :
  unused f w = true → cb ∈ _onMessageCallbacks w → uses f cb = false.
Proof.
  unfold unused. intros [Hl _]%andb_prop Hin. rewrite forallb_forall in Hl.
  apply list_elem_of_In, Hl in Hin. by apply negb_true_iff.
Qed.

Lemma unused_filter f w :
  unused f w = true → List.filter (uses f) (_onMessageCallbacks w) = [].
Proof.
  intros Hu. pose proof (λ cb, unused_listener f w cb Hu) as H.
  induction (_onMessageCallbacks w) as [|cb l IH]; [done|]. simpl.
  rewrite (H cb) by (by left). apply IH. intros cb' Hin. apply H. by right.
Qed.

Lemma unused_origin f w j p evs :
  unused f w = true → origin_at j w ≠ Some (AwaitReply p evs f).
Proof.
  unfold unused, origin_at. intros [_ Ho]%andb_prop Hj. rewrite forallb_forall in Ho.
  destruct (promises w !! j) as [pr|] eqn:E; [|done]. injection Hj as Hj.
  assert (pr ∈ promises w) as Hin by (apply list_elem_of_lookup; eauto).
  apply list_elem_of_In, Ho in Hin. rewrite Hj in Hin.
  by rewrite bool_decide_eq_true_2 in Hin.
Qed.

Lemma free_filter f w :
  free f w = true → List.filter (uses f) (_onMessageCallbacks w) = [].
Proof.
  unfold free. intros [Hl _]%andb_prop. rewrite forallb_forall in Hl.
  induction (_onMessageCallbacks w) as [|cb l IH]; [done|]. simpl.
  rewrite (proj1 (negb_true_iff _) (Hl cb (or_introl eq_refl))).
  apply IH. intros cb' Hin. apply Hl. by right.
Qed.

Lemma free_origin f w j p evs :
  free f w = true → origin_at j w = Some (AwaitReply p evs f) → outcome j w ≠ Pending.
Proof.
  unfold free, origin_at, outcome. intros [_ Ho]%andb_prop Hj.
  rewrite forallb_forall in Ho.
  destruct (promises w !! j) as [pr|] eqn:E; [|done]. injection Hj as Hj. simpl.
  assert (pr ∈ promises w) as Hin by (apply list_elem_of_lookup; eauto).
  apply list_elem_of_In, Ho in Hin. rewrite Hj in Hin.
  rewrite bool_decide_eq_true_2 in Hin by done. simpl in Hin.
  by destruct (state pr).
Qed.

Lemma free_intro f w :
  List.filter (uses f) (_onMessageCallbacks w) = [] →
  (∀ j p evs, origin_at j w = Some (AwaitReply p evs f) → outcome j w ≠ Pending) →
  free f w = true.
Proof.
  intros Hl Ho. unfold free. apply andb_true_intro. split; apply forallb_forall.
  - intros cb Hin. apply negb_true_iff. destruct (uses f cb) eqn:E; [|done].
    assert (In cb (List.filter (uses f) (_onMessageCallbacks w))) as Hin'
      by (by apply List.filter_In).
    by rewrite Hl in Hin'.
  - intros pr Hin. apply list_elem_of_In, list_elem_of_lookup in Hin as [j Hj].
    destruct (origin pr) as [| | |p evs g] eqn:Eo; [done..|].
    destruct (decide (g = f)) as [->|Hne]; [|by rewrite bool_decide_eq_false_2].
    rewrite bool_decide_eq_true_2 by done. simpl.
    specialize (Ho j p evs). unfold origin_at, outcome in Ho. rewrite Hj in Ho. simpl in Ho.
    rewrite Eo in Ho. specialize (Ho eq_refl). by destruct (state pr).
Qed.

Lemma unused_free f w : unused f w = true → free f w = true.
Proof.
  unfold unused, free. intros [Hl Ho]%andb_prop. rewrite Hl. simpl.
  rewrite forallb_forall in Ho. apply forallb_forall. intros pr Hin.
  specialize (Ho pr Hin). destruct (origin pr); [done..|]. by rewrite Ho.
Qed.

(** A fresh [subscribe] call is suspended at its [await]; when the callback
    is free, nothing else will register a listener calling it. *)
Lemma subscribe_state event callback w :
  wf w = true →
  let n := length (promises w) in
  let eventsArr := eventsArr_of event in
  let c := "subscribe -e " +:+ String.concat "," eventsArr in
  suspended c (closures w) n (S (S (S n))) eventsArr callback (subscribe event callback w).2
  ∧ (free callback w = true →
     awaiting c (closures w) n (S (S (S n))) eventsArr callback
       (subscribe event callback w).2).
Proof.
  intros Hwf n eventsArr c. rewrite subscribe_eq. fold eventsArr c.
  pose proof (sendAndWaitReply_waiting c w Hwf) as Hw. fold n in Hw.
  pose proof (chain_lt _ _ _ _ (proj1 Hw)) as Hlt.
  set (w1 := (sendAndWaitReply c w).2) in *. simpl.
  set (w2 := set_promises _ w1).
  assert (promises w2 = promises w1 ++
            [{| state := Pending; origin := AwaitReply (S (S n)) eventsArr callback |}])
    as Hp2 by done.
  assert (length (promises w1) = S (S (S n))) as Hlen.
  { unfold w1. rewrite sendAndWaitReply_eq. simpl. rewrite length_app. simpl.
    fold n. lia. }
  assert (∀ x, x < length (promises w1) →
            origin_at x w2 = origin_at x w1 ∧ outcome x w2 = outcome x w1) as Hold.
  { intros x Hx. by eapply origin_at_grow. }
  assert (∀ x, x < n → outcome x w1 = outcome x w) as Hold1.
  { intros x Hx. unfold w1. rewrite sendAndWaitReply_eq. unfold outcome. simpl.
    by rewrite lookup_app_l. }
  assert (origin_at (S (S (S n))) w2 = Some (AwaitReply (S (S n)) eventsArr callback)
          ∧ outcome (S (S (S n))) w2 = Pending) as [Hoq Hsq].
  { unfold origin_at, outcome. rewrite Hp2, lookup_app_r by lia.
    by replace (S (S (S n)) - length (promises w1)) with 0 by lia. }
  assert (_onMessageCallbacks w2 = _onMessageCallbacks w ++ [ReplyListener (closures w) c n])
    as Hreg by (unfold w2, w1; by rewrite sendAndWaitReply_eq).
  assert (∀ j o, origin_at j w2 = Some o →
            (j < n ∧ origin_at j w = Some o) ∨ (j = n ∧ o = Executor)
            ∨ (j = S n ∧ o = Finally n (handle c (closures w) n))
            ∨ (j = S (S n) ∧ o = AsyncReturn (S n))
            ∨ (j = S (S (S n)) ∧ o = AwaitReply (S (S n)) eventsArr callback)) as Hcases.
  { intros j o Hj. destruct (decide (j < length (promises w1))) as [Hj1|Hj1].
    - destruct (Hold j Hj1) as [Ho _]. rewrite Ho in Hj.
      destruct Hw as ((H1 & H2 & H3) & _).
      destruct (decide (j < n)) as [Hjn|Hjn].
      + left. split; [done|]. unfold w1 in Hj. rewrite sendAndWaitReply_eq in Hj.
        unfold origin_at in *. simpl in Hj. by rewrite lookup_app_l in Hj.
      + right. assert (j = n ∨ j = S n ∨ j = S (S n)) as [->|[->| ->]] by lia.
        * left. split; [done|]. congruence.
        * right; left. split; [done|]. congruence.
        * right; right; left. split; [done|]. congruence.
    - do 4 right. unfold origin_at in Hj. rewrite Hp2, lookup_app_r in Hj by lia.
      destruct (j - length (promises w1)) as [|k] eqn:Ek; simpl in Hj; [|done].
      split; [lia|congruence]. }
  destruct (Hold n) as [Ho1 Hs1]; [lia|].
  destruct (Hold (S n)) as [Ho2 Hs2]; [lia|].
  destruct (Hold (S (S n))) as [Ho3 Hs3]; [lia|].
  destruct Hw as ((H1 & H2 & H3) & Hp1 & Hp2' & Hp3 & Hl & Hres & Hdrop).
  assert (waiting c (closures w) n w2) as Hwait.
  { unfold waiting, chain. rewrite Ho1, Ho2, Ho3, Hs1, Hs2, Hs3.
    do 5 (split; [done|]). split; [done|].
    intros j p' u Hj Hu.
    destruct (Hcases j _ Hj) as [[Hjn Hjw]|[[_ ?]|[[? _]|[[_ ?]|[_ ?]]]]]; try done.
    apply (wf_origin _ _ _ Hwf) in Hjw. simpl in Hjw. rewrite Hu in Hjw. simpl in Hjw.
    apply andb_prop in Hjw as [_ Hjw]. apply Nat.ltb_lt in Hjw. unfold n in *. lia. }
  assert (∀ id' c' p', ReplyListener id' c' p' ∈ _onMessageCallbacks w2 →
            p' ≠ S (S (S n))) as Hnoq.
  { intros id' c' p' Hin. rewrite Hreg in Hin. apply elem_of_app in Hin as [Hin|Hin].
    - apply (wf_listener _ _ _ _ Hwf) in Hin. unfold n. lia.
    - apply list_elem_of_singleton in Hin. injection Hin as -> -> ->. lia. }
  split; [done|]. intros Hfree.
  split; [done|]. split; [|split; [done|split; [|done]]].
  - split; [done|]. split.
    + intros j p' evs' Hj.
      destruct (Hcases j _ Hj) as [[Hjn Hjw]|[[_ ?]|[[_ ?]|[[_ ?]|[? _]]]]]; try done.
      * right. destruct (Hold j) as [_ ->]; [lia|]. rewrite Hold1 by done.
        by eapply free_origin.
      * by left.
    + intros j p' u Hj.
      destruct (Hcases j _ Hj) as [[Hjn Hjw]|[[_ ?]|[[_ ?]|[[_ ?]|[_ ?]]]]]; try done.
      * apply (wf_origin _ _ _ Hwf) in Hjw. simpl in Hjw.
        by apply andb_prop in Hjw as [[_ ?]%andb_prop _].
      * by simplify_eq.
  - rewrite Hreg, List.filter_app, free_filter by done. done.
Qed.

Lemma subscribe_awaiting event callback w :
  wf w = true → unused callback w = true →
  let n := length (promises w) in
  let eventsArr := eventsArr_of event in
  awaiting ("subscribe -e " +:+ String.concat "," eventsArr) (closures w) n (S (S (S n)))
    eventsArr callback (subscribe event callback w).2.
Proof.
  intros Hwf Hun. by apply (subscribe_state event callback w Hwf), unused_free.
Qed.

Lemma calls_to_app f l1 l2 : calls_to f (l1 ++ l2) = calls_to f l1 ++ calls_to f l2.
Proof. unfold calls_to. apply List.filter_app. Qed.

(** The calls a dispatch makes to [f] come from the listeners using [f]. *)
Lemma calls_to_fired f a l :
  calls_to f (concat (fired a <$> l)) = concat (fired a <$> List.filter (uses f) l).
Proof.
  induction l as [|cb l IH]; [done|].
  change (concat (fired a <$> cb :: l)) with (fired a cb ++ concat (fired a <$> l)).
  rewrite calls_to_app, IH.
  assert (calls_to f (fired a cb) = if uses f cb then fired a cb else []) as ->.
  { destruct cb as [g|id c p|id evs g]; simpl.
    - unfold calls_to. simpl. by case_bool_decide.
    - done.
    - destruct a; simpl; try (by case_bool_decide).
      destruct (is_event evs m); unfold calls_to; simpl; by case_bool_decide. }
  simpl. by destruct (uses f cb).
Qed.

Lemma calls_to_deliver f w msg :
  calls_to f (calls (trace (deliver w msg))) =
  calls_to f (calls (trace w))
  ++ concat (fired (AMessage msg) <$> List.filter (uses f) (_onMessageCallbacks w)).
Proof. by rewrite calls_deliver, calls_to_app, calls_to_fired. Qed.

Lemma awaiting_deliver_all c id p q eventsArr callback msgs w :
  Forall (λ m, is_reply c m = false) msgs →
  awaiting c id p q eventsArr callback w →
  awaiting c id p q eventsArr callback (deliver_all msgs w)
  ∧ calls_to callback (calls (trace (deliver_all msgs w)))
    = calls_to callback (calls (trace w)).
Proof.
  intros Hno. revert w. unfold deliver_all.
  induction Hno as [|msg msgs Hmsg _ IH]; intros w Ha; simpl; [done|].
  destruct (IH (deliver w msg)) as [Ha' ->]; [by apply awaiting_deliver_other|].
  split; [done|]. rewrite calls_to_deliver.
  destruct Ha as (_ & _ & _ & -> & _). by rewrite app_nil_r.
Qed.

Lemma subscribed_calls q p eventsArr callback res msgs w :
  res.1 ≠ Pending → res.2 = [] →
  subscribed q (S (S p)) eventsArr callback res w →
  calls_to callback (calls (trace (deliver_all msgs w)))
  = calls_to callback (calls (trace w)).
Proof.
  intros Hs Hnil. revert w. unfold deliver_all.
  induction msgs as [|msg msgs IH]; intros w Hsub; simpl; [done|].
  rewrite IH by (by apply subscribed_deliver).
  rewrite calls_to_deliver. destruct Hsub as (_ & _ & ->). by rewrite Hnil, app_nil_r.
Qed.

(** A [subscribe] call that is answered with an error leaves the registry
    as it found it, when the messages answer no other request. *)
Lemma failed_subscribe_registry event callback w before reply later :
  wf w = true →
  unanswered (before ++ reply :: later) w = true →
  let c := "subscribe -e " +:+ String.concat "," (eventsArr_of event) in
  Forall (λ m, is_reply c m = false) before →
  is_reply c reply = true → truthy (error reply) = true →
  _onMessageCallbacks
    (deliver_all later (deliver (deliver_all before (subscribe event callback w).2) reply))
  = _onMessageCallbacks w.
Proof.
  intros Hwf [Hq0 Hdeaf]%andb_prop c Hno Hyes Herr.
  apply bool_decide_eq_true in Hq0. rewrite forallb_forall in Hdeaf.
  destruct (subscribe_state event callback w Hwf) as [(Hw & Hoq & _ & _) _].
  fold c in Hw, Hoq.
  pose proof (subscribe_alone event callback w Hwf) as Hal.
  destruct (subscribe_shape event callback w) as [_ Hreg]. fold c in Hreg.
  assert (microtasks (subscribe event callback w).2 = []) as Hq
    by (by rewrite microtasks_subscribe).
  set (n := length (promises w)) in *. set (own := ReplyListener (closures w) c n) in *.
  assert (own ∉ _onMessageCallbacks w) as HR.
  { intros Hin. apply (wf_listener _ _ _ _ Hwf) in Hin. unfold n in Hin. lia. }
  assert (∀ m, In m before → forallb (deaf m) (_onMessageCallbacks w) = true) as Hd1
    by (intros m Hin; apply Hdeaf, in_or_app; by left).
  assert (forallb (deaf reply) (_onMessageCallbacks w) = true) as Hd2
    by (apply Hdeaf, in_or_app; right; by left).
  assert (∀ m, In m later → forallb (deaf m) (_onMessageCallbacks w) = true) as Hd3
    by (intros m Hin; apply Hdeaf, in_or_app; right; by right).
  clear Hdeaf.
  revert Hw Hal Hoq Hreg Hq. generalize (subscribe event callback w).2 as w1.
  unfold deliver_all.
  induction Hno as [|msg msgs Hmsg _ IH]; intros w1 Hw Hal Hoq Hreg Hq; simpl.
  - destruct (alone_deliver_error c _ _ _ HR _ _ reply w1 Hd2 Hyes Herr Hw Hal Hoq Hreg Hq)
      as [Hreg' Hq'].
    clear -HR Hreg' Hq' Hd3. revert Hreg' Hq' Hd3. generalize (deliver w1 reply) as w2.
    induction later as [|msg' msgs IH]; intros w2 Hreg Hq Hd3; simpl; [done|].
    destruct (idle_deliver _ msg' w2 (Hd3 msg' (or_introl eq_refl)) Hreg Hq).
    apply IH; [done..|]. intros m Hin. apply Hd3. by right.
  - destruct (alone_deliver_other c _ _ _ msg w1 (Hd1 msg (or_introl eq_refl)) Hmsg Hreg Hq)
      as (Hreg' & Hq' & Hp').
    apply IH; [|by apply waiting_deliver_other| | |done..].
    + intros m Hin. apply Hd1. by right.
    + intros j o p'. unfold origin_at. rewrite Hp'. apply Hal.
    + unfold origin_at. by rewrite Hp'.
Qed.

Lemma calls_subscribe event callback w :
  calls (trace (subscribe event callback w).2) = calls (trace w).
Proof.
  rewrite subscribe_eq. unfold set_promises. cbn [snd trace].
  rewrite sendAndWaitReply_eq. cbn [snd trace].
  rewrite calls_app. simpl. by rewrite app_nil_r.
Qed.

(** * The specification, property by property *)

(** C1: the socket is opened at [ws://localhost:<port>], where [<port>] is
    the [port] option when one is given and 6123 when the options or the
    port are left out.  For an integer port in the range JavaScript holds
    exactly, [<port>] is the decimal numeral of the port; any other number
    appears as JavaScript prints it.  [{port: 7000}] gives
    [ws://localhost:7000] and no options give [ws://localhost:6123].  A port
    of 0 or [NaN] counts as given. *)
Theorem C1_socket_endpoint z (bound : safe z = true) text :
  (∃ s, _socket (new_GwmClient (Some {| port := Some (Integer z bound) |}))
        = "ws://localhost:" +:+ s
        ∧ decimal_of z s)
  ∧ _socket (new_GwmClient (Some {| port := Some (OtherNumber text) |}))
    = "ws://localhost:" +:+ text
  ∧ _socket (new_GwmClient (Some {| port := Some NaN |})) = "ws://localhost:NaN"
  ∧ _socket (new_GwmClient (Some {| port := Some (Infinity false) |}))
    = "ws://localhost:Infinity"
  ∧ _socket (new_GwmClient (Some {| port := Some (Infinity true) |}))
    = "ws://localhost:-Infinity"
  ∧ _socket (new_GwmClient (Some {| port := None |})) = "ws://localhost:6123"
  ∧ _socket (new_GwmClient None) = "ws://localhost:6123"
  ∧ _socket (new_GwmClient (Some {| port := Some (Integer 7000 eq_refl) |}))
    = "ws://localhost:7000"
  ∧ _socket (new_GwmClient (Some {| port := Some (Integer 0 eq_refl) |}))
    = "ws://localhost:0".
Proof.
  split; [|repeat split].
  exists (render (Integer z bound)). split; [reflexivity|apply render_decimal].
Qed.

Lemma C1_socket_endpoint_witness :
  safe 8080 = true
  ∧ _socket (new_GwmClient (Some {| port := Some (Integer 8080 eq_refl) |}))
    = "ws://localhost:8080"
  ∧ decimal_of 8080 "8080"
  ∧ _socket (new_GwmClient (Some {| port := Some (OtherNumber "1e+21") |}))
    = "ws://localhost:1e+21".
Proof.
  destruct (C1_socket_endpoint 8080 eq_refl "1e+21") as ((s & Hs & Hd) & Ht & _).
  assert (s = "8080") as -> by (vm_compute in Hs; by injection Hs as <-).
  split; [reflexivity|]. split; [reflexivity|]. split; [exact Hd|exact Ht].
Defined.

(** C2, as stated: the temporary listener is registered before the command
    goes out.  On a fresh client asking for the monitors, the log shows the
    opposite order. *)
Lemma C2_register_then_send_fails :
  let w := (sendAndWaitReply "monitors" (new_GwmClient None)).2 in
  trace w = [ESend "monitors"; ERegister OnMessage (ReplyListener 0 "monitors" 0)]
  ∧ ¬ ∃ l, precedes (ERegister OnMessage l) (ESend "monitors") (trace w).
Proof.
  split; [reflexivity|].
  intros (l & t1 & t2 & t3 & H). simpl in H.
  destruct t1 as [|e1 [|e2 [|e3 t1]]]; simplify_eq/=.
  destruct t2 as [|? [|? ?]]; simplify_eq/=.
Qed.

(** C2, amended: [sendAndWaitReply c] first sends [c], then registers the
    temporary listener; every later inbound message is checked for kind
    [client_response] and [clientMessage] equal to [c]: as long as none
    matches the promise stays pending and the listener registered, and on the
    first match the promise is fulfilled with that message and the listener
    unregistered. *)
Theorem C2_send_then_register c w msgs msg :
  wf w = true →
  Forall (λ m, is_reply c m = false) msgs →
  let l := ReplyListener (closures w) c (length (promises w)) in
  let p := (sendAndWaitReply c w).1 in
  let w1 := (sendAndWaitReply c w).2 in
  let w2 := deliver_all msgs w1 in
  trace w1 = trace w ++ [ESend c; ERegister OnMessage l]
  ∧ precedes (ESend c) (ERegister OnMessage l) (trace w1)
  ∧ outcome p w2 = Pending ∧ l ∈ _onMessageCallbacks w2
  ∧ (is_reply c msg = true →
     outcome p (deliver w2 msg) = Fulfilled (VMessage msg)
     ∧ l ∉ _onMessageCallbacks (deliver w2 msg))
  ∧ (is_reply c msg = false →
     outcome p (deliver w2 msg) = Pending
     ∧ l ∈ _onMessageCallbacks (deliver w2 msg)).
Proof.
  intros Hwf Hno l p w1 w2.
  pose proof (sendAndWaitReply_waiting c w Hwf) as Hw. fold w1 in Hw.
  assert (p = S (S (length (promises w)))) as Hp
    by (unfold p; by rewrite sendAndWaitReply_eq).
  assert (trace w1 = trace w ++ [ESend c; ERegister OnMessage l]) as Ht
    by (unfold w1; by rewrite sendAndWaitReply_eq).
  assert (waiting c (closures w) (length (promises w)) w2) as Hw2.
  { pose proof (waiting_deliver_all c _ _ msgs w1 Hw) as H.
    assert (List.find (is_reply c) msgs = None) as Hnone.
    { clear -Hno. induction Hno as [|m ms Hm _ IH]; simpl; [done|]. by rewrite Hm. }
    by rewrite Hnone in H. }
  split; [done|]. split; [rewrite Ht; by exists (trace w), [], []|].
  rewrite Hp. split; [apply Hw2|]. split; [apply Hw2|]. split.
  - intros Hyes. by apply (replied_deliver_reply c).
  - intros Hc. pose proof (waiting_deliver_other c _ _ msg w2 Hc Hw2) as H.
    split; apply H.
Qed.

Lemma C2_send_then_register_witness :
  let w := new_GwmClient None in
  let msg := {| messageType := "client_response"; clientMessage := Some "monitors";
                error := None; data := {| type := None; fields := 0 |} |} in
  let other := {| messageType := "subscribed_event"; clientMessage := None;
                  error := None; data := {| type := Some "focus"; fields := 1 |} |} in
  wf w = true ∧ Forall (λ m, is_reply "monitors" m = false) [other] ∧
  outcome 2 (deliver (deliver_all [other] (sendAndWaitReply "monitors" w).2) msg)
  = Fulfilled (VMessage msg).
Proof.
  intros w msg other.
  assert (wf w = true) as Hwf by reflexivity.
  assert (Forall (λ m, is_reply "monitors" m = false) [other]) as Hno
    by (repeat constructor).
  split; [exact Hwf|]. split; [exact Hno|].
  apply (C2_send_then_register "monitors" w [other] msg Hwf Hno). reflexivity.
Defined.

(** C3, as stated: the message-listener registry has the same size before
    the call and after the round trip.  With a request for the workspaces
    already in flight, a request for the windows is made and both replies
    arrive: the call finds one listener registered and the completed round
    trip leaves none. *)
Lemma C3_registry_size_differs :
  let reply c := {| messageType := "client_response"; clientMessage := Some c;
                    error := None; data := {| type := None; fields := 0 |} |} in
  let w := (sendAndWaitReply "workspaces" (new_GwmClient None)).2 in
  let p := (sendAndWaitReply "windows" w).1 in
  let w2 := deliver_all [reply "workspaces"; reply "windows"] (sendAndWaitReply "windows" w).2 in
  wf w = true
  ∧ outcome p w2 = Fulfilled (VMessage (reply "windows"))
  ∧ length (_onMessageCallbacks w) = 1
  ∧ length (_onMessageCallbacks w2) = 0
  ∧ length (_onMessageCallbacks w2) ≠ length (_onMessageCallbacks w).
Proof.
  intros reply w p w2.
  assert (length (_onMessageCallbacks w) = 1) as H1 by reflexivity.
  assert (length (_onMessageCallbacks w2) = 0) as H2 by (vm_compute; reflexivity).
  split; [reflexivity|]. split; [vm_compute; reflexivity|].
  split; [exact H1|]. split; [exact H2|].
  rewrite H1, H2. discriminate.
Qed.

(** C3, amended: for every command [c] and every sequence of inbound
    messages, [sendAndWaitReply c] resolves to the first inbound message
    whose kind is [client_response] and whose [clientMessage] field equals
    [c]; it is pending, with its temporary listener registered, as long as
    no such message has arrived; after resolution the temporary listener has
    been removed; and when none of the messages answers another request that
    is in flight at the call (in particular when no other request is in
    flight), the message-listener registry is the same, so of the same size,
    before the call and after the round trip completes. *)
Theorem C3_resolves_to_first_reply c w before msg after :
  wf w = true →
  Forall (λ m, ¬ answers c m) before →
  answers c msg →
  let l := ReplyListener (closures w) c (length (promises w)) in
  let p := (sendAndWaitReply c w).1 in
  let w1 := (sendAndWaitReply c w).2 in
  let w2 := deliver_all (before ++ msg :: after) w1 in
  outcome p (deliver_all before w1) = Pending
  ∧ l ∈ _onMessageCallbacks (deliver_all before w1)
  ∧ outcome p w2 = Fulfilled (VMessage msg)
  ∧ (l ∉ _onMessageCallbacks w2)
  ∧ (unanswered (before ++ msg :: after) w = true →
     _onMessageCallbacks w2 = _onMessageCallbacks w
     ∧ length (_onMessageCallbacks w2) = length (_onMessageCallbacks w))
  ∧ (idle w = true → unanswered (before ++ msg :: after) w = true).
Proof.
  intros Hwf Hb Hm l p w1 w2.
  pose proof (sendAndWaitReply_waiting c w Hwf) as Hw.
  assert (p = S (S (length (promises w)))) as ->
    by (unfold p; by rewrite sendAndWaitReply_eq).
  pose proof (waiting_deliver_all c _ _ before _ Hw) as H1.
  rewrite (find_no_reply c before Hb) in H1.
  pose proof (waiting_deliver_all c _ _ (before ++ msg :: after) _ Hw) as H2.
  rewrite (find_first_reply c before msg after Hb Hm) in H2.
  pose proof (round_trip_registry c w (before ++ msg :: after) Hwf) as Hreg.
  rewrite (find_first_reply c before msg after Hb Hm) in Hreg.
  destruct H1 as (_ & _ & _ & Hp & Hl & _). destruct H2 as [Hp2 Hl2].
  split; [exact Hp|]. split; [exact Hl|]. split; [exact Hp2|]. split; [exact Hl2|].
  split; [|apply idle_unanswered].
  intros Hun. unfold w2, w1. by rewrite Hreg.
Qed.

Lemma C3_resolves_to_first_reply_witness :
  let w := (sendAndWaitReply "workspaces" (new_GwmClient None)).2 in
  let msg n := {| messageType := "client_response"; clientMessage := Some "windows";
                  error := None; data := {| type := None; fields := n |} |} in
  let echo := {| messageType := "subscribed_event"; clientMessage := Some "windows";
                 error := None; data := {| type := Some "focus"; fields := 0 |} |} in
  let other := {| messageType := "client_response"; clientMessage := Some "monitors";
                  error := None; data := {| type := None; fields := 0 |} |} in
  let w1 := (sendAndWaitReply "windows" w).2 in
  let w2 := deliver_all ([echo; other] ++ msg 1 :: [msg 2]) w1 in
  wf w = true ∧ idle w = false ∧
  unanswered ([echo; other] ++ msg 1 :: [msg 2]) w = true ∧
  Forall (λ m, ¬ answers "windows" m) [echo; other] ∧ answers "windows" (msg 1) ∧
  outcome (sendAndWaitReply "windows" w).1 (deliver_all [echo; other] w1) = Pending ∧
  outcome (sendAndWaitReply "windows" w).1 w2 = Fulfilled (VMessage (msg 1)) ∧
  _onMessageCallbacks w2 = _onMessageCallbacks w ∧
  _onMessageCallbacks w = [ReplyListener 0 "workspaces" 0].
Proof.
  intros w msg echo other w1 w2.
  assert (wf w = true) as Hwf by reflexivity.
  assert (unanswered ([echo; other] ++ msg 1 :: [msg 2]) w = true) as Hun by reflexivity.
  assert (Forall (λ m, ¬ answers "windows" m) [echo; other]) as Hb
    by (repeat constructor; intros [H1 H2]; discriminate).
  assert (answers "windows" (msg 1)) as Hm by (split; reflexivity).
  split; [exact Hwf|]. split; [reflexivity|]. split; [exact Hun|].
  split; [exact Hb|]. split; [exact Hm|].
  destruct (C3_resolves_to_first_reply "windows" w [echo; other] (msg 1) [msg 2] Hwf Hb Hm)
    as (H1 & _ & H2 & _ & H3 & _).
  split; [exact H1|]. split; [exact H2|]. split; [apply H3; exact Hun|reflexivity].
Defined.

(** C4: two requests in flight with distinct commands are each resolved by
    the first reply to their own command, in whichever order the replies
    arrive; in particular when the reply to the second request comes first. *)
Theorem C4_concurrent_requests c1 c2 r1 r2 w :
  wf w = true →
  c1 ≠ c2 →
  is_reply c1 r1 = true →
  is_reply c2 r2 = true →
  let pa := (sendAndWaitReply c1 w).1 in
  let wa := (sendAndWaitReply c1 w).2 in
  let pb := (sendAndWaitReply c2 wa).1 in
  let wb := (sendAndWaitReply c2 wa).2 in
  (∀ msgs, outcome pa (deliver_all msgs wb) = first_reply c1 msgs
           ∧ outcome pb (deliver_all msgs wb) = first_reply c2 msgs)
  ∧ outcome pa (deliver_all [r2; r1] wb) = Fulfilled (VMessage r1)
  ∧ outcome pb (deliver_all [r2; r1] wb) = Fulfilled (VMessage r2)
  ∧ outcome pa (deliver_all [r1; r2] wb) = Fulfilled (VMessage r1)
  ∧ outcome pb (deliver_all [r1; r2] wb) = Fulfilled (VMessage r2).
Proof.
  intros Hwf Hne Hr1 Hr2 pa wa pb wb.
  pose proof (sendAndWaitReply_waiting c1 w Hwf) as Hwa. fold wa in Hwa.
  pose proof (wf_sendAndWaitReply c1 w Hwf) as Hwfa. fold wa in Hwfa.
  pose proof (sendAndWaitReply_waiting c2 wa Hwfa) as Hwb. fold wb in Hwb.
  apply (waiting_sendAndWaitReply _ _ _ c2) in Hwa. fold wb in Hwa.
  assert (pa = S (S (length (promises w)))) as ->
    by (unfold pa; by rewrite sendAndWaitReply_eq).
  assert (pb = S (S (length (promises wa)))) as ->
    by (unfold pb; by rewrite sendAndWaitReply_eq).
  assert (∀ msgs,
    outcome (S (S (length (promises w)))) (deliver_all msgs wb) = first_reply c1 msgs
    ∧ outcome (S (S (length (promises wa)))) (deliver_all msgs wb) = first_reply c2 msgs)
    as Hall.
  { intros msgs. split; by eapply outcome_first_reply. }
  assert (is_reply c1 r2 = false) as H12.
  { unfold is_reply in *. apply andb_prop in Hr2 as [_ Hc].
    apply bool_decide_eq_true in Hc.
    apply andb_false_intro2, bool_decide_eq_false.
    rewrite Hc. intros [= Heq]. by apply Hne. }
  assert (is_reply c2 r1 = false) as H21.
  { unfold is_reply in *. apply andb_prop in Hr1 as [_ Hc].
    apply bool_decide_eq_true in Hc.
    apply andb_false_intro2, bool_decide_eq_false.
    rewrite Hc. intros [= Heq]. by apply Hne. }
  split; [done|].
  destruct (Hall [r2; r1]) as [-> ->]. destruct (Hall [r1; r2]) as [-> ->].
  unfold first_reply. simpl. by rewrite Hr1, Hr2, H12, H21.
Qed.

Lemma C4_concurrent_requests_witness :
  let w := new_GwmClient None in
  let r1 := {| messageType := "client_response"; clientMessage := Some "monitors";
               error := None; data := {| type := None; fields := 1 |} |} in
  let r2 := {| messageType := "client_response"; clientMessage := Some "windows";
               error := None; data := {| type := None; fields := 2 |} |} in
  let wb := (sendAndWaitReply "windows" (sendAndWaitReply "monitors" w).2).2 in
  wf w = true ∧ "monitors" ≠ "windows" ∧
  is_reply "monitors" r1 = true ∧ is_reply "windows" r2 = true ∧
  outcome 2 (deliver_all [r2; r1] wb) = Fulfilled (VMessage r1) ∧
  outcome 5 (deliver_all [r2; r1] wb) = Fulfilled (VMessage r2).
Proof.
  intros w r1 r2 wb.
  assert (wf w = true) as Hwf by reflexivity.
  assert ("monitors" ≠ "windows") as Hne by discriminate.
  assert (is_reply "monitors" r1 = true) as H1 by reflexivity.
  assert (is_reply "windows" r2 = true) as H2 by reflexivity.
  do 4 (split; [assumption|]).
  pose proof (C4_concurrent_requests "monitors" "windows" r1 r2 w Hwf Hne H1 H2) as H.
  split; apply H.
Defined.

(** C5: a call of [sendAndWaitReply] adds exactly one listener to the
    registry, and that listener is taken out again whenever the promise is
    settled: the [finally] reaction does it for every outcome of the inner
    promise, fulfilment or rejection alike, and hands the outcome on to the
    returned promise; so in no state reached by inbound messages is the
    returned promise settled with the listener still registered. *)
Theorem C5_listener_cleanup c w :
  wf w = true →
  let n := length (promises w) in
  let l := ReplyListener (closures w) c n in
  let p := (sendAndWaitReply c w).1 in
  let w1 := (sendAndWaitReply c w).2 in
  _onMessageCallbacks w1 = _onMessageCallbacks w ++ [l]
  ∧ (l ∉ _onMessageCallbacks w)
  ∧ origin_at (S n) w1 = Some (Finally n {| registry := OnMessage; dropped := l |})
  ∧ (∀ out, settled out = true →
       outcome p (runMicrotasks (settle n out w1)) = out
       ∧ l ∉ _onMessageCallbacks (runMicrotasks (settle n out w1)))
  ∧ (∀ msgs, outcome p (deliver_all msgs w1) ≠ Pending →
       l ∉ _onMessageCallbacks (deliver_all msgs w1)).
Proof.
  intros Hwf n l p w1.
  pose proof (sendAndWaitReply_waiting c w Hwf) as Hw. fold w1 n in Hw.
  assert (p = S (S n)) as -> by (unfold p; by rewrite sendAndWaitReply_eq).
  split; [unfold w1; by rewrite sendAndWaitReply_eq|].
  split.
  { intros Hin. apply (wf_listener _ _ _ _ Hwf) in Hin. lia. }
  split; [apply Hw|].
  split.
  - intros out Hout.
    by apply (settling_runMicrotasks c (closures w) n), waiting_settle.
  - intros msgs Hs. pose proof (waiting_deliver_all c _ _ msgs w1 Hw) as H.
    destruct (List.find (is_reply c) msgs); [apply H|].
    destruct H as (_ & _ & _ & Hp3 & _). done.
Qed.

Lemma C5_listener_cleanup_witness :
  let w := new_GwmClient None in
  let w1 := (sendAndWaitReply "workspaces" w).2 in
  wf w = true ∧
  _onMessageCallbacks w1 = [ReplyListener 0 "workspaces" 0] ∧
  outcome 2 (runMicrotasks (settle 0 (Rejected "lost") w1)) = Rejected "lost" ∧
  ReplyListener 0 "workspaces" 0
    ∉ _onMessageCallbacks (runMicrotasks (settle 0 (Rejected "lost") w1)).
Proof.
  intros w w1.
  assert (wf w = true) as Hwf by reflexivity.
  split; [exact Hwf|].
  destruct (C5_listener_cleanup "workspaces" w Hwf) as (H1 & _ & _ & H2 & _).
  split; [exact H1|]. apply (H2 (Rejected "lost")). reflexivity.
Defined.

Lemma elem_of_fired_concat x a l :
  x ∈ concat (fired a <$> l) ↔ ∃ cb, cb ∈ l ∧ x ∈ fired a cb.
Proof.
  induction l as [|cb l IH]; simpl.
  - split; [by intros ?%elem_of_nil|]. intros (cb & Hin & _). by apply elem_of_nil in Hin.
  - rewrite elem_of_app, IH. split.
    + intros [Hx|(cb' & Hin & Hx)]; [exists cb; split; [by left|done]|].
      exists cb'. split; [by right|done].
    + intros (cb' & Hin & Hx). apply elem_of_cons in Hin as [->|Hin]; [by left|].
      right. by exists cb'.
Qed.

Lemma fired_uses f a a' cb : (f, a') ∈ fired a cb → uses f cb = true.
Proof.
  destruct cb as [g|id c p|id evs g]; simpl.
  - intros [= -> _]%list_elem_of_singleton. by apply bool_decide_eq_true.
  - by intros ?%elem_of_nil.
  - destruct a; try by intros ?%elem_of_nil.
    destruct (is_event evs m); [|by intros ?%elem_of_nil].
    intros [= -> _]%list_elem_of_singleton. by apply bool_decide_eq_true.
Qed.

Lemma fired_message f a msg cb : (f, AMessage msg) ∈ fired a cb → cb = UserFn f.
Proof.
  destruct cb as [g|id c p|id evs g]; simpl.
  - by intros [= -> _]%list_elem_of_singleton.
  - by intros ?%elem_of_nil.
  - destruct a; try by intros ?%elem_of_nil.
    destruct (is_event evs m); [|by intros ?%elem_of_nil].
    by intros [=]%list_elem_of_singleton.
Qed.

Lemma callbacks_listen r cb w : callbacks r (listen r cb w).2 = callbacks r w ++ [cb].
Proof. by destruct r. Qed.

Lemma callbacks_unlisten_same r u w :
  registry u = r →
  callbacks r (unlisten u w) = filter (λ cb, cb ≠ dropped u) (callbacks r w).
Proof. intros <-. unfold unlisten. by destruct (registry u). Qed.

Lemma callbacks_unlisten_other r u w :
  r ≠ registry u → callbacks r (unlisten u w) = callbacks r w.
Proof. unfold unlisten. by destruct r, (registry u). Qed.

Lemma filter_idemp (x : Callback) (l : list Callback) :
  filter (λ cb, cb ≠ x) (filter (λ cb, cb ≠ x) l) = filter (λ cb, cb ≠ x) l.
Proof.
  induction l as [|cb l IH]; [done|].
  rewrite filter_cons. case_decide; [|done].
  rewrite filter_cons. case_decide; [|done]. by rewrite IH.
Qed.

(** C8: invoking the handle returned by [onMessage f] takes [f] out of the
    message registry, so that a later inbound message is not handed to [f]
    (and [f] is not called at all unless a subscription listener of the
    registry calls it); invoking the handle a second time changes no
    registry and nothing else of the state but the log. *)
Theorem C8_unlisten_removes_listener f w msg :
  let u := (onMessage (UserFn f) w).1 in
  let w1 := (onMessage (UserFn f) w).2 in
  let w2 := unlisten u w1 in
  let new := concat (fired (AMessage msg) <$> _onMessageCallbacks w2) in
  UserFn f ∈ _onMessageCallbacks w1
  ∧ (UserFn f ∉ _onMessageCallbacks w2)
  ∧ calls (trace (deliver w2 msg)) = calls (trace w2) ++ new
  ∧ ((f, AMessage msg) ∉ new)
  ∧ ((∀ id eventsArr, EventListener id eventsArr f ∉ _onMessageCallbacks w) →
     ∀ a, (f, a) ∉ new)
  ∧ (∀ r, callbacks r (unlisten u w2) = callbacks r w2)
  ∧ promises (unlisten u w2) = promises w2
  ∧ microtasks (unlisten u w2) = microtasks w2.
Proof.
  intros u w1 w2 new.
  assert (_onMessageCallbacks w2 =
          filter (λ cb, cb ≠ UserFn f) (_onMessageCallbacks w ++ [UserFn f])) as Hreg
    by done.
  split; [apply elem_of_app; right; by left|].
  split; [rewrite Hreg, list_elem_of_filter; tauto|].
  split; [apply calls_deliver|].
  split.
  { unfold new. rewrite elem_of_fired_concat. intros (cb & Hin & Hx).
    apply fired_message in Hx as ->. rewrite Hreg, list_elem_of_filter in Hin. tauto. }
  split.
  { intros Hfree a. unfold new. rewrite elem_of_fired_concat. intros (cb & Hin & Hx).
    apply fired_uses in Hx. rewrite Hreg, list_elem_of_filter in Hin.
    destruct Hin as [Hne Hin]. apply elem_of_app in Hin as [Hin|Hin].
    - destruct cb as [g|id c p|id evs g]; simpl in Hx; [|done|].
      + apply bool_decide_eq_true in Hx as ->. done.
      + apply bool_decide_eq_true in Hx as ->. by apply Hfree in Hin.
    - by apply list_elem_of_singleton in Hin. }
  split; [|done].
  intros r. destruct (decide (r = OnMessage)) as [->|Hr].
  - change (callbacks OnMessage (unlisten u w2))
      with (filter (λ cb, cb ≠ UserFn f) (_onMessageCallbacks w2)).
    change (callbacks OnMessage w2) with (_onMessageCallbacks w2).
    rewrite Hreg. apply filter_idemp.
  - by destruct r.
Qed.

(** C9: [close()] calls the transport's [close] and nothing else: the four
    registries, the promises and the job queue are untouched, so no pending
    request is settled. *)
Theorem C9_close_leaves_state w :
  trace (close w) = trace w ++ [EClose]
  ∧ (∀ r, callbacks r (close w) = callbacks r w)
  ∧ promises (close w) = promises w
  ∧ microtasks (close w) = microtasks w
  ∧ (∀ p, outcome p (close w) = outcome p w)
  ∧ (∀ c id p, waiting c id p w → waiting c id p (close w)).
Proof.
  split; [done|]. split; [by intros []|]. do 3 (split; [done|]).
  intros c id p Hw. exact Hw.
Qed.

(** C10: when the same callback is registered several times, the handle of
    any one registration removes every occurrence: after two registrations of
    [f] in a registry, either handle leaves the registry without [f], that
    is, as the registry was before with all earlier copies of [f] dropped
    too.  This holds for each of [onMessage], [onConnect], [onDisconnect] and
    [onError]. *)
Theorem C10_unlisten_removes_all_copies on r f w :
  (on, r) ∈ [(onMessage, OnMessage); (onConnect, OnConnect);
             (onDisconnect, OnDisconnect); (onError, OnError)] →
  let u1 := (on f w).1 in
  let w1 := (on f w).2 in
  let u2 := (on f w1).1 in
  let w2 := (on f w1).2 in
  callbacks r w2 = callbacks r w ++ [f; f]
  ∧ (∀ u, u = u1 ∨ u = u2 →
       (f ∉ callbacks r (unlisten u w2))
       ∧ callbacks r (unlisten u w2) = filter (λ cb, cb ≠ f) (callbacks r w)).
Proof.
  intros Hon.
  assert (on = listen r) as ->.
  { repeat (apply elem_of_cons in Hon as [[= -> ->]|Hon]; [done|]).
    by apply elem_of_nil in Hon. }
  intros u1 w1 u2 w2.
  assert (callbacks r w2 = callbacks r w ++ [f; f]) as Hreg.
  { unfold w2, w1. rewrite !callbacks_listen, <- app_assoc. done. }
  split; [done|].
  assert (callbacks r (unlisten u1 w2) = filter (λ cb, cb ≠ f) (callbacks r w)) as Hrem.
  { rewrite (callbacks_unlisten_same r u1 w2) by done. simpl. rewrite Hreg.
    rewrite filter_app, !filter_cons, filter_nil.
    case_decide; [done|]. by rewrite app_nil_r. }
  assert (u2 = u1) as Hu by done.
  intros u Hcase. assert (u = u1) as -> by (destruct Hcase; congruence).
  split; [rewrite Hrem, list_elem_of_filter; tauto|exact Hrem].
Qed.

Lemma C10_unlisten_removes_all_copies_witness :
  let w := (onError (UserFn 7) (onError (UserFn 3) (new_GwmClient None)).2).2 in
  let w2 := (onError (UserFn 7) (onError (UserFn 7) w).2).2 in
  let u1 := (onError (UserFn 7) w).1 in
  _onErrorCallbacks w2 = [UserFn 3; UserFn 7; UserFn 7; UserFn 7] ∧
  _onErrorCallbacks (unlisten u1 w2) = [UserFn 3].
Proof.
  intros w w2 u1.
  assert ((onError, OnError) ∈ [(onMessage, OnMessage); (onConnect, OnConnect);
                                (onDisconnect, OnDisconnect); (onError, OnError)]) as Hon
    by (do 3 right; left).
  destruct (C10_unlisten_removes_all_copies onError OnError (UserFn 7) w Hon) as [H1 H2].
  split; [exact H1|]. destruct (H2 u1) as [_ H3]; [by left|]. exact H3.
Defined.

(** C6, as stated: after a [subscribe(event, cb)] call whose reply carries
    an error, no subsequent inbound message invokes [cb].  With [cb]
    already subscribed to [focus], a second call for [bogus] is answered
    with an error and is rejected; the next [focus] event still calls
    [cb]. *)
Lemma C6_callback_still_invoked :
  let ok := {| messageType := "client_response";
               clientMessage := Some "subscribe -e focus";
               error := None; data := {| type := None; fields := 0 |} |} in
  let bad := {| messageType := "client_response";
                clientMessage := Some "subscribe -e bogus";
                error := Some "bad event"; data := {| type := None; fields := 0 |} |} in
  let ev := {| messageType := "subscribed_event"; clientMessage := None;
               error := None; data := {| type := Some "focus"; fields := 1 |} |} in
  let w := deliver (subscribe (inl "focus") 5 (new_GwmClient None)).2 ok in
  let q := (subscribe (inl "bogus") 5 w).1 in
  let w2 := deliver (subscribe (inl "bogus") 5 w).2 bad in
  wf w = true
  ∧ outcome q w2 = Rejected "Failed to subscribe to event 'bogus': bad event"
  ∧ _onMessageCallbacks w2 = _onMessageCallbacks w
  ∧ calls (trace w2) = []
  ∧ calls (trace (deliver w2 ev)) = [(5, AData (data ev))]
  ∧ calls_to 5 (calls (trace (deliver w2 ev))) ≠ calls_to 5 (calls (trace w2)).
Proof.
  intros ok bad ev w q w2.
  split; [vm_compute; reflexivity|]. split; [vm_compute; reflexivity|].
  split; [vm_compute; reflexivity|]. split; [vm_compute; reflexivity|].
  split; [vm_compute; reflexivity|].
  intros H. vm_compute in H. discriminate H.
Qed.

(** C6, amended: [subscribe(event, cb)] sends the command naming the
    requested tags (the tag itself for a single tag, the tags joined by
    commas for an array).  When the reply to that command carries a
    non-empty [error], the promise returned by [subscribe] is rejected, in
    every state of the client, with a failure that names the requested tags
    and the server's error text, and it stays rejected; the continuation of
    the call registers nothing, and when the messages answer no other
    request the registry is afterwards what it was before the call.  When
    [cb] is free at the call (no message
    listener calls it and no other [subscribe] with it is under way; failed
    earlier calls do not count), no listener calling [cb] exists afterwards,
    no inbound message, before or after the reply, leads to a call of [cb],
    and [cb] is free again, so that the call can be repeated. *)
Theorem C6_subscribe_rejected event callback w before reply e later :
  wf w = true →
  let tags := match event with inl tag => [tag] | inr tags => tags end in
  let c := "subscribe -e " +:+ String.concat "," tags in
  Forall (λ m, ¬ answers c m) before →
  answers c reply →
  error reply = Some e →
  e ≠ "" →
  let q := (subscribe event callback w).1 in
  let w1 := (subscribe event callback w).2 in
  let w2 := deliver (deliver_all before w1) reply in
  let w3 := deliver_all later w2 in
  let failure :=
    Rejected ("Failed to subscribe to event '" +:+ String.concat "," tags
              +:+ "': " +:+ e) in
  trace w1 = trace w ++ [ESend c; ERegister OnMessage
                                    (ReplyListener (closures w) c (length (promises w)))]
  ∧ outcome q (deliver_all before w1) = Pending
  ∧ outcome q w2 = failure
  ∧ outcome q w3 = failure
  ∧ (∀ w', _onMessageCallbacks (subscribe_resume tags callback (VMessage reply) q w')
           = _onMessageCallbacks w'
           ∧ trace (subscribe_resume tags callback (VMessage reply) q w') = trace w')
  ∧ (unanswered (before ++ reply :: later) w = true →
     _onMessageCallbacks w3 = _onMessageCallbacks w)
  ∧ (free callback w = true →
     List.filter (uses callback) (_onMessageCallbacks w3) = []
     ∧ (∀ id evs, EventListener id evs callback ∉ _onMessageCallbacks w3)
     ∧ calls_to callback (calls (trace w3)) = calls_to callback (calls (trace w))
     ∧ free callback w3 = true).
Proof.
  intros Hwf tags.
  assert (tags = eventsArr_of event) as Htags by (by destruct event).
  clearbody tags. subst tags. set (eventsArr := eventsArr_of event).
  intros c Hb Hm He Hne q w1 w2 w3 failure.
  pose proof (no_reply_answers c before Hb) as Hno.
  pose proof (proj2 (is_reply_answers c reply) Hm) as Hyes.
  destruct (subscribe_state event callback w Hwf) as [Hsus Haw].
  fold eventsArr c w1 in Hsus, Haw.
  assert (q = S (S (S (length (promises w))))) as Hq
    by (unfold q; by rewrite subscribe_eq).
  rewrite <- Hq in Hsus, Haw.
  assert (∀ k, subscribe_result eventsArr callback (Fulfilled (VMessage reply)) k
               = (failure, [])) as Hres.
  { intros k. unfold subscribe_result, subscribe_failure, failure. simpl. rewrite He. simpl.
    by rewrite bool_decide_eq_false_2. }
  pose proof (suspended_deliver_all _ _ _ _ _ _ before w1 Hno Hsus) as Hsus1.
  destruct (suspended_deliver_reply _ _ _ _ _ _ reply _ Hyes Hsus1) as [k0 Hout].
  rewrite Hres in Hout. fold w2 in Hout. simpl in Hout.
  split.
  { unfold w1. rewrite subscribe_eq. unfold set_promises. cbn [snd trace].
    by rewrite sendAndWaitReply_eq. }
  split; [apply Hsus1|]. split; [exact Hout|]. split.
  { unfold w3. rewrite outcome_deliver_all_settled; by rewrite Hout. }
  split.
  { intros w'. unfold subscribe_resume. simpl. rewrite He. simpl.
    rewrite bool_decide_eq_false_2 by done. simpl.
    by rewrite callbacks_settle, trace_settle. }
  split.
  { intros Hun. apply failed_subscribe_registry; try done.
    rewrite He. simpl. by rewrite bool_decide_eq_false_2. }
  intros Hfree. specialize (Haw Hfree).
  destruct (awaiting_deliver_all _ _ _ _ _ _ before w1 Hno Haw) as [Ha1 Hc1].
  destruct (awaiting_deliver_reply _ _ _ _ _ _ reply _ Hyes Ha1) as [k Hsub].
  fold w2 in Hsub. rewrite Hres in Hsub.
  assert (subscribed q (S (S (length (promises w)))) eventsArr callback (failure, []) w3)
    as Hsub3 by (by apply subscribed_deliver_all).
  assert (List.filter (uses callback) (_onMessageCallbacks w3) = []) as Hnone
    by apply Hsub3.
  split; [done|]. split.
  - intros id evs Hin.
    assert (EventListener id evs callback
            ∈ List.filter (uses callback) (_onMessageCallbacks w3)) as Hin'.
    { apply list_elem_of_In, List.filter_In. split; [by apply list_elem_of_In|].
      simpl. by apply bool_decide_eq_true. }
    rewrite Hnone in Hin'. by apply elem_of_nil in Hin'.
  - split.
    + unfold w3. rewrite (subscribed_calls q _ eventsArr callback (failure, [])) by done.
      unfold w2. rewrite calls_to_deliver.
      destruct Ha1 as (_ & _ & _ & -> & _). rewrite app_nil_r, Hc1.
      unfold w1. by rewrite calls_subscribe.
    + apply free_intro; [done|]. intros j p' evs' Hj.
      destruct Hsub3 as ((_ & Hone & _) & Hq3 & _).
      destruct (Hone _ _ _ Hj) as [->|?]; [|done]. by rewrite Hq3.
Qed.

Lemma C6_subscribe_rejected_witness :
  let bad := {| messageType := "client_response";
                clientMessage := Some "subscribe -e focus";
                error := Some "bad event"; data := {| type := None; fields := 0 |} |} in
  let ev := {| messageType := "subscribed_event"; clientMessage := None;
               error := None; data := {| type := Some "focus"; fields := 1 |} |} in
  let echo := {| messageType := "subscribed_event";
                 clientMessage := Some "subscribe -e focus";
                 error := Some "bad event"; data := {| type := Some "focus"; fields := 2 |} |} in
  let w := deliver (subscribe (inl "focus") 5 (new_GwmClient None)).2 bad in
  let q := (subscribe (inl "focus") 5 w).1 in
  let w1 := (subscribe (inl "focus") 5 w).2 in
  let w3 := deliver_all [ev] (deliver (deliver_all [ev; echo] w1) bad) in
  wf w = true ∧ free 5 w = true ∧ unused 5 w = false ∧
  unanswered ([ev; echo] ++ bad :: [ev]) w = true ∧
  _onMessageCallbacks w3 = _onMessageCallbacks w ∧
  Forall (λ m, ¬ answers "subscribe -e focus" m) [ev; echo] ∧
  answers "subscribe -e focus" bad ∧
  trace w1 = trace w ++ [ESend "subscribe -e focus";
                         ERegister OnMessage (ReplyListener 1 "subscribe -e focus" 4)] ∧
  outcome q (deliver_all [ev; echo] w1) = Pending ∧
  outcome q w3 = Rejected "Failed to subscribe to event 'focus': bad event" ∧
  List.filter (uses 5) (_onMessageCallbacks w3) = [] ∧
  calls_to 5 (calls (trace w3)) = [].
Proof.
  intros bad ev echo w q w1 w3.
  assert (wf w = true) as Hwf by (vm_compute; reflexivity).
  assert (free 5 w = true) as Hfree by (vm_compute; reflexivity).
  assert (unused 5 w = false) as Hun by (vm_compute; reflexivity).
  assert (Forall (λ m, ¬ answers "subscribe -e focus" m) [ev; echo]) as Hb
    by (repeat constructor; intros [H1 H2]; discriminate).
  assert (answers "subscribe -e focus" bad) as Hm by (split; reflexivity).
  assert (error bad = Some "bad event") as He by reflexivity.
  assert ("bad event" ≠ "") as Hne by discriminate.
  assert (unanswered ([ev; echo] ++ bad :: [ev]) w = true) as Hquiet
    by (vm_compute; reflexivity).
  destruct (C6_subscribe_rejected (inl "focus") 5 w [ev; echo] bad "bad event" [ev]
              Hwf Hb Hm He Hne) as (H1 & H2 & _ & H4 & _ & H5 & H6).
  destruct (H6 Hfree) as (H7 & _ & H9 & _).
  split; [exact Hwf|]. split; [exact Hfree|]. split; [exact Hun|].
  split; [exact Hquiet|]. split; [exact (H5 Hquiet)|].
  split; [exact Hb|]. split; [exact Hm|].
  split; [etransitivity; [exact H1|vm_compute; reflexivity]|].
  split; [exact H2|]. split; [exact H4|]. split; [exact H7|].
  etransitivity; [exact H9|vm_compute; reflexivity].
Defined.

(** C7: after a successful [subscribe] (for instance to [focus] and
    [move]), an inbound [subscribed_event] message whose event type is one
    of the requested ones calls the callback exactly once, with the data of
    that message, and an inbound message whose event type is not among them,
    or which is no [subscribed_event], does not call it. *)
Theorem C7_subscribed_events event callback w before reply later msg :
  wf w = true →
  unused callback w = true →
  let eventsArr := eventsArr_of event in
  let c := "subscribe -e " +:+ String.concat "," eventsArr in
  Forall (λ m, is_reply c m = false) before →
  is_reply c reply = true →
  truthy (error reply) = false →
  let q := (subscribe event callback w).1 in
  let w1 := (subscribe event callback w).2 in
  let w2 := deliver (deliver_all before w1) reply in
  let w3 := deliver_all later w2 in
  let new := calls_to callback (concat (fired (AMessage msg) <$> _onMessageCallbacks w3)) in
  (∃ k, outcome q w2 =
        Fulfilled (VUnlisten {| registry := OnMessage;
                                dropped := EventListener k eventsArr callback |}))
  ∧ calls_to callback (calls (trace (deliver w3 msg)))
    = calls_to callback (calls (trace w3)) ++ new
  ∧ (∀ t, messageType msg = "subscribed_event" → type (data msg) = Some t →
          t ∈ eventsArr → new = [(callback, AData (data msg))])
  ∧ (∀ t, type (data msg) = Some t → t ∉ eventsArr → new = [])
  ∧ (messageType msg ≠ "subscribed_event" → new = []).
Proof.
  intros Hwf Hun eventsArr c Hno Hyes Hok q w1 w2 w3 new.
  pose proof (subscribe_awaiting event callback w Hwf Hun) as Ha.
  cbv zeta in Ha. fold eventsArr c w1 in Ha.
  assert (q = S (S (S (length (promises w))))) as Hq
    by (unfold q; by rewrite subscribe_eq).
  rewrite <- Hq in Ha.
  destruct (awaiting_deliver_all _ _ _ _ _ _ before w1 Hno Ha) as [Ha1 _].
  destruct (awaiting_deliver_reply _ _ _ _ _ _ reply _ Hyes Ha1) as [k Hsub].
  fold w2 in Hsub.
  set (l := EventListener k eventsArr callback) in *.
  assert (subscribe_result eventsArr callback (Fulfilled (VMessage reply)) k
          = (Fulfilled (VUnlisten {| registry := OnMessage; dropped := l |}), [l]))
    as Hres.
  { unfold subscribe_result. simpl. by rewrite Hok. }
  rewrite Hres in Hsub.
  assert (List.filter (uses callback) (_onMessageCallbacks w3) = [l]) as Hl.
  { eapply (subscribed_deliver_all _ q eventsArr callback _ later) in Hsub; [|done].
    apply Hsub. }
  assert (new = if is_event eventsArr msg then [(callback, AData (data msg))] else [])
    as Hnew.
  { unfold new. rewrite calls_to_fired, Hl. simpl. by rewrite app_nil_r. }
  split; [exists k; apply Hsub|].
  split; [by rewrite calls_deliver, calls_to_app|].
  rewrite Hnew. unfold is_event. split; [|split].
  - intros t Hkind Ht Hin. rewrite Ht.
    by rewrite !bool_decide_eq_true_2.
  - intros t Ht Hin. rewrite Ht. rewrite (bool_decide_eq_false_2 (t ∈ eventsArr)) by done.
    by rewrite andb_false_r.
  - intros Hkind. by rewrite bool_decide_eq_false_2.
Qed.

Lemma C7_subscribed_events_witness :
  let w := new_GwmClient None in
  let reply := {| messageType := "client_response";
                  clientMessage := Some "subscribe -e focus,move";
                  error := None; data := {| type := None; fields := 0 |} |} in
  let ev t n := {| messageType := "subscribed_event"; clientMessage := None;
                   error := None; data := {| type := Some t; fields := n |} |} in
  let w3 := deliver_all []
              (deliver (deliver_all [] (subscribe (inr ["focus"; "move"]) 5 w).2) reply) in
  let new msg := calls_to 5 (concat (fired (AMessage msg) <$> _onMessageCallbacks w3)) in
  wf w = true ∧ unused 5 w = true ∧
  new (ev "focus" 1) = [(5, AData (data (ev "focus" 1)))] ∧
  new (ev "other" 2) = [].
Proof.
  intros w reply ev w3 new.
  assert (wf w = true) as Hwf by reflexivity.
  assert (unused 5 w = true) as Hun by reflexivity.
  assert (Forall (λ m, is_reply "subscribe -e focus,move" m = false) []) as Hno
    by constructor.
  assert (is_reply "subscribe -e focus,move" reply = true) as Hyes by reflexivity.
  assert (truthy (error reply) = false) as Hok by reflexivity.
  split; [exact Hwf|]. split; [exact Hun|]. split.
  - destruct (C7_subscribed_events (inr ["focus"; "move"]) 5 w [] reply [] (ev "focus" 1)
                Hwf Hun Hno Hyes Hok) as (_ & _ & H3 & _).
    apply (H3 "focus"); [reflexivity|reflexivity|]. left.
  - destruct (C7_subscribed_events (inr ["focus"; "move"]) 5 w [] reply [] (ev "other" 2)
                Hwf Hun Hno Hyes Hok) as (_ & _ & _ & H4 & _).
    apply (H4 "other"); [reflexivity|].
    intros Hin. repeat (apply elem_of_cons in Hin as [Hin|Hin]; [discriminate|]).
    by apply elem_of_nil in Hin.
Defined.

(** * Further properties of the class *)

Lemma idle_deliver_frame w msg :
  idle w = true →
  promises (deliver w msg) = promises w
  ∧ _onMessageCallbacks (deliver w msg) = _onMessageCallbacks w
  ∧ microtasks (deliver w msg) = [].
Proof.
  intros Hidle. pose proof (idle_microtasks w Hidle) as Hq.
  unfold deliver, notify. simpl.
  destruct (forEach_quiet (_onMessageCallbacks w) (AMessage msg) w) as [Hp Hq'].
  { intros cb id c p m Hin -> _. by apply (idle_quiet w) in Hin. }
  rewrite runMicrotasks_idle by congruence.
  rewrite callbacks_forEach. split; [done|]. split; [done|congruence].
Qed.

(** X1: [send] hands the command to the transport once and does nothing
    else: no registry and no promise changes, and since no listener is
    registered for it, on a client with no request in flight whatever
    message comes back settles no promise and leaves the message registry as
    it was. *)
Theorem X1_send_is_fire_and_forget message w msg :
  idle w = true →
  trace (send message w) = trace w ++ [ESend message]
  ∧ (∀ r, callbacks r (send message w) = callbacks r w)
  ∧ promises (send message w) = promises w
  ∧ promises (deliver (send message w) msg) = promises w
  ∧ _onMessageCallbacks (deliver (send message w) msg) = _onMessageCallbacks w.
Proof.
  intros Hidle. split; [done|]. split; [by intros []|]. split; [done|].
  assert (idle (send message w) = true) as Hidle' by exact Hidle.
  destruct (idle_deliver_frame (send message w) msg Hidle') as (Hp & Hr & _).
  split; [exact Hp|exact Hr].
Qed.

Lemma X1_send_is_fire_and_forget_witness :
  let w := (onMessage (UserFn 1) (new_GwmClient None)).2 in
  let msg := {| messageType := "client_response"; clientMessage := Some "monitors";
                error := None; data := {| type := None; fields := 0 |} |} in
  idle w = true ∧
  trace (send "monitors" w) = trace w ++ [ESend "monitors"] ∧
  promises (deliver (send "monitors" w) msg) = promises w.
Proof.
  intros w msg. assert (idle w = true) as Hidle by reflexivity.
  destruct (X1_send_is_fire_and_forget "monitors" w msg Hidle) as (H1 & _ & _ & H4 & _).
  split; [exact Hidle|]. split; [exact H1|exact H4].
Defined.

(** X2: [getMonitors], [getWorkspaces] and [getWindows] are
    [sendAndWaitReply] at the commands [monitors], [workspaces] and
    [windows]: each sends its command once, registers one listener, and its
    promise ends with the first reply echoing that command. *)
Theorem X2_fixed_command_wrappers get c w msgs :
  (get, c) ∈ [(getMonitors, "monitors"); (getWorkspaces, "workspaces");
              (getWindows, "windows")] →
  wf w = true →
  let l := ReplyListener (closures w) c (length (promises w)) in
  trace (get w).2 = trace w ++ [ESend c; ERegister OnMessage l]
  ∧ _onMessageCallbacks (get w).2 = _onMessageCallbacks w ++ [l]
  ∧ outcome (get w).1 (deliver_all msgs (get w).2) = first_reply c msgs.
Proof.
  intros Hget Hwf l.
  assert (get = sendAndWaitReply c) as ->.
  { repeat (apply elem_of_cons in Hget as [[= -> ->]|Hget]; [done|]).
    by apply elem_of_nil in Hget. }
  pose proof (sendAndWaitReply_waiting c w Hwf) as Hw.
  split; [by rewrite sendAndWaitReply_eq|]. split; [by rewrite sendAndWaitReply_eq|].
  assert ((sendAndWaitReply c w).1 = S (S (length (promises w)))) as ->
    by (by rewrite sendAndWaitReply_eq).
  by eapply outcome_first_reply.
Qed.

Lemma X2_fixed_command_wrappers_witness :
  let w := new_GwmClient None in
  let reply c n := {| messageType := "client_response"; clientMessage := Some c;
                      error := None; data := {| type := None; fields := n |} |} in
  let msgs := [reply "monitors" 1; reply "workspaces" 2] in
  wf w = true ∧
  outcome (getWorkspaces w).1 (deliver_all msgs (getWorkspaces w).2)
  = Fulfilled (VMessage (reply "workspaces" 2)).
Proof.
  intros w reply msgs. assert (wf w = true) as Hwf by reflexivity.
  assert ((getWorkspaces, "workspaces")
          ∈ [(getMonitors, "monitors"); (getWorkspaces, "workspaces");
             (getWindows, "windows")]) as Hget by (right; left).
  split; [exact Hwf|].
  destruct (X2_fixed_command_wrappers getWorkspaces "workspaces" w msgs Hget Hwf)
    as (_ & _ & H). rewrite H. reflexivity.
Defined.

Lemma calls_notify ev w :
  calls (trace (notify ev w)) =
  calls (trace w) ++ concat (fired (route ev).2 <$> callbacks (route ev).1 w).
Proof.
  unfold notify. rewrite calls_runMicrotasks.
  destruct ev; simpl; apply calls_forEach.
Qed.

Lemma fired_user_functions a fs :
  concat (fired a <$> (UserFn <$> fs)) = (λ f, (f, a)) <$> fs.
Proof. induction fs as [|f fs IH]; [done|]. csimpl. by rewrite IH. Qed.

(** X3: a socket notification is fanned out to the listeners of its own
    registry and to no others (message to message listeners, open to connect
    listeners, error to error listeners, close to disconnect listeners); the
    functions the caller registered are called with the notification's
    payload in registration order, once per registration. *)
Theorem X3_notification_fan_out ev w :
  calls (trace (notify ev w)) =
  calls (trace w) ++ concat (fired (route ev).2 <$> callbacks (route ev).1 w)
  ∧ (∀ fs, callbacks (route ev).1 w = UserFn <$> fs →
       calls (trace (notify ev w)) = calls (trace w) ++ ((λ f, (f, (route ev).2)) <$> fs))
  ∧ (∀ r, callbacks r (_registerSocketLifecycle ev w) = callbacks r w).
Proof.
  split; [apply calls_notify|]. split.
  - intros fs Hfs. by rewrite calls_notify, Hfs, fired_user_functions.
  - intros r.
    assert (∀ l a, callbacks r (forEach l a w) = callbacks r w) as Hframe.
    { intros l a. apply (forEach_invariant (λ w', callbacks r w' = callbacks r w)); [|done].
      intros w' cb _ <-. destruct cb as [f|id c p|id evs f]; simpl.
      - by destruct r.
      - destruct a; try done. destruct (is_reply c m); [|done].
        unfold resolve. destruct (outcome p w'); try done.
        unfold settle. destruct (promises w' !! p); [|done]. by destruct r.
      - destruct a; try done. destruct (is_event evs m); [|done]. by destruct r. }
    destruct ev; simpl; apply Hframe.
Qed.

(** X4: the four registries are independent: a function registered in one
    registry, or a handle invoked on it, makes no difference to what a
    notification of another kind calls; an error listener, say, is never
    called for a message. *)
Theorem X4_registries_are_independent ev r f u w :
  (route ev).1 ≠ r →
  registry u = r →
  calls (trace (notify ev (listen r (UserFn f) w).2)) = calls (trace (notify ev w))
  ∧ calls (trace (notify ev (unlisten u w))) = calls (trace (notify ev w))
  ∧ callbacks (route ev).1 (listen r (UserFn f) w).2 = callbacks (route ev).1 w
  ∧ callbacks (route ev).1 (unlisten u w) = callbacks (route ev).1 w.
Proof.
  intros Hne Hu.
  assert (callbacks (route ev).1 (listen r (UserFn f) w).2 = callbacks (route ev).1 w)
    as Hl by (by destruct r, (route ev).1).
  assert (callbacks (route ev).1 (unlisten u w) = callbacks (route ev).1 w) as Hr
    by (apply callbacks_unlisten_other; congruence).
  rewrite !calls_notify, Hl, Hr. simpl. rewrite !calls_app. simpl.
  by rewrite !app_nil_r.
Qed.

Lemma X4_registries_are_independent_witness :
  let w := (onMessage (UserFn 1) (new_GwmClient None)).2 in
  let msg := {| messageType := "other"; clientMessage := None;
                error := None; data := {| type := None; fields := 0 |} |} in
  let u := {| registry := OnError; dropped := UserFn 1 |} in
  (route (onmessage msg)).1 ≠ OnError ∧ registry u = OnError ∧
  calls (trace (notify (onmessage msg) (listen OnError (UserFn 2) w).2))
  = calls (trace (notify (onmessage msg) w)) ∧
  calls (trace (notify (onmessage msg) (unlisten u w)))
  = calls (trace (notify (onmessage msg) w)).
Proof.
  intros w msg u.
  assert ((route (onmessage msg)).1 ≠ OnError) as Hne by discriminate.
  assert (registry u = OnError) as Hu by reflexivity.
  destruct (X4_registries_are_independent (onmessage msg) OnError 2 u w Hne Hu)
    as (H1 & H2 & _).
  split; [exact Hne|]. split; [exact Hu|]. split; [exact H1|exact H2].
Defined.

Lemma filter_fresh (x : Callback) (l : list Callback) :
  x ∉ l → filter (λ cb, cb ≠ x) (l ++ [x]) = l.
Proof.
  intros Hx. rewrite filter_app, filter_cons, filter_nil.
  case_decide; [done|]. rewrite app_nil_r.
  induction l as [|cb l IH]; [done|].
  apply not_elem_of_cons in Hx as [Hne Hx].
  rewrite filter_cons. case_decide; [|done]. by rewrite IH.
Qed.

(** X5: registering a callback that is not yet in the registry and then
    invoking the returned handle restores all four registries: the round
    trip leaves nothing behind, for [onMessage], [onConnect], [onDisconnect]
    and [onError] alike. *)
Theorem X5_listen_unlisten_round_trip on r cb w :
  (on, r) ∈ [(onMessage, OnMessage); (onConnect, OnConnect);
             (onDisconnect, OnDisconnect); (onError, OnError)] →
  cb ∉ callbacks r w →
  let u := (on cb w).1 in
  let w1 := (on cb w).2 in
  cb ∈ callbacks r w1
  ∧ (∀ r', callbacks r' (unlisten u w1) = callbacks r' w)
  ∧ promises (unlisten u w1) = promises w
  ∧ microtasks (unlisten u w1) = microtasks w.
Proof.
  intros Hon Hfresh.
  assert (on = listen r) as ->.
  { repeat (apply elem_of_cons in Hon as [[= -> ->]|Hon]; [done|]).
    by apply elem_of_nil in Hon. }
  intros u w1.
  split; [unfold w1; rewrite callbacks_listen; apply elem_of_app; right; by left|].
  split; [|done].
  intros r'. destruct (decide (r' = r)) as [->|Hne].
  - rewrite (callbacks_unlisten_same r u w1) by done.
    unfold w1. rewrite callbacks_listen. by apply filter_fresh.
  - rewrite callbacks_unlisten_other by done. by destruct r, r'.
Qed.

Lemma X5_listen_unlisten_round_trip_witness :
  let w := (onConnect (UserFn 1) (new_GwmClient None)).2 in
  let u := (onConnect (UserFn 2) w).1 in
  let w1 := (onConnect (UserFn 2) w).2 in
  (UserFn 2 ∉ callbacks OnConnect w) ∧
  _onConnectCallbacks w1 = [UserFn 1; UserFn 2] ∧
  _onConnectCallbacks (unlisten u w1) = [UserFn 1].
Proof.
  intros w u w1.
  assert ((onConnect, OnConnect) ∈ [(onMessage, OnMessage); (onConnect, OnConnect);
                                    (onDisconnect, OnDisconnect); (onError, OnError)])
    as Hon by (right; left).
  assert (UserFn 2 ∉ callbacks OnConnect w) as Hfresh.
  { simpl. intros Hin. apply list_elem_of_singleton in Hin. discriminate. }
  destruct (X5_listen_unlisten_round_trip onConnect OnConnect (UserFn 2) w Hon Hfresh)
    as (_ & H2 & _).
  split; [exact Hfresh|]. split; [reflexivity|]. exact (H2 OnConnect).
Defined.

(** X6: invoking the handle of a caller-supplied listener [f] changes
    nothing for any other function [g]: the next notification of that
    registry calls [g] exactly as it would have without the handle being
    invoked, and [f] itself no more as a direct listener. *)
Theorem X6_unlisten_spares_other_listeners ev f g w :
  g ≠ f →
  let u := {| registry := (route ev).1; dropped := UserFn f |} in
  let reached w' := concat (fired (route ev).2 <$> callbacks (route ev).1 w') in
  calls_to g (calls (trace (notify ev (unlisten u w))))
  = calls_to g (calls (trace w)) ++ calls_to g (reached w)
  ∧ calls_to g (reached (unlisten u w)) = calls_to g (reached w)
  ∧ (UserFn f ∉ callbacks (route ev).1 (unlisten u w)).
Proof.
  intros Hne u reached.
  assert (callbacks (route ev).1 (unlisten u w)
          = filter (λ cb, cb ≠ UserFn f) (callbacks (route ev).1 w)) as Hreg
    by (by apply callbacks_unlisten_same).
  assert (calls_to g (reached (unlisten u w)) = calls_to g (reached w)) as Hsame.
  { unfold reached. rewrite !calls_to_fired, Hreg. f_equal. f_equal.
    apply filter_uses_drop. simpl. by apply bool_decide_eq_false. }
  split; [|split; [done|]].
  - rewrite calls_notify, calls_to_app. fold (reached (unlisten u w)). rewrite Hsame.
    f_equal. simpl. rewrite calls_app. simpl. by rewrite app_nil_r.
  - rewrite Hreg, list_elem_of_filter. tauto.
Qed.

Lemma X6_unlisten_spares_other_listeners_witness :
  let w := (onMessage (UserFn 2) (onMessage (UserFn 1) (new_GwmClient None)).2).2 in
  let msg := {| messageType := "other"; clientMessage := None;
                error := None; data := {| type := None; fields := 0 |} |} in
  let u := {| registry := OnMessage; dropped := UserFn 1 |} in
  2 ≠ 1 ∧
  calls_to 2 (calls (trace (notify (onmessage msg) (unlisten u w)))) = [(2, AMessage msg)].
Proof.
  intros w msg u. assert (2 ≠ 1) as Hne by discriminate.
  split; [exact Hne|].
  destruct (X6_unlisten_spares_other_listeners (onmessage msg) 1 2 w Hne) as (H & _).
  etransitivity; [exact H|reflexivity].
Defined.

(** X7: two requests in flight with the very same command are both
    answered by one and the same message, the first reply echoing that
    command; that one reply also removes both temporary listeners. *)
Theorem X7_identical_commands_share_a_reply c w msgs :
  wf w = true →
  let la := ReplyListener (closures w) c (length (promises w)) in
  let pa := (sendAndWaitReply c w).1 in
  let wa := (sendAndWaitReply c w).2 in
  let lb := ReplyListener (closures wa) c (length (promises wa)) in
  let pb := (sendAndWaitReply c wa).1 in
  let wb := (sendAndWaitReply c wa).2 in
  pa ≠ pb
  ∧ outcome pa (deliver_all msgs wb) = first_reply c msgs
  ∧ outcome pb (deliver_all msgs wb) = first_reply c msgs
  ∧ (first_reply c msgs ≠ Pending →
     (la ∉ _onMessageCallbacks (deliver_all msgs wb))
     ∧ (lb ∉ _onMessageCallbacks (deliver_all msgs wb))).
Proof.
  intros Hwf la pa wa lb pb wb.
  pose proof (sendAndWaitReply_waiting c w Hwf) as Hwa. fold wa in Hwa.
  pose proof (wf_sendAndWaitReply c w Hwf) as Hwfa. fold wa in Hwfa.
  pose proof (sendAndWaitReply_waiting c wa Hwfa) as Hwb. fold wb in Hwb.
  apply (waiting_sendAndWaitReply _ _ _ c) in Hwa. fold wb in Hwa.
  assert (pa = S (S (length (promises w)))) as Hpa
    by (unfold pa; by rewrite sendAndWaitReply_eq).
  assert (pb = S (S (length (promises wa)))) as Hpb
    by (unfold pb; by rewrite sendAndWaitReply_eq).
  assert (length (promises wa) = length (promises w) + 3) as Hlen.
  { unfold wa. rewrite sendAndWaitReply_eq. simpl. by rewrite length_app. }
  split; [lia|]. rewrite Hpa, Hpb.
  split; [by eapply outcome_first_reply|]. split; [by eapply outcome_first_reply|].
  intros Hs.
  pose proof (waiting_deliver_all c _ _ msgs wb Hwa) as Ha.
  pose proof (waiting_deliver_all c _ _ msgs wb Hwb) as Hb.
  unfold first_reply in Hs. destruct (List.find (is_reply c) msgs); [|done].
  split; [apply Ha|apply Hb].
Qed.

Lemma X7_identical_commands_share_a_reply_witness :
  let w := new_GwmClient None in
  let reply := {| messageType := "client_response"; clientMessage := Some "windows";
                  error := None; data := {| type := None; fields := 4 |} |} in
  let wa := (sendAndWaitReply "windows" w).2 in
  let wb := (sendAndWaitReply "windows" wa).2 in
  wf w = true ∧
  outcome (sendAndWaitReply "windows" w).1 (deliver_all [reply] wb)
  = Fulfilled (VMessage reply) ∧
  outcome (sendAndWaitReply "windows" wa).1 (deliver_all [reply] wb)
  = Fulfilled (VMessage reply).
Proof.
  intros w reply wa wb. assert (wf w = true) as Hwf by reflexivity.
  destruct (X7_identical_commands_share_a_reply "windows" w [reply] Hwf)
    as (_ & H1 & H2 & _).
  split; [exact Hwf|]. split; [exact H1|exact H2].
Defined.

(** X8: the promise of [sendAndWaitReply] is never rejected, whatever
    arrives: a reply that carries an [error] text fulfils it like any other
    reply, and the caller finds the error inside the message. *)
Theorem X8_request_never_rejects c w msgs msg :
  wf w = true →
  let p := (sendAndWaitReply c w).1 in
  let w1 := (sendAndWaitReply c w).2 in
  (∀ e, outcome p (deliver_all msgs w1) ≠ Rejected e)
  ∧ (is_reply c msg = true →
     outcome p (deliver w1 msg) = Fulfilled (VMessage msg)
     ∧ error_of (VMessage msg) = error msg).
Proof.
  intros Hwf p w1.
  pose proof (sendAndWaitReply_waiting c w Hwf) as Hw. fold w1 in Hw.
  assert (p = S (S (length (promises w)))) as ->
    by (unfold p; by rewrite sendAndWaitReply_eq).
  split.
  - intros e. rewrite (outcome_first_reply c _ _ msgs w1 Hw). unfold first_reply.
    by destruct (List.find (is_reply c) msgs).
  - intros Hyes. split; [|done].
    by destruct (replied_deliver_reply c _ _ msg w1 Hyes Hw).
Qed.

Lemma X8_request_never_rejects_witness :
  let w := new_GwmClient None in
  let msg := {| messageType := "client_response"; clientMessage := Some "monitors";
                error := Some "unknown command";
                data := {| type := None; fields := 0 |} |} in
  wf w = true ∧
  outcome (sendAndWaitReply "monitors" w).1 (deliver (sendAndWaitReply "monitors" w).2 msg)
  = Fulfilled (VMessage msg).
Proof.
  intros w msg. assert (wf w = true) as Hwf by reflexivity.
  split; [exact Hwf|].
  destruct (X8_request_never_rejects "monitors" w [] msg Hwf) as [_ H].
  apply H. reflexivity.
Defined.

Lemma waiting_close c id p w : waiting c id p w → waiting c id p (close w).
Proof. intros Hw. exact Hw. Qed.

(** X9: the class never looks at the state of the connection: after
    [close()] a request in flight is still answered by the first reply
    echoing its command, [send] still hands its command to the transport,
    and notifications still reach the registered listeners. *)
Theorem X9_no_connection_state c c' w msgs ev :
  wf w = true →
  let p := (sendAndWaitReply c w).1 in
  let w1 := (sendAndWaitReply c w).2 in
  outcome p (deliver_all msgs (close w1)) = first_reply c msgs
  ∧ trace (send c' (close w1)) = trace w1 ++ [EClose; ESend c']
  ∧ calls (trace (notify ev (close w1)))
    = calls (trace w1) ++ concat (fired (route ev).2 <$> callbacks (route ev).1 w1).
Proof.
  intros Hwf p w1.
  pose proof (sendAndWaitReply_waiting c w Hwf) as Hw. fold w1 in Hw.
  assert (waiting c (closures w) (length (promises w)) (close w1)) as Hw'
    by (by apply waiting_close).
  assert (p = S (S (length (promises w)))) as ->
    by (unfold p; by rewrite sendAndWaitReply_eq).
  split; [by eapply outcome_first_reply|].
  split; [simpl; by rewrite <- app_assoc|].
  rewrite calls_notify.
  assert (calls (trace (close w1)) = calls (trace w1)) as ->
    by (simpl; by rewrite calls_app, app_nil_r).
  reflexivity.
Qed.

Lemma X9_no_connection_state_witness :
  let w := new_GwmClient None in
  let reply := {| messageType := "client_response"; clientMessage := Some "monitors";
                  error := None; data := {| type := None; fields := 0 |} |} in
  wf w = true ∧
  outcome (sendAndWaitReply "monitors" w).1
    (deliver_all [reply] (close (sendAndWaitReply "monitors" w).2))
  = Fulfilled (VMessage reply).
Proof.
  intros w reply. assert (wf w = true) as Hwf by reflexivity.
  split; [exact Hwf|].
  destruct (X9_no_connection_state "monitors" "" w [reply] (onopen 0) Hwf) as [H _].
  exact H.
Defined.

Lemma forEach_frame l a w r : callbacks r (forEach l a w) = callbacks r w.
Proof.
  apply (forEach_invariant (λ w', callbacks r w' = callbacks r w)); [|done].
  intros w' cb _ <-. destruct cb as [f|id c p|id evs f]; simpl.
  - by destruct r.
  - destruct a; try done. destruct (is_reply c m); [|done].
    unfold resolve. destruct (outcome p w'); try done.
    unfold settle. destruct (promises w' !! p); [|done]. by destruct r.
  - destruct a; try done. destruct (is_event evs m); [|done]. by destruct r.
Qed.

(** X10: a connection event (open, error, close) is only passed on to
    its listeners: it settles no promise, so that a transport failure never
    rejects a request in flight, and it changes no registry. *)
Theorem X10_connection_events_settle_nothing ev w :
  microtasks w = [] →
  (∀ d, ev ≠ onmessage d) →
  promises (notify ev w) = promises w
  ∧ (∀ p, outcome p (notify ev w) = outcome p w)
  ∧ (∀ r, callbacks r (notify ev w) = callbacks r w)
  ∧ microtasks (notify ev w) = [].
Proof.
  intros Hq Hev. unfold notify.
  assert (∀ l a, (∀ m, a ≠ AMessage m) →
            promises (forEach l a w) = promises w
            ∧ microtasks (forEach l a w) = microtasks w) as Hquiet.
  { intros l a Ha. apply forEach_quiet. intros cb id c p m _ _ ->. by destruct (Ha m). }
  assert (promises (_registerSocketLifecycle ev w) = promises w
          ∧ microtasks (_registerSocketLifecycle ev w) = microtasks w
          ∧ ∀ r, callbacks r (_registerSocketLifecycle ev w) = callbacks r w)
    as (Hp & Hq' & Hr).
  { destruct ev as [d|e|e|e]; [by destruct (Hev d)|..]; simpl;
      (split; [|split]; [by apply Hquiet|by apply Hquiet|intros r; apply forEach_frame]). }
  rewrite runMicrotasks_idle by congruence.
  split; [done|]. split; [intros p; unfold outcome; by rewrite Hp|].
  split; [done|congruence].
Qed.

Lemma X10_connection_events_settle_nothing_witness :
  let w := (onError (UserFn 9) (sendAndWaitReply "monitors" (new_GwmClient None)).2).2 in
  microtasks w = [] ∧ (∀ d, onerror 1 ≠ onmessage d) ∧
  outcome 2 (notify (onerror 1) w) = Pending ∧
  calls (trace (notify (onerror 1) w)) = [(9, AEvent 1)].
Proof.
  intros w. assert (microtasks w = []) as Hq by reflexivity.
  assert (∀ d, onerror 1 ≠ onmessage d) as Hev by discriminate.
  destruct (X10_connection_events_settle_nothing (onerror 1) w Hq Hev) as (_ & H & _).
  split; [exact Hq|]. split; [exact Hev|]. split; [exact (H 2)|]. reflexivity.
Defined.

Lemma fired_other_kind msg l :
  messageType msg ≠ "subscribed_event" →
  concat (fired (AMessage msg) <$> l) = (λ f, (f, AMessage msg)) <$> user_listeners l.
Proof.
  intros Hkind. induction l as [|cb l IH]; [done|]. csimpl. rewrite IH.
  destruct cb as [f|id c p|id evs f]; simpl; [done..|].
  unfold is_event. by rewrite bool_decide_eq_false_2.
Qed.

(** X11: a message that is neither a [client_response] nor a
    [subscribed_event] is passed through uninterpreted: the functions
    registered with [onMessage] receive it, in registration order, and that
    is all; no promise is settled, no subscription callback runs and no
    registry changes. *)
Theorem X11_other_kinds_pass_through msg w :
  microtasks w = [] →
  messageType msg ≠ "client_response" →
  messageType msg ≠ "subscribed_event" →
  promises (deliver w msg) = promises w
  ∧ (∀ r, callbacks r (deliver w msg) = callbacks r w)
  ∧ calls (trace (deliver w msg))
    = calls (trace w) ++ ((λ f, (f, AMessage msg)) <$> user_listeners (_onMessageCallbacks w)).
Proof.
  intros Hq Hr He.
  destruct (forEach_quiet (_onMessageCallbacks w) (AMessage msg) w) as [Hp Hq'].
  { intros cb id c p m _ _ [= <-]. unfold is_reply. by rewrite bool_decide_eq_false_2. }
  unfold deliver, notify. simpl. rewrite runMicrotasks_idle by congruence.
  split; [done|]. split; [intros r; apply forEach_frame|].
  by rewrite calls_forEach, fired_other_kind.
Qed.

Lemma X11_other_kinds_pass_through_witness :
  let w := (onMessage (UserFn 4)
              (deliver (subscribe (inl "focus") 5 (new_GwmClient None)).2
                 {| messageType := "client_response";
                    clientMessage := Some "subscribe -e focus";
                    error := None; data := {| type := None; fields := 0 |} |})).2 in
  let msg := {| messageType := "keepalive"; clientMessage := None;
                error := None; data := {| type := Some "focus"; fields := 0 |} |} in
  microtasks w = [] ∧ messageType msg ≠ "client_response" ∧
  messageType msg ≠ "subscribed_event" ∧
  calls (trace (deliver w msg))
  = calls (trace w) ++ ((λ f, (f, AMessage msg)) <$> user_listeners (_onMessageCallbacks w)).
Proof.
  intros w msg.
  assert (microtasks w = []) as Hq by (vm_compute; reflexivity).
  assert (messageType msg ≠ "client_response") as Hr by discriminate.
  assert (messageType msg ≠ "subscribed_event") as He by discriminate.
  destruct (X11_other_kinds_pass_through msg w Hq Hr He) as (_ & _ & H).
  split; [exact Hq|]. split; [exact Hr|]. split; [exact He|exact H].
Defined.

Lemma wf_apply_op w op :
  wf w = true → microtasks w = [] →
  wf (apply_op w op) = true ∧ microtasks (apply_op w op) = [].
Proof.
  intros Hwf Hq. destruct op as [c|c|event cb|r f|u| |ev]; unfold apply_op.
  - done.
  - split; [by apply wf_sendAndWaitReply|by rewrite microtasks_sendAndWaitReply].
  - split; [by apply wf_subscribe|by rewrite microtasks_subscribe].
  - split; [by apply wf_listen|done].
  - split; [by apply wf_unlisten|done].
  - done.
  - split; [by apply wf_notify|apply runMicrotasks_empty].
Qed.

(** X12: whatever is done with a client (calls of [send],
    [sendAndWaitReply], [subscribe], the four registration methods, any
    handle, [close], and socket notifications, in any order), its state
    stays well formed: every promise a listener resolves or a reaction
    waits for exists, every [finally] handle drops a reply listener, and
    between two operations no reaction job is left in the queue. *)
Theorem X12_reachable_states_are_well_formed options ops :
  wf (run ops (new_GwmClient options)) = true
  ∧ microtasks (run ops (new_GwmClient options)) = [].
Proof.
  assert (∀ w, wf w = true → microtasks w = [] →
            wf (run ops w) = true ∧ microtasks (run ops w) = []) as Hrun.
  { unfold run. induction ops as [|op ops IH]; intros w Hwf Hq; simpl; [done|].
    destruct (wf_apply_op w op Hwf Hq). by apply IH. }
  by apply Hrun.
Qed.

Lemma filter_uses_comm f x (l : list Callback) :
  List.filter (uses f) (filter (λ cb, cb ≠ x) l)
  = filter (λ cb, cb ≠ x) (List.filter (uses f) l).
Proof.
  induction l as [|cb l IH]; [done|].
  rewrite filter_cons. simpl. case_decide as Hcb; simpl.
  - destruct (uses f cb); [|done]. rewrite filter_cons.
    case_decide; [|done]. by rewrite IH.
  - destruct (uses f cb); [|done]. rewrite filter_cons. by case_decide.
Qed.

Lemma subscribed_unlisten q p eventsArr callback out l w :
  subscribed q p eventsArr callback (out, [l]) w →
  subscribed q p eventsArr callback (out, [])
    (unlisten {| registry := OnMessage; dropped := l |} w).
Proof.
  intros (Hst & Hout & Huses). split; [exact Hst|]. split; [exact Hout|].
  rewrite callbacks_unlisten. simpl in *. rewrite filter_uses_comm, Huses.
  rewrite filter_cons, filter_nil. by case_decide.
Qed.

(** X13: the handle that a successful [subscribe] resolves to only
    detaches the local listener: invoking it sends nothing to the server,
    and from then on no inbound message reaches the callback. *)
Theorem X13_subscription_handle_is_local event callback w before reply later more :
  wf w = true →
  unused callback w = true →
  let eventsArr := eventsArr_of event in
  let c := "subscribe -e " +:+ String.concat "," eventsArr in
  Forall (λ m, is_reply c m = false) before →
  is_reply c reply = true →
  truthy (error reply) = false →
  let q := (subscribe event callback w).1 in
  let w1 := (subscribe event callback w).2 in
  let w2 := deliver (deliver_all before w1) reply in
  let w3 := deliver_all later w2 in
  ∃ u, outcome q w2 = Fulfilled (VUnlisten u)
       ∧ registry u = OnMessage
       ∧ trace (unlisten u w3) = trace w3 ++ [EUnlisten OnMessage (dropped u)]
       ∧ List.filter (uses callback) (_onMessageCallbacks (unlisten u w3)) = []
       ∧ calls_to callback (calls (trace (deliver_all more (unlisten u w3))))
         = calls_to callback (calls (trace w3)).
Proof.
  intros Hwf Hun eventsArr c Hno Hyes Hok q w1 w2 w3.
  pose proof (subscribe_awaiting event callback w Hwf Hun) as Ha.
  cbv zeta in Ha. fold eventsArr c w1 in Ha.
  assert (q = S (S (S (length (promises w))))) as Hq
    by (unfold q; by rewrite subscribe_eq).
  rewrite <- Hq in Ha.
  destruct (awaiting_deliver_all _ _ _ _ _ _ before w1 Hno Ha) as [Ha1 _].
  destruct (awaiting_deliver_reply _ _ _ _ _ _ reply _ Hyes Ha1) as [k Hsub].
  fold w2 in Hsub.
  set (l := EventListener k eventsArr callback) in *.
  set (u := {| registry := OnMessage; dropped := l |}).
  assert (subscribe_result eventsArr callback (Fulfilled (VMessage reply)) k
          = (Fulfilled (VUnlisten u), [l])) as Hres.
  { unfold subscribe_result. simpl. by rewrite Hok. }
  rewrite Hres in Hsub.
  assert (subscribed q (S (S (length (promises w)))) eventsArr callback
            (Fulfilled (VUnlisten u), [l]) w3) as Hsub3
    by (by apply subscribed_deliver_all).
  pose proof (subscribed_unlisten _ _ _ _ _ _ _ Hsub3) as Hoff. fold u in Hoff.
  exists u. split; [apply Hsub|]. split; [done|]. split; [done|].
  split; [apply Hoff|].
  rewrite (subscribed_calls q _ eventsArr callback (Fulfilled (VUnlisten u), [])) by done.
  simpl. by rewrite calls_app, app_nil_r.
Qed.

Lemma X13_subscription_handle_is_local_witness :
  let w := new_GwmClient None in
  let reply := {| messageType := "client_response";
                  clientMessage := Some "subscribe -e focus";
                  error := Some ""; data := {| type := None; fields := 0 |} |} in
  wf w = true ∧ unused 5 w = true ∧
  Forall (λ m, is_reply "subscribe -e focus" m = false) [] ∧
  is_reply "subscribe -e focus" reply = true ∧ truthy (error reply) = false ∧
  ∃ u, outcome (subscribe (inl "focus") 5 w).1
         (deliver (deliver_all [] (subscribe (inl "focus") 5 w).2) reply)
       = Fulfilled (VUnlisten u).
Proof.
  intros w reply.
  assert (wf w = true) as Hwf by reflexivity.
  assert (unused 5 w = true) as Hun by reflexivity.
  assert (Forall (λ m, is_reply "subscribe -e focus" m = false) []) as Hno
    by constructor.
  assert (is_reply "subscribe -e focus" reply = true) as Hyes by reflexivity.
  assert (truthy (error reply) = false) as Hok by reflexivity.
  do 5 (split; [assumption|]).
  destruct (X13_subscription_handle_is_local (inl "focus") 5 w [] reply [] []
              Hwf Hun Hno Hyes Hok) as (u & H & _).
  exists u. exact H.
Defined.

(** X14: [subscribe] sends the one command [subscribe -e] followed by the
    event tags joined by commas, and registers its event listener only
    once the reply is there: until then its promise is pending and events
    that arrive, even of a requested type, do not reach the callback. *)
Theorem X14_events_before_the_reply_are_dropped event callback w before :
  wf w = true →
  unused callback w = true →
  let eventsArr := eventsArr_of event in
  let c := "subscribe -e " +:+ String.concat "," eventsArr in
  Forall (λ m, is_reply c m = false) before →
  let q := (subscribe event callback w).1 in
  let w1 := (subscribe event callback w).2 in
  trace w1 = trace w ++ [ESend c; ERegister OnMessage
                           (ReplyListener (closures w) c (length (promises w)))]
  ∧ outcome q (deliver_all before w1) = Pending
  ∧ List.filter (uses callback) (_onMessageCallbacks (deliver_all before w1)) = []
  ∧ calls_to callback (calls (trace (deliver_all before w1)))
    = calls_to callback (calls (trace w)).
Proof.
  intros Hwf Hun eventsArr c Hno q w1.
  pose proof (subscribe_awaiting event callback w Hwf Hun) as Ha.
  cbv zeta in Ha. fold eventsArr c w1 in Ha.
  assert (q = S (S (S (length (promises w))))) as Hq
    by (unfold q; by rewrite subscribe_eq).
  rewrite <- Hq in Ha.
  destruct (awaiting_deliver_all _ _ _ _ _ _ before w1 Hno Ha) as [Ha1 Hc].
  split.
  { unfold w1. rewrite subscribe_eq. unfold set_promises. cbn [snd trace].
    fold eventsArr c. by rewrite sendAndWaitReply_eq. }
  split; [apply Ha1|]. split; [apply Ha1|].
  rewrite Hc. unfold calls_to. f_equal. apply calls_subscribe.
Qed.

Lemma X14_events_before_the_reply_are_dropped_witness :
  let w := new_GwmClient None in
  let ev := {| messageType := "subscribed_event"; clientMessage := None;
               error := None; data := {| type := Some "focus"; fields := 1 |} |} in
  let w1 := (subscribe (inr ["focus"; "move"]) 5 w).2 in
  wf w = true ∧ unused 5 w = true ∧
  Forall (λ m, is_reply "subscribe -e focus,move" m = false) [ev] ∧
  outcome (subscribe (inr ["focus"; "move"]) 5 w).1 (deliver_all [ev] w1) = Pending ∧
  calls_to 5 (calls (trace (deliver_all [ev] w1))) = [].
Proof.
  intros w ev w1.
  assert (wf w = true) as Hwf by reflexivity.
  assert (unused 5 w = true) as Hun by reflexivity.
  assert (Forall (λ m, is_reply "subscribe -e focus,move" m = false) [ev]) as Hno
    by (repeat constructor).
  do 3 (split; [assumption|]).
  destruct (X14_events_before_the_reply_are_dropped (inr ["focus"; "move"]) 5 w [ev]
              Hwf Hun Hno) as (_ & H2 & _ & H4).
  split; [exact H2|exact H4].
Defined.

Lemma unused_subscribe f event callback w :
  unused f w = true → f ≠ callback → unused f (subscribe event callback w).2 = true.
Proof.
  unfold unused. intros [Hl Ho]%andb_prop Hne.
  destruct (subscribe_shape event callback w) as [-> ->].
  rewrite !forallb_app, Hl, Ho. simpl. rewrite andb_true_r.
  by rewrite bool_decide_eq_false_2 by congruence.
Qed.

Lemma free_subscribe f event callback w :
  free f w = true → f ≠ callback → free f (subscribe event callback w).2 = true.
Proof.
  unfold free. intros [Hl Ho]%andb_prop Hne.
  destruct (subscribe_shape event callback w) as [-> ->].
  rewrite !forallb_app, Hl, Ho. simpl. rewrite andb_true_r.
  by rewrite bool_decide_eq_false_2 by congruence.
Qed.

(** A subscription awaiting its reply is not disturbed by another
    [subscribe] with a different callback. *)
Lemma awaiting_subscribe c id p q eventsArr callback event' callback' w :
  callback' ≠ callback →
  awaiting c id p q eventsArr callback w →
  awaiting c id p q eventsArr callback (subscribe event' callback' w).2.
Proof.
  intros Hne ((Hch & Hp1 & Hp2 & Hp3 & Hl & Hres & Hdrop) & (Hoq & Hone & Hfin)
              & Hq & Huses & Hnoq).
  pose proof (chain_lt _ _ _ _ Hch) as Hlt. pose proof Hch as (H1 & H2 & H3).
  assert (q < length (promises w)) as Hqlt.
  { unfold origin_at in Hoq. destruct (promises w !! q) eqn:E; [|done].
    by eapply lookup_lt_Some. }
  pose proof (subscribe_shape event' callback' w) as [Hps Hreg]. cbv zeta in Hps, Hreg.
  set (w2 := (subscribe event' callback' w).2) in *.
  assert (∀ x, x < length (promises w) →
            origin_at x w2 = origin_at x w ∧ outcome x w2 = outcome x w) as Hold.
  { intros x Hx. by eapply origin_at_grow. }
  pose proof (λ j o, subscribe_origin_cases event' callback' w j o) as Hcases.
  cbv zeta in Hcases. fold w2 in Hcases.
  destruct (Hold p) as [Ho1 Hs1]; [lia|].
  destruct (Hold (S p)) as [Ho2 Hs2]; [lia|].
  destruct (Hold (S (S p))) as [Ho3 Hs3]; [lia|].
  destruct (Hold q) as [Ho4 Hs4]; [lia|].
  split; [|split; [|split; [|split]]].
  - unfold waiting, chain. rewrite Ho1, Ho2, Ho3, Hs1, Hs2, Hs3, Hreg.
    do 4 (split; [done|]). split; [apply elem_of_app; by left|]. split.
    + intros id' c' p' Hin. apply elem_of_app in Hin as [Hin|Hin]; [eauto|].
      apply list_elem_of_singleton in Hin. injection Hin as -> -> ->.
      split; [lia|]. split; lia.
    + intros j p' u Hj Hu.
      destruct (Hcases j _ Hj) as [[_ Hjw]|[_ [?|[?|[?|?]]]]]; simplify_eq/=; eauto.
      lia.
  - split; [by rewrite Ho4|]. split.
    + intros j p' evs' Hj.
      destruct (Hcases j _ Hj) as [[Hjn Hjw]|[_ [?|[?|[?|?]]]]]; simplify_eq/=.
      destruct (Hone _ _ _ Hjw) as [?|Hs]; [by left|right].
      by destruct (Hold j Hjn) as [_ ->].
    + intros j p' u Hj.
      destruct (Hcases j _ Hj) as [[_ Hjw]|[_ [?|[?|[?|?]]]]]; simplify_eq/=; eauto.
  - by rewrite Hs4.
  - rewrite Hreg, List.filter_app, Huses. done.
  - intros id' c' p' Hin. rewrite Hreg in Hin.
    apply elem_of_app in Hin as [Hin|Hin]; [eauto|].
    apply list_elem_of_singleton in Hin. injection Hin as -> -> ->. lia.
Qed.

(** The listener's test is the specification's notion of an announced
    event. *)
Lemma is_event_announces evs m : is_event evs m = true ↔ announces evs m.
Proof.
  unfold is_event, announces. rewrite andb_true_iff, bool_decide_eq_true.
  destruct (type (data m)) as [t|].
  - rewrite bool_decide_eq_true. split.
    + intros [? ?]. split; [done|]. by exists t.
    + intros [? (t' & [= <-] & ?)]. done.
  - split; [by intros [_ ?]|]. by intros [_ (t' & ? & _)].
Qed.

Lemma calls_to_deliver_one cb k evs w msg :
  List.filter (uses cb) (_onMessageCallbacks w) = [EventListener k evs cb] →
  calls_to cb (calls (trace (deliver w msg)))
  = calls_to cb (calls (trace w))
    ++ (if is_event evs msg then [(cb, AData (data msg))] else []).
Proof. intros Hl. rewrite calls_to_deliver, Hl. simpl. by rewrite app_nil_r. Qed.

(** X15: subscriptions with different callbacks, both free at the calls,
    are independent, also when their event sets overlap or coincide: after
    two [subscribe] calls and
    the two successful replies, delivering an inbound message adds to the
    log exactly one call of each callback whose own set the message
    announces an event of, with the data of the message, and no call of a
    callback whose set it does not.  (When both calls ask for the same
    events and so send the same command, the first reply already completes
    both.) *)
Theorem X15_subscriptions_are_independent event1 callback1 event2 callback2 w r1 r2 msg :
  wf w = true →
  free callback1 w = true →
  free callback2 w = true →
  callback1 ≠ callback2 →
  let evs1 := eventsArr_of event1 in
  let evs2 := eventsArr_of event2 in
  answers ("subscribe -e " +:+ String.concat "," evs1) r1 →
  answers ("subscribe -e " +:+ String.concat "," evs2) r2 →
  truthy (error r1) = false →
  truthy (error r2) = false →
  let wa := (subscribe event1 callback1 w).2 in
  let wb := (subscribe event2 callback2 wa).2 in
  let w2 := deliver_all [r1; r2] wb in
  let w3 := deliver w2 msg in
  (announces evs1 msg →
   calls_to callback1 (calls (trace w3))
   = calls_to callback1 (calls (trace w2)) ++ [(callback1, AData (data msg))])
  ∧ (¬ announces evs1 msg →
     calls_to callback1 (calls (trace w3)) = calls_to callback1 (calls (trace w2)))
  ∧ (announces evs2 msg →
     calls_to callback2 (calls (trace w3))
     = calls_to callback2 (calls (trace w2)) ++ [(callback2, AData (data msg))])
  ∧ (¬ announces evs2 msg →
     calls_to callback2 (calls (trace w3)) = calls_to callback2 (calls (trace w2))).
Proof.
  intros Hwf Hun1 Hun2 Hne evs1 evs2 Hm1 Hm2 Hok1 Hok2 wa wb w2 w3.
  set (c1 := "subscribe -e " +:+ String.concat "," evs1) in *.
  set (c2 := "subscribe -e " +:+ String.concat "," evs2) in *.
  pose proof (proj2 (is_reply_answers c1 r1) Hm1) as Hr1.
  pose proof (proj2 (is_reply_answers c2 r2) Hm2) as Hr2.
  pose proof (proj2 (subscribe_state event1 callback1 w Hwf) Hun1) as Ha.
  fold evs1 c1 wa in Ha.
  apply (awaiting_subscribe _ _ _ _ _ _ event2 callback2) in Ha; [|done]. fold wb in Ha.
  pose proof (wf_subscribe event1 callback1 w Hwf) as Hwfa. fold wa in Hwfa.
  assert (free callback2 wa = true) as Hun2a by (by apply free_subscribe).
  pose proof (proj2 (subscribe_state event2 callback2 wa Hwfa) Hun2a) as Hb.
  fold evs2 c2 wb in Hb.
  assert (∀ evs cb r k, truthy (error r) = false →
            subscribe_result evs cb (Fulfilled (VMessage r)) k
            = (Fulfilled (VUnlisten {| registry := OnMessage;
                                       dropped := EventListener k evs cb |}),
               [EventListener k evs cb])) as Hres.
  { intros evs cb r k Hok. unfold subscribe_result. simpl. by rewrite Hok. }
  assert (w2 = deliver (deliver wb r1) r2) as Hw2 by reflexivity.
  (* the first subscription *)
  destruct (awaiting_deliver_reply _ _ _ _ _ _ r1 _ Hr1 Ha) as [k1 Hs1].
  rewrite Hres in Hs1 by done.
  apply (subscribed_deliver _ _ _ _ _ r2) in Hs1; [|done].
  destruct Hs1 as (_ & _ & Hl1).
  (* the second one *)
  assert (∃ k2, List.filter (uses callback2)
                  (_onMessageCallbacks (deliver (deliver wb r1) r2))
                = [EventListener k2 evs2 callback2]) as [k2 Hl2].
  { destruct (is_reply c2 r1) eqn:Hc.
    - destruct (awaiting_deliver_reply _ _ _ _ _ _ r1 _ Hc Hb) as [k2 Hs2].
      rewrite Hres in Hs2 by done.
      apply (subscribed_deliver _ _ _ _ _ r2) in Hs2; [|done].
      exists k2. apply Hs2.
    - apply (awaiting_deliver_other _ _ _ _ _ _ r1) in Hb; [|done].
      destruct (awaiting_deliver_reply _ _ _ _ _ _ r2 _ Hr2 Hb) as [k2 Hs2].
      rewrite Hres in Hs2 by done. exists k2. apply Hs2. }
  rewrite <- Hw2 in Hl1, Hl2.
  unfold w3.
  rewrite (calls_to_deliver_one _ _ _ _ msg Hl1), (calls_to_deliver_one _ _ _ _ msg Hl2).
  clearbody w2.
  split; [|split; [|split]].
  - intros Hyes. apply is_event_announces in Hyes. by rewrite Hyes.
  - intros Hno. destruct (is_event evs1 msg) eqn:E; [|by rewrite app_nil_r].
    by apply is_event_announces in E.
  - intros Hyes. apply is_event_announces in Hyes. by rewrite Hyes.
  - intros Hno. destruct (is_event evs2 msg) eqn:E; [|by rewrite app_nil_r].
    by apply is_event_announces in E.
Qed.

Lemma X15_subscriptions_are_independent_witness :
  let w := new_GwmClient None in
  let r := {| messageType := "client_response";
              clientMessage := Some "subscribe -e focus";
              error := None; data := {| type := None; fields := 0 |} |} in
  let msg := {| messageType := "subscribed_event"; clientMessage := None;
                error := None; data := {| type := Some "focus"; fields := 8 |} |} in
  let wb := (subscribe (inr ["focus"]) 2 (subscribe (inl "focus") 1 w).2).2 in
  let w2 := deliver_all [r; r] wb in
  wf w = true ∧ free 1 w = true ∧ free 2 w = true ∧ 1 ≠ 2 ∧
  answers "subscribe -e focus" r ∧ announces ["focus"] msg ∧
  calls_to 1 (calls (trace (deliver w2 msg)))
  = calls_to 1 (calls (trace w2)) ++ [(1, AData (data msg))] ∧
  calls_to 2 (calls (trace (deliver w2 msg)))
  = calls_to 2 (calls (trace w2)) ++ [(2, AData (data msg))] ∧
  calls (trace (deliver w2 msg)) = [(1, AData (data msg)); (2, AData (data msg))].
Proof.
  intros w r msg wb w2.
  assert (wf w = true) as Hwf by reflexivity.
  assert (free 1 w = true) as Hun1 by reflexivity.
  assert (free 2 w = true) as Hun2 by reflexivity.
  assert (1 ≠ 2) as Hne by discriminate.
  assert (answers "subscribe -e focus" r) as Hm by (split; reflexivity).
  assert (announces ["focus"] msg) as Hyes
    by (split; [reflexivity|exists "focus"; split; [reflexivity|left]]).
  do 6 (split; [assumption|]).
  destruct (X15_subscriptions_are_independent (inl "focus") 1 (inr ["focus"]) 2 w r r msg
              Hwf Hun1 Hun2 Hne Hm Hm eq_refl eq_refl) as (H1 & _ & H2 & _).
  split; [exact (H1 Hyes)|]. split; [exact (H2 Hyes)|].
  vm_compute. reflexivity.
Defined.
